(** * Parameter model of the synthesizer plugin: [Param], [ParamDb], [ParamStepped]

    A shallow embedding of [src/gui/panels/LfoPanel.h] (the part after the
    generated panel class): the parameter classes, their conversion
    utilities, the dirty flag and the listener notification.

    C++ [float] is IEEE-754 binary32.  It is modelled by [spec_float] with
    precision 24 and maximal exponent 128; sums, products, quotients and
    comparisons are the correctly rounded (nearest-even) operations of
    [SpecFloat].  An atomic variable is a plain field: the calls of one
    sequence happen one after the other. *)

From Stdlib Require Import ZArith QArith Qround Reals Lra Bool Lia SpecFloat.
From stdpp Require Import base decidable option list gmap strings pretty.

Open Scope Z_scope.

(** * Part I: the program *)

(** ** binary32 arithmetic *)

Module F32.

Definition prec : Z := 24.
Definition emax : Z := 128.

Definition float : Type := spec_float.

Definition add : float -> float -> float := SFadd prec emax.
Definition sub : float -> float -> float := SFsub prec emax.
Definition mul : float -> float -> float := SFmul prec emax.
Definition div : float -> float -> float := SFdiv prec emax.

(** The four C++ comparisons; each is false as soon as one side is NaN. *)
Definition ltb (x y : float) : bool :=
  match SFcompare x y with Some Lt => true | _ => false end.
Definition leb (x y : float) : bool :=
  match SFcompare x y with Some (Lt | Eq) => true | _ => false end.
Definition gtb (x y : float) : bool :=
  match SFcompare x y with Some Gt => true | _ => false end.
Definition geb (x y : float) : bool :=
  match SFcompare x y with Some (Gt | Eq) => true | _ => false end.

(** [static_cast<float>(i)] and [(float)i] for an [int] (or enum) [i]. *)
Definition of_int (i : Z) : float := binary_normalize prec emax i 0 false.

(** A well-formed binary32 datum. *)
Definition valid (x : float) : bool := valid_binary prec emax x.

(** Literals of the source. *)
Definition zero : float := S754_zero false.                      (* 0.f, 0.0f *)
Definition half : float := S754_finite false 8388608 (-24).      (* .5f, 0.5f *)
Definition one : float := S754_finite false 8388608 (-23).       (* 1.f, 1.0f *)
Definition minus_one : float := S754_finite true 8388608 (-23).  (* -1.0f *)
Definition two : float := S754_finite false 8388608 (-22).       (* 2.0f *)
Definition ten : float := S754_finite false 10485760 (-20).      (* 10.f *)
Definition twenty : float := S754_finite false 10485760 (-19).   (* 20.f *)
Definition c127 : float := S754_finite false 16646144 (-17).     (* 127.0f *)

(** [std::trunc]: the fractional bits of the mantissa are cleared; what has
    no fractional bit (and zeros, infinities, NaN) is returned as it is. *)
Definition trunc (x : float) : float :=
  match x with
  | S754_finite s m e =>
      if 0 <=? e then x
      else match Z.shiftl (Z.shiftr (Zpos m) (- e)) (- e) with
           | Zpos m' => S754_finite s m' e
           | _ => S754_zero s
           end
  | _ => x
  end.

(** The integer a finite datum becomes when its fraction is discarded. *)
Definition int_part (x : float) : option Z :=
  match x with
  | S754_zero _ => Some 0
  | S754_finite s m e =>
      let a := if 0 <=? e then Z.shiftl (Zpos m) e else Z.shiftr (Zpos m) (- e) in
      Some (if s then - a else a)
  | _ => None
  end.

Definition int_min : Z := - 2 ^ 31.
Definition int_max : Z := 2 ^ 31 - 1.

Section Conversion.
(** [static_cast<int>(x)] discards the fraction.  When the result does not
    fit a 32-bit [int] (or [x] is infinite or NaN) the C++ standard leaves
    the conversion undefined and the compiled code yields a value that
    depends on the target (the x86 conversion instruction gives [int_min]);
    that value is the parameter [indefinite]. *)
Variable indefinite : float -> Z.

Definition to_int (x : float) : Z :=
  match int_part x with
  | Some z => if (int_min <=? z) && (z <=? int_max) then z else indefinite x
  | None => indefinite x
  end.
End Conversion.

Section SizeConversion.
(** [static_cast<size_t>(x)] discards the fraction as well.  [size_max] is
    the largest [size_t] of the target; when the result does not fit, the
    conversion is undefined and the compiled code yields some [size_t],
    here [indefinite x] reduced to the range of [size_t]. *)
Variable size_max : Z.
Variable indefinite : float -> Z.

Definition to_size (x : float) : Z :=
  match int_part x with
  | Some z => if (0 <=? z) && (z <=? size_max) then z
              else indefinite x mod (size_max + 1)
  | None => indefinite x mod (size_max + 1)
  end.
End SizeConversion.

End F32.

(** ** What the source takes from its environment *)

(** [std::log10] and [std::pow] on [float] come from the C library, and the
    result of an out-of-range [float] to [int] conversion from the target
    (see [F32.to_int]).  The model is parametric in the three. *)
Class Platform := {
  std_log10 : F32.float -> F32.float;
  std_pow : F32.float -> F32.float -> F32.float;
  cvt_indefinite : F32.float -> Z
}.

(** [size_t] and its conversion from [float] depend on the target as well,
    and [String::formatted ("val%u", u)] is the framework's; [formatted_val]
    stands for the latter. *)
Class Formatting := {
  size_max : Z;
  size_indefinite : F32.float -> Z;
  formatted_val : Z -> string
}.

(** A listener is identified by the address of the [Listener] object. *)
Definition Listener : Type := positive.

(** Modelled from the spec: [ListenerList] is declared in the framework
    header, which is not part of the sources.  The spec describes the
    registered listeners as a set of observers; adding and removing are set
    insertion and deletion, and [call] invokes the callback of every member
    in turn.  An invocation of [paramUIChanged] on a listener is recorded as
    that listener in the list of events a method returns. *)
Module ListenerList.
Definition add (ls : gset Listener) (l : Listener) : gset Listener := {[ l ]} ∪ ls.
Definition remove (ls : gset Listener) (l : Listener) : gset Listener := ls ∖ {[ l ]}.
Definition call (ls : gset Listener) : list Listener := elements ls.
End ListenerList.

(** ** class Param *)

Module Param.
Import F32.

Record t := mk {
  val_ : float;              (* std::atomic<float> *)
  min_ : float;
  max_ : float;
  default_ : float;
  name_ : string;
  serializationTag_ : string;
  unit_ : string;
  numSteps_ : Z;
  listener : gset Listener;  (* ListenerList<Listener> *)
  uiDirty : bool             (* std::atomic<bool> *)
}.

Definition with_val (p : t) (f : float) : t :=
  mk f (min_ p) (max_ p) (default_ p) (name_ p) (serializationTag_ p) (unit_ p)
     (numSteps_ p) (listener p) (uiDirty p).
Definition with_listener (p : t) (ls : gset Listener) : t :=
  mk (val_ p) (min_ p) (max_ p) (default_ p) (name_ p) (serializationTag_ p) (unit_ p)
     (numSteps_ p) ls (uiDirty p).
Definition with_uiDirty (p : t) (b : bool) : t :=
  mk (val_ p) (min_ p) (max_ p) (default_ p) (name_ p) (serializationTag_ p) (unit_ p)
     (numSteps_ p) (listener p) b.

(** The constructor.  No listener is registered.  [uiDirty] has no
    initialiser: its first content is indeterminate, here the argument
    [dirty0]. *)
Definition ctor (name serializationTag unit : string) (minval maxval defaultval : float)
    (numSteps : Z) (dirty0 : bool) : t :=
  mk defaultval minval maxval defaultval name serializationTag unit numSteps ∅ dirty0.

(** The three [jassert]s of the constructor.  [jassert] reports in a debug
    build and is empty in a release build; in both the execution goes on, so
    it is no part of the state transformers below. *)
Definition ctor_jassert (minval maxval defaultval : float) : bool :=
  ltb minval maxval && leb minval defaultval && leb defaultval maxval.

Definition name (p : t) : string := name_ p.
Definition serializationTag (p : t) : string := serializationTag_ p.
Definition unit (p : t) : string := unit_ p.
Definition getNumSteps (p : t) : Z := numSteps_ p.

Definition set (p : t) (f : float) : t := with_val p f.
Definition get (p : t) : float := val_ p.

(** The body of [Param::setUI]; the result is the new state and the
    callbacks made. *)
Definition setUI (p : t) (f : float) (notifyHost : bool) : t * list Listener :=
  let p' := if geb f (min_ p) && leb f (max_ p) then set p f
            else set p (default_ p) in
  (p', if notifyHost then ListenerList.call (listener p') else []).

Definition getUI (p : t) : float := get p.

Definition getMin (p : t) : float := min_ p.
Definition getMax (p : t) : float := max_ p.
Definition getDefault (p : t) : float := default_ p.
Definition getUnit (p : t) : string := unit_ p.

(** [uiDirty.exchange(b)]: the old content and the new state. *)
Definition uiDirty_exchange (p : t) (b : bool) : bool * t := (uiDirty p, with_uiDirty p b).

Definition isUIDirty (p : t) : bool * t := uiDirty_exchange p false.

Definition MIN_DB : float := S754_finite true 12582912 (-17).   (* -96.f *)

Section Db.
Context `{Platform}.
Definition toDb (linear : float) : float :=
  if gtb linear zero then mul twenty (std_log10 linear) else MIN_DB.
Definition fromDb (db : float) : float :=
  if leb db MIN_DB then zero else std_pow ten (div db twenty).
End Db.

Definition unipolarToBipolar (fValue : float) : float := sub (mul two fValue) one.
Definition bipolarToUnipolar (fValue : float) : float := add (mul half fValue) half.
Definition midiToBipolar (midiValue : Z) : float :=
  sub (div (mul two (of_int midiValue)) c127) one.
Definition midiToPanValue (midiValue : Z) : float :=
  if midiValue =? 64 then zero
  else if midiValue <=? 1 then minus_one
  else sub (div (mul two (of_int midiValue)) c127) one.
Definition midiToUnipolar (midiValue : Z) : float := div (of_int midiValue) c127.

Section Midi.
Context `{Platform}.
(** The product is a [float]; returning it as [int] converts it. *)
Definition unipolarToMidi (fUnipolarValue : float) : Z :=
  to_int cvt_indefinite (mul fUnipolarValue c127).
End Midi.

Definition hasLabels (p : t) : bool := false.

Definition addListener (p : t) (newListener : Listener) : t :=
  with_listener p (ListenerList.add (listener p) newListener).
Definition removeListener (p : t) (aListener : Listener) : t :=
  with_listener p (ListenerList.remove (listener p) aListener).

End Param.

(** ** class ParamDb *)

(** [ParamDb] has the fields and the constructor of [Param]. *)
Module ParamDb.
Import F32.

Section Methods.
Context `{Platform}.

Definition setUI (p : Param.t) (f : float) (notifyHost : bool) : Param.t * list Listener :=
  let p' := if geb (Param.fromDb f) (Param.min_ p) && leb (Param.fromDb f) (Param.max_ p)
            then Param.set p (Param.fromDb f)
            else Param.set p (Param.default_ p) in
  (p', if notifyHost then ListenerList.call (Param.listener p') else []).

Definition getUI (p : Param.t) : float := Param.toDb (Param.get p).
End Methods.

End ParamDb.

(** ** class ParamStepped<_enum> *)

(** A value of the enumeration [_enum] is its underlying [int]; the
    template constant [_enum::nSteps] is the field [nSteps]. *)
Module ParamStepped.
Import F32.

Record t := mk {
  base : Param.t;
  nSteps : Z;
  step_ : Z;                 (* std::atomic<_enum> *)
  labels_ : list string;     (* std::array<String, nSteps> *)
  labelsSet : bool
}.

Definition with_base (s : t) (p : Param.t) : t :=
  mk p (nSteps s) (step_ s) (labels_ s) (labelsSet s).
Definition with_step (s : t) (v : Z) : t :=
  mk (base s) (nSteps s) v (labels_ s) (labelsSet s).

(** The loop of the constructor: [lbl] is what is left of the
    null-terminated array [labels], [u] the index to fill. *)
Fixpoint fill_labels (lbl : list string) (u : nat) (arr : list string) (set : bool)
    : list string * bool :=
  match lbl with
  | [] => (arr, set)
  | l :: lbl' =>
      if (u <? length arr)%nat then fill_labels lbl' (S u) (<[ u := l ]> arr) true
      else (arr, set)
  end.

(** The constructor; [labels] is [None] for [nullptr] and otherwise the
    entries before the terminating null pointer. *)
Definition ctor (n : Z) (name serializationTag : string) (defaultval : Z)
    (labels : option (list string)) (dirty0 : bool) : t :=
  let b := Param.ctor name serializationTag "" zero (sub (of_int n) one)
             (of_int defaultval) n dirty0 in
  let '(arr, set) := fill_labels (default [] labels) 0 (replicate (Z.to_nat n) "") false in
  mk b n defaultval arr set.

Definition getStep (s : t) : Z := step_ s.

Definition setStep (s : t) (v : Z) : t :=
  let s' := with_step s v in
  with_base s' (Param.set (base s') (of_int v)).

Section Methods.
Context `{Platform}.

(** [ival] of [setUI] and the condition of its [jassert]. *)
Definition ival (f : float) : Z := to_int cvt_indefinite (trunc (add f half)).
Definition setUI_jassert (s : t) (f : float) : bool :=
  (0 <=? ival f) && (ival f <? nSteps s).

Definition setUI (s : t) (f : float) (notifyHost : bool) : t * list Listener :=
  let s1 := with_base s (Param.set (base s) f) in
  let s2 := with_step s1 (ival f) in
  (s2, if notifyHost then ListenerList.call (Param.listener (base s2)) else []).
End Methods.

(** [labels_[static_cast<size_t>(getStep())]]; [None] stands for an index
    outside of the array. *)
Definition getUIString (s : t) : option string :=
  if getStep s <? 0 then None else labels_ s !! Z.to_nat (getStep s).

Definition hasLabels (s : t) : bool := labelsSet s.

Section Strings.
Context `{Formatting}.

(** [getUIString (float v)]: the label of the step [v] rounds to, or the
    placeholder when that step is beyond the table (the [jassert (false)]
    of that branch goes on, like every [jassert]). *)
Definition getUIString_of (s : t) (v : float) : string :=
  let u := to_size size_max size_indefinite (trunc (add v half)) in
  if u <? Z.of_nat (length (labels_ s)) then default "" (labels_ s !! Z.to_nat u)
  else formatted_val u.
End Strings.

End ParamStepped.

(** ** Objects and virtual dispatch *)

(** A parameter object with its dynamic type. *)
Inductive ParamObject :=
| AsParam (p : Param.t)
| AsParamDb (p : Param.t)
| AsParamStepped (s : ParamStepped.t).

Definition base_of (o : ParamObject) : Param.t :=
  match o with
  | AsParam p | AsParamDb p => p
  | AsParamStepped s => ParamStepped.base s
  end.

Definition on_base (g : Param.t -> Param.t) (o : ParamObject) : ParamObject :=
  match o with
  | AsParam p => AsParam (g p)
  | AsParamDb p => AsParamDb (g p)
  | AsParamStepped s => AsParamStepped (ParamStepped.with_base s (g (ParamStepped.base s)))
  end.

Section Dispatch.
Context `{Platform}.

(** The virtual [setUI] and [getUI]. *)
Definition setUI (o : ParamObject) (f : F32.float) (notifyHost : bool)
    : ParamObject * list Listener :=
  match o with
  | AsParam p => let '(p', ev) := Param.setUI p f notifyHost in (AsParam p', ev)
  | AsParamDb p => let '(p', ev) := ParamDb.setUI p f notifyHost in (AsParamDb p', ev)
  | AsParamStepped s =>
      let '(s', ev) := ParamStepped.setUI s f notifyHost in (AsParamStepped s', ev)
  end.

Definition getUI (o : ParamObject) : F32.float :=
  match o with
  | AsParam p => Param.getUI p
  | AsParamDb p => ParamDb.getUI p
  | AsParamStepped s => Param.getUI (ParamStepped.base s)
  end.

(** The methods every parameter has from [Param]. *)
Definition set (o : ParamObject) (f : F32.float) : ParamObject :=
  on_base (fun p => Param.set p f) o.
Definition get (o : ParamObject) : F32.float := Param.get (base_of o).

Definition setHost (o : ParamObject) (f : F32.float) : ParamObject * list Listener :=
  let '(o', ev) := setUI o f false in
  (on_base (fun p => snd (Param.uiDirty_exchange p true)) o', ev).

Definition isUIDirty (o : ParamObject) : bool * ParamObject :=
  (fst (Param.isUIDirty (base_of o)), on_base (fun p => snd (Param.isUIDirty p)) o).

Definition addListener (o : ParamObject) (l : Listener) : ParamObject :=
  on_base (fun p => Param.addListener p l) o.
Definition removeListener (o : ParamObject) (l : Listener) : ParamObject :=
  on_base (fun p => Param.removeListener p l) o.
End Dispatch.

(** The virtual [hasLabels]; [ParamDb] has it from [Param]. *)
Definition hasLabels (o : ParamObject) : bool :=
  match o with
  | AsParam p | AsParamDb p => Param.hasLabels p
  | AsParamStepped s => ParamStepped.hasLabels s
  end.

(** ** Sequences of calls *)

(** The state-changing calls a client can make on a parameter object.
    [setStep] exists for a [ParamStepped] only; on another object the call
    does not type check and the model skips it. *)
Inductive Call :=
| CallSet (f : F32.float)
| CallSetUI (f : F32.float) (notifyHost : bool)
| CallSetHost (f : F32.float)
| CallIsUIDirty
| CallSetStep (v : Z)
| CallAddListener (l : Listener)
| CallRemoveListener (l : Listener).

Definition is_setHost (c : Call) : bool :=
  match c with CallSetHost _ => true | _ => false end.
Definition is_isUIDirty (c : Call) : bool :=
  match c with CallIsUIDirty => true | _ => false end.
Definition is_set (c : Call) : bool :=
  match c with CallSet _ => true | _ => false end.

Section Run.
Context `{Platform}.

(** One call: the new state and, for [isUIDirty], what it returned. *)
Definition exec (c : Call) (o : ParamObject) : ParamObject * option bool :=
  match c with
  | CallSet f => (set o f, None)
  | CallSetUI f n => (fst (setUI o f n), None)
  | CallSetHost f => (fst (setHost o f), None)
  | CallIsUIDirty => let '(b, o') := isUIDirty o in (o', Some b)
  | CallSetStep v =>
      (match o with
       | AsParamStepped s => AsParamStepped (ParamStepped.setStep s v)
       | _ => o
       end, None)
  | CallAddListener l => (addListener o l, None)
  | CallRemoveListener l => (removeListener o l, None)
  end.

(** A sequence of calls: the final state and the results of the
    [isUIDirty] calls, in order. *)
Fixpoint run (cs : list Call) (o : ParamObject) : ParamObject * list bool :=
  match cs with
  | [] => (o, [])
  | c :: cs' =>
      let '(o1, r) := exec c o in
      let '(o2, rs) := run cs' o1 in
      (o2, match r with Some b => b :: rs | None => rs end)
  end.
End Run.

(** ** The words of the properties *)

(** [v] lies in the closed interval from [lo] to [hi]. *)
Definition in_range (lo hi v : F32.float) : bool := F32.leb lo v && F32.leb v hi.

(** How often listener [l] was called back in the events [ev]. *)
Definition callbacks (l : Listener) (ev : list Listener) : nat :=
  length (filter (λ x, x = l) ev).

(** What the spec says of the dirty flag, as a function of the calls: a
    one-shot flag that [setHost] raises and [isUIDirty] reads and clears. *)
Fixpoint dirty_reads (b : bool) (cs : list Call) : list bool :=
  match cs with
  | [] => []
  | CallSetHost _ :: cs' => dirty_reads true cs'
  | CallIsUIDirty :: cs' => b :: dirty_reads false cs'
  | _ :: cs' => dirty_reads b cs'
  end.

(** The step of a [ParamStepped] is one of the proper members. *)
Definition step_in_range (s : ParamStepped.t) : Prop :=
  0 <= ParamStepped.getStep s <= ParamStepped.nSteps s - 1.

Section Asserted.
Context `{Platform}.

(** A call that respects what [ParamStepped] asserts, for [n] steps: the
    argument of a [setUI] or [setHost] passes the assertion of [setUI], and
    a [setStep] is given one of the [n] proper members. *)
Definition asserted (n : Z) (c : Call) : bool :=
  match c with
  | CallSetUI f _ | CallSetHost f => (0 <=? ParamStepped.ival f) && (ParamStepped.ival f <? n)
  | CallSetStep v => (0 <=? v) && (v <? n)
  | _ => true
  end.
End Asserted.

(** What is fixed at construction: the identity and the bounds, and for a
    [ParamStepped] the number of steps and the labels. *)
Definition settings (o : ParamObject)
    : string * string * string * (F32.float * F32.float * F32.float) * Z :=
  let p := base_of o in
  (Param.name p, Param.serializationTag p, Param.getUnit p,
   (Param.getMin p, Param.getMax p, Param.getDefault p), Param.getNumSteps p).

Definition table (o : ParamObject) : option (Z * list string * bool) :=
  match o with
  | AsParamStepped s =>
      Some (ParamStepped.nSteps s, ParamStepped.labels_ s, ParamStepped.labelsSet s)
  | _ => None
  end.

(** How many answers are true, and how many calls are [setHost]. *)
Definition count_true (bs : list bool) : nat := length (filter (λ b, b = true) bs).
Definition count_setHost (cs : list Call) : nat :=
  length (filter (λ c, is_setHost c = true) cs).

(** The MIDI values. *)
Definition midi_values : list Z := map Z.of_nat (seq 0 128).

(** Two [float]s are the same datum or not. *)
#[global] Instance float_eq_dec : EqDecision F32.float.
Proof. solve_decision. Defined.

(** Equality of two [float]s as C++ [==] has it. *)
Definition feq (x y : F32.float) : bool :=
  match SFcompare x y with Some Eq => true | _ => false end.

Section Sync.
Context `{Platform}.

(** The step of a [ParamStepped] is the one its value rounds to. *)
Definition in_sync (s : ParamStepped.t) : Prop :=
  ParamStepped.getStep s = ParamStepped.ival (Param.get (ParamStepped.base s)).
End Sync.

(** A call that keeps value and step together: any but [set], a [setStep]
    with a member from 0 to below 2^23. *)
Definition keeps_sync (c : Call) : bool :=
  match c with
  | CallSet _ => false
  | CallSetStep v => (0 <=? v) && (v <? 2 ^ 23)
  | _ => true
  end.

(** The rational a finite [float] stands for. *)
Definition to_Q (x : F32.float) : option Q :=
  match x with
  | S754_zero _ => Some 0%Q
  | S754_finite s m e =>
      let a := if 0 <=? e then inject_Z (Zpos m * 2 ^ e)
               else (Zpos m # Z.to_pos (2 ^ (- e)))%Q in
      Some (if s then (- a)%Q else a)
  | _ => None
  end.

(** The spec's rounding: the nearest integer, a half going up. *)
Definition round_half_up (q : Q) : Z := Qfloor (q + (1 # 2)).

(** ** Real numbers *)

(** The real number a finite [float] stands for, and 0 for an infinity and
    for NaN. *)
Definition to_R (x : F32.float) : R :=
  match x with
  | S754_finite s m e => ((if s then -1 else 1) * (IZR (Zpos m) * powerRZ 2 e))%R
  | _ => 0%R
  end.

Definition is_finite (x : F32.float) : bool :=
  match x with
  | S754_zero _ | S754_finite _ _ _ => true
  | _ => false
  end.

(** A normal datum has a significand of 24 digits; the data between it and
    zero are subnormal. *)
Definition normal (x : F32.float) : bool :=
  match x with
  | S754_finite _ m e => (Zpos (digits2_pos m) =? 24) && (-149 <=? e) && (e <=? 104)
  | _ => false
  end.

Definition normal_or_zero (x : F32.float) : bool :=
  match x with
  | S754_zero _ => true
  | _ => normal x
  end.

Definition exponent (x : F32.float) : Z :=
  match x with
  | S754_finite _ _ e => e
  | _ => 0
  end.

(** The record of the rounding procedure stands for the quotient [N / D]:
    its significand is the integer part, and its two bits tell where the
    rest lies with respect to one half. *)
Definition represents (N D : Z) (mrs : shr_record) : Prop :=
  shr_m mrs = N / D
  /\ shr_r mrs = (D <=? 2 * (N mod D))
  /\ shr_s mrs = negb (N mod D =? 0) && negb (2 * (N mod D) =? D).

(** The decimal logarithm and power of the real numbers, the unit roundoff
    of binary32, and how far the decibel round trips can be off: [tolerance]
    is a relative error of [fromDb (toDb x)], [tolerance_back] an error in
    decibels of [toDb (fromDb db)], both for a C library whose [log10] and
    [pow] have a relative error of at most [ulib]. *)
Module Levels.
Local Open Scope R_scope.

Definition log10 (x : R) : R := ln x / ln 10.
Definition pow10 (y : R) : R := exp (y * ln 10).

Definition u32 : R := / 2 ^ 24.

Definition tolerance (ulib x : R) : R :=
  (1 + ulib) * pow10 (((1 + ulib) * (1 + u32) ^ 2 - 1) * Rabs (log10 x)) - 1.


End Levels.

(** ** Sample data *)

(** A platform to evaluate the parametric definitions on: the conversion of
    the x86 family, and a C library that answers NaN. *)
Definition sample_platform : Platform :=
  {| std_log10 := λ _, S754_nan;
     std_pow := λ _ _, S754_nan;
     cvt_indefinite := λ _, F32.int_min |}.

(** 1.0000001f, 10.000001f and 10.000003f: the next [float] after 1, the
    next after 10 and the third after 10. *)
Definition one_up : F32.float := S754_finite false 8388609 (-23).
Definition ten_up : F32.float := S754_finite false 10485761 (-20).
Definition ten_up3 : F32.float := S754_finite false 10485763 (-20).

(** A C library that is off by one unit in the last place: its [log10]
    answers 1.0000001f at 10 and at 10.000001f, its [pow] answers
    10.000003f for 10 to the power 1.0000001f and 10.000001f for 10 to the
    power 1, and both answer NaN elsewhere. *)
Definition coarse_platform : Platform :=
  {| std_log10 := λ x, if bool_decide (x = F32.ten \/ x = ten_up) then one_up else S754_nan;
     std_pow := λ b y, if bool_decide (b = F32.ten /\ y = one_up) then ten_up3
                       else if bool_decide (b = F32.ten /\ y = F32.one) then ten_up
                       else S754_nan;
     cvt_indefinite := λ _, F32.int_min |}.

(** The largest [float], 3.4028235e38f, and the [float] nearest to its
    decimal logarithm, 38.53184f. *)
Definition FLT_MAX : F32.float := S754_finite false 16777215 104.
Definition log10_FLT_MAX : F32.float := S754_finite false 10100891 (-18).

(** A target with a [size_t] of 64 bits, whose [%u] prints the low 32 bits. *)
Definition sample_formatting : Formatting :=
  {| size_max := 2 ^ 64 - 1;
     size_indefinite := λ _, 0;
     formatted_val := λ u, "val" +:+ pretty (u mod 2 ^ 32) |}.

(** A continuous parameter on [[0, 1]] with default [.5]. *)
Definition unit_param : Param.t :=
  Param.ctor "vol" "vol" "" F32.zero F32.one F32.half 0 false.

(** A decibel parameter whose linear range is [[.5, 1]], default 1. *)
Definition db_param : Param.t :=
  Param.ctor "gain" "gain" "dB" F32.half F32.one F32.one 0 false.

(** A four-step parameter with the labels A to D, default member 0. *)
Definition four_steps : ParamStepped.t :=
  ParamStepped.ctor 4 "wave" "wave" 0 (Some ["A"; "B"; "C"; "D"]) false.

(** 7.f, -100.f (a level below [MIN_DB]), 1.4f, 1.5f, -0.75f and the largest
    [float] below one half, 0.49999997f. *)
Definition seven : F32.float := F32.of_int 7.
Definition minus_100 : F32.float := F32.of_int (-100).
Definition f1_4 : F32.float := F32.div (F32.of_int 14) (F32.of_int 10).
Definition f1_5 : F32.float := F32.div (F32.of_int 3) (F32.of_int 2).
Definition minus_three_quarters : F32.float := F32.div (F32.of_int (-3)) (F32.of_int 4).
Definition below_half : F32.float := S754_finite false 16777215 (-25).

(** * Part II: properties *)

(** ** Literals and comparisons *)

Example literals_valid :
  forallb F32.valid
    [F32.zero; F32.half; F32.one; F32.minus_one; F32.two; F32.ten; F32.twenty; F32.c127;
     Param.MIN_DB; seven; minus_100; f1_4; f1_5; minus_three_quarters; below_half] = true.
Proof. reflexivity. Qed.

Example literals_of_int :
  map F32.of_int [0; 1; -1; 2; 10; 20; 127; -96]
  = [F32.zero; F32.one; F32.minus_one; F32.two; F32.ten; F32.twenty; F32.c127; Param.MIN_DB].
Proof. reflexivity. Qed.

Example literals_fractions :
  F32.div F32.one F32.two = F32.half /\
  f1_4 = S754_finite false 11744051 (-23) /\
  f1_5 = S754_finite false 12582912 (-23) /\
  F32.ltb below_half F32.half = true /\
  to_Q below_half = Some (16777215 # 33554432)%Q.
Proof. repeat split. Qed.

Lemma compare_cont_Eq_antisym (a b : positive) :
  Pos.compare_cont Eq b a = CompOpp (Pos.compare_cont Eq a b).
Proof. now rewrite Pos.compare_cont_antisym. Qed.

Lemma SFcompare_antisym (x y : F32.float) :
  SFcompare y x = option_map CompOpp (SFcompare x y).
Proof.
  destruct x as [sx|sx| |sx mx ex], y as [sy|sy| |sy my ey];
    try destruct sx; try destruct sy; simpl; try reflexivity;
    rewrite (Z.compare_antisym ex ey);
    destruct (ex ?= ey); simpl; try reflexivity;
    rewrite (compare_cont_Eq_antisym mx my); reflexivity.
Qed.

Lemma geb_leb (x y : F32.float) : F32.geb x y = F32.leb y x.
Proof.
  unfold F32.geb, F32.leb. rewrite (SFcompare_antisym x y).
  destruct (SFcompare x y) as [[]|]; reflexivity.
Qed.

Lemma gtb_ltb (x y : F32.float) : F32.gtb x y = F32.ltb y x.
Proof.
  unfold F32.gtb, F32.ltb. rewrite (SFcompare_antisym x y).
  destruct (SFcompare x y) as [[]|]; reflexivity.
Qed.

(** The test of [setUI] is membership in the interval. *)
Lemma range_test (lo hi v : F32.float) :
  F32.geb v lo && F32.leb v hi = in_range lo hi v.
Proof. unfold in_range. now rewrite geb_leb. Qed.

Lemma nan_in_no_range (lo hi : F32.float) : in_range lo hi S754_nan = false.
Proof. unfold in_range, F32.leb. now destruct lo. Qed.

(** ** The base class *)

Lemma Param_setUI_val (p : Param.t) (f : F32.float) (n : bool) :
  Param.get (fst (Param.setUI p f n))
  = if in_range (Param.min_ p) (Param.max_ p) f then f else Param.default_ p.
Proof.
  unfold Param.setUI. rewrite range_test.
  destruct (in_range _ _ f); reflexivity.
Qed.

(** C1: in the base class, [setUI v] followed by [getUI] gives [v] back
    (exactly) when [v] lies in [[min, max]], and the configured default when
    it does not (a NaN lies in no interval). *)
Theorem Param_setUI_getUI (p : Param.t) (v : F32.float) (notifyHost : bool) :
  (in_range (Param.min_ p) (Param.max_ p) v = true ->
     Param.getUI (fst (Param.setUI p v notifyHost)) = v) /\
  (in_range (Param.min_ p) (Param.max_ p) v = false ->
     Param.getUI (fst (Param.setUI p v notifyHost)) = Param.getDefault p).
Proof.
  unfold Param.getUI, Param.getDefault. rewrite Param_setUI_val.
  split; intros ->; reflexivity.
Qed.

Lemma Param_setUI_getUI_witness :
  Param.getUI (fst (Param.setUI unit_param F32.one true)) = F32.one /\
  Param.getUI (fst (Param.setUI unit_param F32.two true)) = F32.half.
Proof.
  split.
  - apply (proj1 (Param_setUI_getUI unit_param F32.one true)). reflexivity.
  - apply (proj2 (Param_setUI_getUI unit_param F32.two true)). reflexivity.
Defined.

(** ** Construction *)

Lemma ParamStepped_ctor_fields (n : Z) (name tag : string) (d : Z)
    (labels : option (list string)) (dirty0 : bool) :
  ParamStepped.base (ParamStepped.ctor n name tag d labels dirty0)
  = Param.ctor name tag "" F32.zero (F32.sub (F32.of_int n) F32.one) (F32.of_int d) n dirty0
  /\ ParamStepped.step_ (ParamStepped.ctor n name tag d labels dirty0) = d
  /\ ParamStepped.nSteps (ParamStepped.ctor n name tag d labels dirty0) = n.
Proof.
  unfold ParamStepped.ctor.
  destruct (ParamStepped.fill_labels _ _ _ _) as [arr set]. now simpl.
Qed.

(** C10: right after a construction that passes the constructor's
    assertions, [get] returns the configured default, whatever the class;
    a [ParamStepped] moreover has the default member as its step. *)
Theorem get_after_construction :
  (forall (name tag unit : string) (minval maxval defaultval : F32.float)
          (numSteps : Z) (dirty0 : bool),
      Param.ctor_jassert minval maxval defaultval = true ->
      let p := Param.ctor name tag unit minval maxval defaultval numSteps dirty0 in
      get (AsParam p) = defaultval /\ get (AsParamDb p) = defaultval /\
      Param.getDefault p = defaultval) /\
  (forall (n : Z) (name tag : string) (defaultval : Z) (labels : option (list string))
          (dirty0 : bool),
      Param.ctor_jassert F32.zero (F32.sub (F32.of_int n) F32.one) (F32.of_int defaultval)
      = true ->
      let s := ParamStepped.ctor n name tag defaultval labels dirty0 in
      get (AsParamStepped s) = Param.getDefault (ParamStepped.base s) /\
      Param.getDefault (ParamStepped.base s) = F32.of_int defaultval /\
      ParamStepped.getStep s = defaultval).
Proof.
  split.
  - intros. subst p. repeat split.
  - intros n name tag d labels dirty0 _ s.
    destruct (ParamStepped_ctor_fields n name tag d labels dirty0) as (Hb & Hs & _).
    unfold get, ParamStepped.getStep, Param.getDefault. cbn [base_of]. subst s.
    rewrite Hb, Hs. repeat split.
Qed.

Lemma get_after_construction_witness :
  get (AsParam unit_param) = F32.half /\
  ParamStepped.getStep four_steps = 0.
Proof.
  split.
  - apply (proj1 get_after_construction "vol" "vol" "" F32.zero F32.one F32.half 0 false).
    reflexivity.
  - apply (proj2 get_after_construction 4 "wave" "wave" 0 (Some ["A"; "B"; "C"; "D"]) false).
    reflexivity.
Defined.

(** The labels of the constructor fill the table from its start. *)
Example four_steps_labels :
  ParamStepped.labels_ four_steps = ["A"; "B"; "C"; "D"] /\
  ParamStepped.hasLabels four_steps = true /\
  ParamStepped.hasLabels (ParamStepped.ctor 4 "wave" "wave" 0 None false) = false /\
  ParamStepped.labels_ (ParamStepped.ctor 3 "w" "w" 0 (Some ["A"]) false) = ["A"; ""; ""].
Proof. repeat split. Qed.

(** ** Listeners *)

Lemma base_of_on_base (g : Param.t -> Param.t) (o : ParamObject) :
  base_of (on_base g o) = g (base_of o).
Proof. destruct o; reflexivity. Qed.

Lemma filter_eq_NoDup (l : Listener) (xs : list Listener) :
  NoDup xs ->
  length (filter (λ x, x = l) xs) = if decide (l ∈ xs) then 1%nat else 0%nat.
Proof.
  induction 1 as [|x xs Hx Hnd IH].
  - reflexivity.
  - rewrite filter_cons. destruct (decide (x = l)) as [->|Hne].
    + simpl. rewrite IH. rewrite (decide_True (P := l ∈ l :: xs)) by apply list_elem_of_here.
      now rewrite decide_False.
    + rewrite IH. destruct (decide (l ∈ xs)) as [Hin|Hin].
      * rewrite decide_True; [reflexivity | now apply list_elem_of_further].
      * rewrite decide_False; [reflexivity |].
        intros Hc. apply elem_of_cons in Hc as [->|Hc]; [now apply Hne | now apply Hin].
Qed.

Lemma callbacks_call (l : Listener) (ls : gset Listener) :
  callbacks l (ListenerList.call ls) = if decide (l ∈ ls) then 1%nat else 0%nat.
Proof.
  unfold callbacks, ListenerList.call.
  rewrite filter_eq_NoDup by apply NoDup_elements.
  destruct (decide (l ∈ ls)) as [Hin|Hin].
  - rewrite decide_True; [reflexivity | now apply elem_of_elements].
  - rewrite decide_False; [reflexivity | now rewrite elem_of_elements].
Qed.

Section Notification.
Context `{Platform}.

Lemma setUI_events (o : ParamObject) (v : F32.float) (n : bool) :
  snd (setUI o v n) = if n then ListenerList.call (Param.listener (base_of o)) else [].
Proof.
  destruct o as [p|p|s]; simpl.
  - destruct (F32.geb v (Param.min_ p) && F32.leb v (Param.max_ p)); reflexivity.
  - destruct (F32.geb (Param.fromDb v) (Param.min_ p) && F32.leb (Param.fromDb v) (Param.max_ p));
      reflexivity.
  - reflexivity.
Qed.

Lemma setHost_events (o : ParamObject) (v : F32.float) : snd (setHost o v) = [].
Proof.
  unfold setHost. pose proof (setUI_events o v false) as E.
  destruct (setUI o v false) as [o' ev]. exact E.
Qed.

(** C2: whatever the dynamic type of the parameter and whatever listeners
    are registered, [setHost v] makes no callback, and [setUI v true] calls
    every registered listener back exactly once (and nobody else). *)
Theorem listeners_notified (o : ParamObject) (v : F32.float) :
  snd (setHost o v) = [] /\
  forall l : Listener,
    callbacks l (snd (setUI o v true))
    = if decide (l ∈ Param.listener (base_of o)) then 1%nat else 0%nat.
Proof.
  split.
  - apply setHost_events.
  - intros l. rewrite setUI_events. apply callbacks_call.
Qed.

(** Who is registered: [addListener] registers, [removeListener] takes off
    the list, and no other call changes the listeners. *)
Lemma addListener_registered (o : ParamObject) (l l' : Listener) :
  l' ∈ Param.listener (base_of (addListener o l))
  <-> l' = l \/ l' ∈ Param.listener (base_of o).
Proof.
  unfold addListener. rewrite base_of_on_base.
  unfold Param.addListener, ListenerList.add. cbn [Param.listener Param.with_listener].
  now rewrite elem_of_union, elem_of_singleton.
Qed.

Lemma removeListener_registered (o : ParamObject) (l l' : Listener) :
  l' ∈ Param.listener (base_of (removeListener o l))
  <-> l' ∈ Param.listener (base_of o) /\ l' <> l.
Proof.
  unfold removeListener. rewrite base_of_on_base.
  unfold Param.removeListener, ListenerList.remove. cbn [Param.listener Param.with_listener].
  now rewrite elem_of_difference, elem_of_singleton.
Qed.

End Notification.

Example two_listeners :
  let o := addListener (addListener (AsParam unit_param) 5%positive) 3%positive in
  let ev := snd (setUI (H := sample_platform) o F32.one true) in
  length ev = 2%nat /\ callbacks 3%positive ev = 1%nat /\ callbacks 5%positive ev = 1%nat /\
  callbacks 7%positive ev = 0%nat /\
  snd (setUI (H := sample_platform) o F32.one false) = [] /\
  snd (setHost (H := sample_platform) o F32.one) = [].
Proof. vm_compute. repeat split. Qed.

(** ** The dirty flag *)

Section Dirty.
Context `{Platform}.

Lemma setUI_uiDirty (o : ParamObject) (f : F32.float) (n : bool) :
  Param.uiDirty (base_of (fst (setUI o f n))) = Param.uiDirty (base_of o).
Proof.
  destruct o as [p|p|s]; simpl.
  - destruct (F32.geb f (Param.min_ p) && F32.leb f (Param.max_ p)); reflexivity.
  - destruct (F32.geb (Param.fromDb f) (Param.min_ p) && F32.leb (Param.fromDb f) (Param.max_ p));
      reflexivity.
  - reflexivity.
Qed.

Lemma setHost_uiDirty (o : ParamObject) (f : F32.float) :
  Param.uiDirty (base_of (fst (setHost o f))) = true.
Proof.
  unfold setHost. destruct (setUI o f false) as [o' ev]. simpl.
  now rewrite base_of_on_base.
Qed.

(** The calls on the object read the flag as the one-shot flag does. *)
Lemma run_dirty_reads (cs : list Call) (o : ParamObject) :
  snd (run cs o) = dirty_reads (Param.uiDirty (base_of o)) cs.
Proof.
  revert o. induction cs as [|c cs IH]; intros o; [reflexivity|].
  cbn [run].
  destruct c as [f|f n|f| |v|l|l]; cbn [exec dirty_reads].
  - specialize (IH (set o f)). destruct (run cs (set o f)) as [o2 rs]. simpl in *.
    rewrite IH. unfold set. now rewrite base_of_on_base.
  - specialize (IH (fst (setUI o f n))). destruct (run cs (fst (setUI o f n))) as [o2 rs].
    simpl in *. now rewrite IH, setUI_uiDirty.
  - specialize (IH (fst (setHost o f))). destruct (run cs (fst (setHost o f))) as [o2 rs].
    simpl in *. now rewrite IH, setHost_uiDirty.
  - unfold isUIDirty. cbn [fst snd Param.isUIDirty Param.uiDirty_exchange].
    specialize (IH (on_base (λ p, Param.with_uiDirty p false) o)).
    destruct (run cs _) as [o2 rs]. simpl in *.
    rewrite IH, base_of_on_base. reflexivity.
  - destruct o as [p|p|s]; cbn [fst snd];
      match goal with |- context [run cs ?x] =>
        specialize (IH x); destruct (run cs x) as [o2 rs] end;
      simpl in *; now rewrite IH.
  - specialize (IH (addListener o l)). destruct (run cs (addListener o l)) as [o2 rs].
    simpl in *. rewrite IH. unfold addListener. now rewrite base_of_on_base.
  - specialize (IH (removeListener o l)). destruct (run cs (removeListener o l)) as [o2 rs].
    simpl in *. rewrite IH. unfold removeListener. now rewrite base_of_on_base.
Qed.

End Dirty.

Lemma dirty_reads_quiet (b : bool) (pre rest : list Call) :
  forallb (λ c, negb (is_setHost c || is_isUIDirty c)) pre = true ->
  dirty_reads b (pre ++ rest) = dirty_reads b rest.
Proof.
  induction pre as [|c pre IH]; [reflexivity|].
  cbn [forallb app]. intros Hq. apply andb_prop in Hq as [Hc Hq].
  destruct c; try discriminate Hc; cbn [dirty_reads]; now apply IH.
Qed.

Lemma dirty_reads_clear (post : list Call) :
  forallb (λ c, negb (is_setHost c)) post = true ->
  dirty_reads false post = replicate (length (filter (λ c, is_isUIDirty c = true) post)) false.
Proof.
  induction post as [|c post IH]; [reflexivity|].
  cbn [forallb]. intros Hq. apply andb_prop in Hq as [Hc Hq].
  destruct c; try discriminate Hc; cbn [dirty_reads];
    rewrite filter_cons; cbn [is_isUIDirty];
    try (rewrite decide_False by discriminate; now apply IH).
  rewrite decide_True by reflexivity. cbn [length replicate]. f_equal. now apply IH.
Qed.

(** C3: after [setHost v], and calls in between that neither read nor raise
    the flag, the first [isUIDirty] answers true; every later [isUIDirty]
    answers false as long as no further [setHost] is made.  This holds for
    every dynamic type of the parameter. *)
Theorem isUIDirty_once `{Platform} (o : ParamObject) (v : F32.float) (pre post : list Call) :
  forallb (λ c, negb (is_setHost c || is_isUIDirty c)) pre = true ->
  forallb (λ c, negb (is_setHost c)) post = true ->
  snd (run (CallSetHost v :: pre ++ CallIsUIDirty :: post) o)
  = true :: replicate (length (filter (λ c, is_isUIDirty c = true) post)) false.
Proof.
  intros Hpre Hpost. rewrite run_dirty_reads. cbn [dirty_reads].
  rewrite dirty_reads_quiet by exact Hpre. cbn [dirty_reads].
  now rewrite dirty_reads_clear.
Qed.

Lemma isUIDirty_once_witness :
  snd (run (H := sample_platform)
         (CallSetHost F32.one
            :: [CallSetUI F32.half true; CallAddListener 3%positive]
            ++ CallIsUIDirty :: [CallIsUIDirty; CallSet F32.two; CallIsUIDirty])
         (AsParam unit_param))
  = [true; false; false].
Proof.
  apply (isUIDirty_once (H := sample_platform) (AsParam unit_param) F32.one
           [CallSetUI F32.half true; CallAddListener 3%positive]
           [CallIsUIDirty; CallSet F32.two; CallIsUIDirty]); reflexivity.
Defined.

(** Two [setHost] before one [isUIDirty] give one true answer, and a new
    [setHost] raises the flag again. *)
Example dirty_flag_coalesces :
  snd (run (H := sample_platform)
         [CallSetHost F32.one; CallSetHost F32.half; CallIsUIDirty; CallIsUIDirty;
          CallSetHost F32.one; CallIsUIDirty]
         (AsParamStepped four_steps))
  = [true; false; true].
Proof. reflexivity. Qed.

(** ** MIDI *)

(** C8: the pan value of MIDI 64 is 0, of MIDI 0 and 1 it is -1, and MIDI
    127 goes through the general formula [2*m/127 - 1], which gives 1. *)
Theorem midiToPanValue_points :
  Param.midiToPanValue 64 = F32.zero /\
  Param.midiToPanValue 0 = F32.minus_one /\
  Param.midiToPanValue 1 = F32.minus_one /\
  Param.midiToPanValue 127
  = F32.sub (F32.div (F32.mul F32.two (F32.of_int 127)) F32.c127) F32.one /\
  Param.midiToPanValue 127 = F32.one.
Proof. repeat split. Qed.

(** At 64 and 1 the special cases part from the general formula, which
    gives about 1/127 and about -125/127 there. *)
Example midiToBipolar_64_1 :
  Param.midiToBipolar 64 = S754_finite false 8454656 (-30) /\
  Param.midiToBipolar 1 = S754_finite true 16513008 (-24) /\
  Param.midiToBipolar 0 = F32.minus_one /\
  Param.midiToBipolar 127 = F32.one.
Proof. repeat split. Qed.

(** ** ParamDb *)

Section Decibel.
Context `{Platform}.

Lemma ParamDb_setUI_val (p : Param.t) (f : F32.float) (n : bool) :
  Param.get (fst (ParamDb.setUI p f n))
  = if in_range (Param.min_ p) (Param.max_ p) (Param.fromDb f)
    then Param.fromDb f else Param.default_ p.
Proof.
  unfold ParamDb.setUI. rewrite range_test.
  destruct (in_range _ _ (Param.fromDb f)); reflexivity.
Qed.

(** C6: [ParamDb::setUI] converts its decibel argument with [fromDb], tests
    the converted value against [[min, max]], stores it when the test passes
    and the default when it does not; [getUI] is [toDb] of what is stored. *)
Theorem ParamDb_setUI_getUI (p : Param.t) (f : F32.float) (notifyHost : bool) :
  Param.get (fst (ParamDb.setUI p f notifyHost))
  = (if in_range (Param.min_ p) (Param.max_ p) (Param.fromDb f)
     then Param.fromDb f else Param.default_ p) /\
  ParamDb.getUI (fst (ParamDb.setUI p f notifyHost))
  = Param.toDb (if in_range (Param.min_ p) (Param.max_ p) (Param.fromDb f)
                then Param.fromDb f else Param.default_ p) /\
  ParamDb.getUI p = Param.toDb (Param.get p).
Proof.
  unfold ParamDb.getUI. rewrite ParamDb_setUI_val. repeat split.
Qed.

Lemma toDb_floor (linear : F32.float) :
  F32.gtb linear F32.zero = false -> Param.toDb linear = Param.MIN_DB.
Proof. unfold Param.toDb. now intros ->. Qed.

Lemma fromDb_floor (db : F32.float) :
  F32.leb db Param.MIN_DB = true -> Param.fromDb db = F32.zero.
Proof. unfold Param.fromDb. now intros ->. Qed.

End Decibel.

(** ** ParamStepped: the step and its range *)

Section SteppedRange.
Context `{Platform}.

(** What keeps the step in its range: a [setUI] whose assertion holds, a
    [setStep] to a proper member, and any [set]. *)
Lemma setUI_keeps_range (s : ParamStepped.t) (f : F32.float) (n : bool) :
  ParamStepped.setUI_jassert s f = true ->
  step_in_range (fst (ParamStepped.setUI s f n)).
Proof.
  unfold ParamStepped.setUI_jassert, step_in_range. cbn.
  intros Hj. apply andb_prop in Hj as [H0 H1].
  apply Z.leb_le in H0. apply Z.ltb_lt in H1. lia.
Qed.

Lemma setStep_keeps_range (s : ParamStepped.t) (v : Z) :
  0 <= v < ParamStepped.nSteps s ->
  step_in_range (ParamStepped.setStep s v).
Proof. unfold step_in_range. cbn. lia. Qed.

Lemma set_keeps_step (s : ParamStepped.t) (f : F32.float) :
  set (AsParamStepped s) f
  = AsParamStepped (ParamStepped.with_base s (Param.set (ParamStepped.base s) f)).
Proof. reflexivity. Qed.

(** C4, at the input that breaks it: on the four-step parameter the
    assertion of [setUI 7.f] is false, the call goes on and stores step 7,
    which is not within [[0, 3]]; [setHost 7.f] does the same, and so does
    [setStep] with the member [nSteps]. *)
Theorem step_leaves_range :
  let s1 := fst (ParamStepped.setUI four_steps seven true) in
  step_in_range four_steps /\
  ParamStepped.setUI_jassert four_steps seven = false /\
  ParamStepped.getStep s1 = 7 /\ ParamStepped.nSteps s1 = 4 /\
  ~ step_in_range s1 /\
  (exists s2, fst (setHost (AsParamStepped four_steps) seven) = AsParamStepped s2
              /\ ~ step_in_range s2) /\
  ~ step_in_range (ParamStepped.setStep four_steps (ParamStepped.nSteps four_steps)).
Proof.
  cbv zeta. split; [|split; [|split; [|split; [|split; [|split]]]]].
  - unfold step_in_range. vm_compute. split; discriminate.
  - reflexivity.
  - reflexivity.
  - reflexivity.
  - unfold step_in_range. vm_compute. intros [_ Hc]. now apply Hc.
  - eexists. split; [reflexivity|].
    unfold step_in_range. vm_compute. intros [_ Hc]. now apply Hc.
  - unfold step_in_range. vm_compute. intros [_ Hc]. now apply Hc.
Qed.

(** X1: as long as every call respects the assertions, the step of a
    [ParamStepped] stays within its range (and the number of steps is what
    it was). *)
Theorem step_stays_in_range (s : ParamStepped.t) (cs : list Call) :
  step_in_range s ->
  forallb (asserted (ParamStepped.nSteps s)) cs = true ->
  exists s', fst (run cs (AsParamStepped s)) = AsParamStepped s'
             /\ ParamStepped.nSteps s' = ParamStepped.nSteps s
             /\ step_in_range s'.
Proof.
  revert s. induction cs as [|c cs IH]; intros s Hs Hcs.
  - exists s. split; [reflexivity | split; [reflexivity | exact Hs]].
  - cbn [forallb] in Hcs. apply andb_prop in Hcs as [Hc Hcs].
    assert (Hstep : exists s1, fst (exec c (AsParamStepped s)) = AsParamStepped s1
                               /\ ParamStepped.nSteps s1 = ParamStepped.nSteps s
                               /\ step_in_range s1).
    { destruct c as [f|f n|f| |v|l|l]; cbn [asserted] in Hc;
        try (eexists; split; [reflexivity | split; [reflexivity | exact Hs]]).
      - exists (fst (ParamStepped.setUI s f n)).
        split; [reflexivity | split; [reflexivity |]].
        now apply setUI_keeps_range.
      - eexists. split; [reflexivity | split; [reflexivity |]].
        apply (setUI_keeps_range s f false) in Hc. exact Hc.
      - exists (ParamStepped.setStep s v).
        split; [reflexivity | split; [reflexivity |]].
        apply andb_prop in Hc as [H0 H1].
        apply Z.leb_le in H0. apply Z.ltb_lt in H1. now apply setStep_keeps_range. }
    destruct Hstep as (s1 & E1 & Hn1 & Hs1).
    rewrite <- Hn1 in Hcs. destruct (IH s1 Hs1 Hcs) as (s' & E' & Hn' & Hs').
    exists s'. cbn [run]. destruct (exec c (AsParamStepped s)) as [o1 r].
    cbn [fst] in E1. subst o1. destruct (run cs (AsParamStepped s1)) as [o2 rs].
    cbn [fst] in *. split; [exact E' | split; [congruence | exact Hs']].
Qed.

End SteppedRange.

Lemma step_stays_in_range_witness :
  exists s', fst (run (H := sample_platform)
                    [CallSetUI f1_4 true; CallSet seven; CallSetHost f1_5; CallIsUIDirty;
                     CallSetStep 3]
                    (AsParamStepped four_steps)) = AsParamStepped s'
             /\ ParamStepped.nSteps s' = ParamStepped.nSteps four_steps
             /\ step_in_range s'.
Proof.
  apply (step_stays_in_range (H := sample_platform) four_steps).
  - unfold step_in_range. vm_compute. split; discriminate.
  - reflexivity.
Defined.

(** ** ParamStepped: rounding to the step *)

(** *** The integer part *)

(** [std::trunc] leaves the integer part as it is. *)
Lemma int_part_trunc (x : F32.float) : F32.int_part (F32.trunc x) = F32.int_part x.
Proof.
  destruct x as [s|s| |s m e]; try reflexivity.
  unfold F32.trunc. destruct (0 <=? e) eqn:He; [reflexivity|].
  apply Z.leb_gt in He.
  destruct (Z.shiftl (Z.shiftr (Z.pos m) (- e)) (- e)) as [|m'|m'] eqn:Hm.
  - apply Z.shiftl_eq_0_iff in Hm; [|lia].
    cbn [F32.int_part]. replace (0 <=? e) with false by (symmetry; apply Z.leb_gt; lia).
    rewrite Hm. now destruct s.
  - cbn [F32.int_part]. replace (0 <=? e) with false by (symmetry; apply Z.leb_gt; lia).
    rewrite <- Hm. rewrite Z.shiftr_shiftl_l by lia. now rewrite Z.sub_diag, Z.shiftl_0_r.
  - exfalso.
    assert (Hn : 0 <= Z.shiftr (Z.pos m) (- e)) by (apply Z.shiftr_nonneg; lia).
    apply (Z.shiftl_nonneg _ (- e)) in Hn. lia.
Qed.

(** Discarding the fraction of a datum that is not negative is the floor
    of its value. *)
Lemma int_part_Qfloor (x : F32.float) (q : Q) :
  to_Q x = Some q -> (0 <= q)%Q -> F32.int_part x = Some (Qfloor q).
Proof.
  destruct x as [s|s| |s m e]; try discriminate; cbn [to_Q F32.int_part].
  - intros [= <-] _. reflexivity.
  - intros [= <-] Hq. destruct (0 <=? e) eqn:He.
    + apply Z.leb_le in He.
      assert (Hpos : 0 < Z.pos m * 2 ^ e)
        by (apply Z.mul_pos_pos; [lia | now apply Z.pow_pos_nonneg]).
      destruct s.
      * exfalso. unfold Qle in Hq. cbn in Hq. lia.
      * rewrite Qfloor_Z. now rewrite Z.shiftl_mul_pow2.
    + apply Z.leb_gt in He.
      assert (Hpow : 0 < 2 ^ (- e)) by (apply Z.pow_pos_nonneg; lia).
      destruct s.
      * exfalso. unfold Qle in Hq. cbn in Hq. lia.
      * unfold Qfloor. rewrite Z2Pos.id by exact Hpow.
        now rewrite Z.shiftr_div_pow2 by lia.
Qed.

Section Rounding.
Context `{Platform}.

Lemma ival_int_part (f : F32.float) (z : Z) :
  F32.int_part (F32.add f F32.half) = Some z ->
  F32.int_min <= z <= F32.int_max ->
  ParamStepped.ival f = z.
Proof.
  intros Hz Hr. unfold ParamStepped.ival, F32.to_int.
  rewrite int_part_trunc, Hz.
  replace (F32.int_min <=? z) with true by (symmetry; apply Z.leb_le; lia).
  replace (z <=? F32.int_max) with true by (symmetry; apply Z.leb_le; lia).
  reflexivity.
Qed.

(** When the sum [f + .5f] is exact, not negative and below 2^31, the step
    is the nearest integer of [f], a half going up. *)
Lemma step_when_sum_exact (f : F32.float) (q q' : Q) :
  to_Q f = Some q -> to_Q (F32.add f F32.half) = Some q' ->
  (q' == q + (1 # 2))%Q -> (0 <= q')%Q -> (q' < inject_Z (2 ^ 31))%Q ->
  ParamStepped.ival f = round_half_up q.
Proof.
  intros Hq Hq' Hsum Hpos Hlt.
  unfold round_half_up. rewrite <- (Qfloor_comp _ _ Hsum).
  apply ival_int_part.
  - now apply int_part_Qfloor.
  - assert (H0 : 0 <= Qfloor q') by (apply (Qfloor_resp_le 0 q') in Hpos; exact Hpos).
    assert (H1 : Qfloor q' < 2 ^ 31).
    { destruct (Z.lt_ge_cases (Qfloor q') (2 ^ 31)) as [Hl|Hg]; [exact Hl|exfalso].
      apply (Qlt_not_le _ _ Hlt). apply Qle_trans with (inject_Z (Qfloor q')).
      - rewrite <- Zle_Qle. exact Hg.
      - apply Qfloor_le. }
    unfold F32.int_min, F32.int_max. lia.
Qed.

End Rounding.

(** *** The shifts of the rounding procedure *)

Lemma iter_pos_iter {A : Type} (f : A -> A) (p : positive) (x : A) :
  SpecFloat.iter_pos f p x = Pos.iter f x p.
Proof.
  revert x. induction p as [p IH|p IH|]; intros x; cbn [SpecFloat.iter_pos Pos.iter].
  - rewrite !IH. now rewrite <- !Pos.iter_swap.
  - now rewrite !IH.
  - reflexivity.
Qed.

Lemma shr_1_spec (m : Z) (r s : bool) :
  0 <= m ->
  shr_1 {| shr_m := m; shr_r := r; shr_s := s |}
  = {| shr_m := m / 2; shr_r := Z.odd m; shr_s := r || s |}.
Proof.
  intros Hm. destruct m as [|[p|p|]|p]; try lia; cbn [shr_1 Z.odd].
  - reflexivity.
  - f_equal. rewrite Pos2Z.inj_xI. apply Z.div_unique with 1; lia.
  - f_equal. rewrite Pos2Z.inj_xO. apply Z.div_unique with 0; lia.
  - reflexivity.
Qed.

Lemma mod_pow2_succ (m : Z) (n : Z) :
  0 <= n ->
  m mod 2 ^ (n + 1) = m mod 2 ^ n + 2 ^ n * (if Z.odd (m / 2 ^ n) then 1 else 0).
Proof.
  intros Hn. rewrite Z.pow_add_r by lia. change (2 ^ 1) with 2.
  rewrite Z.rem_mul_r by (try apply Z.pow_nonzero; lia).
  now rewrite Zmod_odd.
Qed.

Lemma shr_iter (m : Z) (p : positive) :
  0 <= m ->
  Pos.iter shr_1 {| shr_m := m; shr_r := false; shr_s := false |} p
  = {| shr_m := m / 2 ^ Zpos p;
       shr_r := Z.odd (m / 2 ^ (Zpos p - 1));
       shr_s := negb (m mod 2 ^ (Zpos p - 1) =? 0) |}.
Proof.
  intros Hm. induction p as [|p IH] using Pos.peano_ind.
  - cbn [Pos.iter]. rewrite shr_1_spec by exact Hm.
    change (Z.pos 1 - 1) with 0. rewrite Z.pow_0_r, Z.div_1_r, Z.mod_1_r. reflexivity.
  - rewrite Pos.iter_succ, IH.
    assert (Hq : 0 <= m / 2 ^ Z.pos p) by (apply Z.div_pos; [lia | apply Z.pow_pos_nonneg; lia]).
    rewrite shr_1_spec by exact Hq.
    rewrite Pos2Z.inj_succ. replace (Z.succ (Z.pos p) - 1) with (Z.pos p) by lia.
    f_equal.
    + unfold Z.succ. rewrite Z.pow_add_r by lia. change (2 ^ 1) with 2.
      rewrite Z.div_div by (try apply Z.pow_pos_nonneg; lia). reflexivity.
    + pose proof (mod_pow2_succ m (Z.pos p - 1) ltac:(lia)) as Hmod.
      replace (Z.pos p - 1 + 1) with (Z.pos p) in Hmod by lia. rewrite Hmod.
      assert (Hr : 0 <= m mod 2 ^ (Z.pos p - 1))
        by (apply Z.mod_pos_bound, Z.pow_pos_nonneg; lia).
      assert (Hp : 0 < 2 ^ (Z.pos p - 1)) by (apply Z.pow_pos_nonneg; lia).
      clear IH Hmod.
      destruct (Z.odd (m / 2 ^ (Z.pos p - 1)));
        destruct (Z.eqb_spec (m mod 2 ^ (Z.pos p - 1)) 0) as [E|E];
        match goal with |- context [?a =? 0] => destruct (Z.eqb_spec a 0) end;
        cbn [orb negb]; try reflexivity; lia.
Qed.

(** *** The number of digits of a mantissa *)

Lemma digits2_pos_size (p : positive) : digits2_pos p = Pos.size p.
Proof. induction p; cbn; congruence. Qed.

Lemma digits_bounds (p : positive) :
  2 ^ (Zpos (digits2_pos p) - 1) <= Zpos p < 2 ^ Zpos (digits2_pos p).
Proof.
  rewrite digits2_pos_size.
  pose proof (Pos.size_gt p) as Hgt. pose proof (Pos.size_le p) as Hle.
  apply Pos2Z.pos_lt_pos in Hgt. apply Pos2Z.pos_le_pos in Hle.
  rewrite Pos2Z.inj_pow in Hgt, Hle. change (Z.pos p~0) with (2 * Z.pos p) in Hle.
  split; [|exact Hgt].
  replace (Z.pos (Pos.size p)) with (Z.pos (Pos.size p) - 1 + 1) in Hle by lia.
  rewrite Z.pow_add_r in Hle by lia. change (2 ^ 1) with 2 in Hle. lia.
Qed.

Lemma digits_unique (p : positive) (d : Z) :
  2 ^ (d - 1) <= Zpos p < 2 ^ d -> Zpos (digits2_pos p) = d.
Proof.
  intros [Hlo Hhi]. pose proof (digits_bounds p) as [Dlo Dhi].
  assert (Hd : 0 <= d).
  { destruct (Z.lt_ge_cases d 0) as [Hn|]; [|assumption].
    rewrite Z.pow_neg_r in Hhi by exact Hn. lia. }
  assert (H1 : Zpos (digits2_pos p) - 1 < d).
  { apply (Z.pow_lt_mono_r_iff 2); [lia | lia | lia]. }
  assert (H2 : d - 1 < Zpos (digits2_pos p)).
  { destruct (Z.lt_ge_cases (d - 1) 0); [lia|].
    apply (Z.pow_lt_mono_r_iff 2); lia. }
  lia.
Qed.

(** Rounding a significand of [24 + n] digits to 24 of them: [n] bits are
    shifted out, and the rest goes up by one when the first of these bits
    is set and either a later one is set too or the rest is odd.  [M1] is
    the rest, [up] the decision; the lemma gives the integer part of the
    rounded datum. *)
Lemma round_aux_int_part (sig : positive) (ex : Z) (n : positive) :
  Zpos (digits2_pos sig) = 24 + Zpos n -> -149 <= ex + Zpos n <= 0 ->
  let M1 := Zpos sig / 2 ^ Zpos n in
  let up := Z.odd (Zpos sig / 2 ^ (Zpos n - 1))
            && (negb (Zpos sig mod 2 ^ (Zpos n - 1) =? 0) || Z.odd M1) in
  F32.int_part (binary_round_aux 24 128 false (Zpos sig) ex loc_Exact)
  = Some ((if up then M1 + 1 else M1) / 2 ^ (- (ex + Zpos n))).
Proof.
  intros Hd He M1 up.
  pose proof (digits_bounds sig) as [Slo Shi]. rewrite Hd in Slo, Shi.
  assert (Hn : 0 < 2 ^ Zpos n) by (apply Z.pow_pos_nonneg; lia).
  assert (HM1 : 2 ^ 23 <= M1 < 2 ^ 24).
  { unfold M1. replace (24 + Z.pos n - 1) with (23 + Z.pos n) in Slo by lia.
    rewrite Z.pow_add_r in Slo, Shi by lia. split.
    - apply Z.div_le_lower_bound; lia.
    - apply Z.div_lt_upper_bound; lia. }
  unfold binary_round_aux, shr_fexp. cbn [Zdigits2]. rewrite Hd.
  unfold fexp, emin.
  replace (Z.max (24 + Z.pos n + ex - 24) (3 - 128 - 24) - ex) with (Zpos n) by lia.
  cbn [shr shr_record_of_loc]. rewrite iter_pos_iter, shr_iter by lia.
  fold M1. cbn [shr_m].
  set (M2 := round_nearest_even M1 _).
  assert (HM2 : M2 = if up then M1 + 1 else M1).
  { unfold M2, up, loc_of_shr_record, round_nearest_even.
    destruct (Z.odd (Z.pos sig / 2 ^ (Z.pos n - 1)));
      destruct (negb (Z.pos sig mod 2 ^ (Z.pos n - 1) =? 0)); cbn [andb orb]; try reflexivity.
    rewrite <- Z.negb_odd. now destruct (Z.odd M1). }
  rewrite <- HM2. clearbody M2.
  assert (HM2b : 2 ^ 23 <= M2 <= 2 ^ 24) by (destruct up; lia).
  clear HM2 up.
  destruct M2 as [|M2|M2]; try lia.
  cbn [Zdigits2].
  change (2 ^ 23) with 8388608 in HM2b. change (2 ^ 24) with 16777216 in HM2b.
  destruct (Z.eq_dec (Zpos M2) 16777216) as [Heq|Hne].
  - (* the mantissa carried into a 25th bit *)
    injection Heq as ->. change (Z.pos (digits2_pos 16777216)) with 25.
    replace (Z.max (25 + (ex + Z.pos n) - 24) (3 - 128 - 24) - (ex + Z.pos n)) with 1 by lia.
    cbn [shr SpecFloat.iter_pos shr_1 shr_m].
    replace (ex + Z.pos n + 1 <=? 128 - 24) with true by (symmetry; apply Z.leb_le; lia).
    cbn [F32.int_part]. f_equal.
    destruct (0 <=? ex + Z.pos n + 1) eqn:E.
    + apply Z.leb_le in E.
      assert (Hc : ex + Z.pos n = 0 \/ ex + Z.pos n = -1) by lia.
      destruct Hc as [-> | ->]; reflexivity.
    + apply Z.leb_gt in E. rewrite Z.shiftr_div_pow2 by lia.
      replace (- (ex + Z.pos n)) with (- (ex + Z.pos n + 1) + 1) by lia.
      rewrite (Z.pow_add_r 2 (- (ex + Z.pos n + 1)) 1) by lia.
      change (2 ^ 1) with 2.
      change 16777216 with (8388608 * 2).
      rewrite Z.div_mul_cancel_r; [reflexivity | apply Z.pow_nonzero; lia | lia].
  - assert (Hd2 : Zpos (digits2_pos M2) = 24) by (apply digits_unique; lia).
    rewrite Hd2.
    replace (Z.max (24 + (ex + Z.pos n) - 24) (3 - 128 - 24) - (ex + Z.pos n)) with 0 by lia.
    cbn [shr shr_m].
    replace (ex + Z.pos n <=? 128 - 24) with true by (symmetry; apply Z.leb_le; lia).
    cbn [F32.int_part]. f_equal.
    destruct (0 <=? ex + Z.pos n) eqn:E.
    + apply Z.leb_le in E. replace (ex + Z.pos n) with 0 by lia.
      cbn. now rewrite Z.div_1_r.
    + apply Z.leb_gt in E. now rewrite Z.shiftr_div_pow2 by lia.
Qed.

(** *** The sum of a datum and one half *)

Lemma iter_xO (m d : positive) : Zpos (Pos.iter xO m d) = Zpos m * 2 ^ Zpos d.
Proof.
  induction d as [|d IH] using Pos.peano_ind.
  - cbn [Pos.iter]. lia.
  - rewrite Pos.iter_succ, Pos2Z.inj_succ, Z.pow_succ_r by lia.
    change (Z.pos (Pos.iter xO m d)~0) with (2 * Z.pos (Pos.iter xO m d)). rewrite IH. ring.
Qed.

Lemma shl_align_fst (mx : positive) (ex ez : Z) :
  ez <= ex -> Zpos (fst (shl_align mx ex ez)) = Zpos mx * 2 ^ (ex - ez).
Proof.
  intros Hle. unfold shl_align. destruct (ez - ex) as [|d|d] eqn:Hd; cbn [fst].
  - replace (ex - ez) with 0 by lia. lia.
  - lia.
  - rewrite iter_xO. f_equal. f_equal. lia.
Qed.

(** The sum of a positive finite datum and [.5f], before rounding: the
    integer [sig] such that the sum is [sig * 2 ^ ez]. *)
Lemma add_half_normalize (m : positive) (e : Z) :
  let ez := Z.min e (-24) in
  F32.add (S754_finite false m e) F32.half
  = binary_normalize 24 128 (Zpos m * 2 ^ (e - ez) + 2 ^ (-1 - ez)) ez false.
Proof.
  intros ez. unfold F32.add, F32.half, SFadd. fold ez. cbn [cond_Zopp].
  rewrite !shl_align_fst by (unfold ez; lia).
  f_equal. f_equal.
  change 8388608 with (2 ^ 23). rewrite <- Z.pow_add_r by (unfold ez; lia).
  f_equal. lia.
Qed.

Lemma normalize_int_part (sig : positive) (ez : Z) (n : positive) :
  Zpos (digits2_pos sig) = 24 + Zpos n -> -149 <= ez + Zpos n <= 0 ->
  let M1 := Zpos sig / 2 ^ Zpos n in
  let up := Z.odd (Zpos sig / 2 ^ (Zpos n - 1))
            && (negb (Zpos sig mod 2 ^ (Zpos n - 1) =? 0) || Z.odd M1) in
  F32.int_part (binary_normalize 24 128 (Zpos sig) ez false)
  = Some ((if up then M1 + 1 else M1) / 2 ^ (- (ez + Zpos n))).
Proof.
  intros Hd He. cbn [binary_normalize]. unfold binary_round.
  rewrite Hd. unfold shl_align, fexp, emin.
  destruct (Z.max (24 + Z.pos n + ez - 24) (3 - 128 - 24) - ez) as [|d|d] eqn:E; try lia;
    now apply round_aux_int_part.
Qed.

(** The tactics of the next lemma: [eval_closed] replaces the closed
    powers of two by their values, [arith_bools] turns the parity and zero
    tests of the rounding decision into equations. *)
Ltac eval_closed_in H :=
  repeat match type of H with
  | context [2 ^ ?x] =>
      let c := eval vm_compute in (2 ^ x) in progress change (2 ^ x) with c in H
  end.
Ltac eval_closed :=
  repeat match goal with
  | |- context [Z.min ?a ?b] =>
      let c := eval vm_compute in (Z.min a b) in progress change (Z.min a b) with c
  | |- context [2 ^ ?x] =>
      let c := eval vm_compute in (2 ^ x) in progress change (2 ^ x) with c
  end.

Ltac arith_bools :=
  repeat match goal with
  | |- context [Z.odd ?a] =>
      let H := fresh "Hodd" in
      pose proof (Zmod_odd a) as H; destruct (Z.odd a)
  | |- context [?a =? 0] => destruct (Z.eqb_spec a 0)
  end; cbn [andb orb negb].

(** One exponent: [d] is the smaller of the two digit counts of the sum. *)
Ltac round_case d :=
  rewrite add_half_normalize; cbv zeta; eval_closed;
  match goal with
  | |- context [binary_normalize _ _ ?s ?ez _] =>
      let sg := fresh "sig" in let HS := fresh "HS" in
      destruct s as [|sg|sg] eqn:HS; [lia | | lia];
      let HB := fresh "HB" in
      pose proof (digits_bounds sg) as HB;
      let Hd := fresh "Hd" in
      assert (Hd : Zpos (digits2_pos sg) = d \/ Zpos (digits2_pos sg) = d + 1)
        by (destruct (Z.lt_ge_cases (Zpos sg) (2 ^ d)) as [Hlt|Hge];
            [left | right]; apply digits_unique; eval_closed;
            [eval_closed_in Hlt | eval_closed_in Hge]; lia);
      destruct Hd as [Hd|Hd]; rewrite Hd in HB; eval_closed_in HB;
      [ let n := eval vm_compute in (Z.to_pos (d - 24)) in
        first [ exfalso; lia
              | rewrite (normalize_int_part sg ez n Hd) by lia; f_equal; eval_closed;
                arith_bools; Z.div_mod_to_equations; lia ]
      | let n := eval vm_compute in (Z.to_pos (d + 1 - 24)) in
        rewrite (normalize_int_part sg ez n Hd) by lia; f_equal; eval_closed;
        arith_bools; Z.div_mod_to_equations; lia ]
  end.

(** Exponents -25 to -1, one at a time. *)
Lemma add_half_near (e : Z) (m : positive) :
  -25 <= e <= -1 -> 2 ^ 23 <= Zpos m < 2 ^ 24 ->
  (e = -25 -> Zpos m <> 16777215) ->
  F32.int_part (F32.add (S754_finite false m e) F32.half)
  = Some ((Zpos m + 2 ^ (- e - 1)) / 2 ^ (- e)).
Proof.
  intros He Hm Hne. eval_closed_in Hm.
  destruct e as [|p|p]; try lia.
  do 5 (try destruct p as [p|p|]); try (exfalso; lia);
    try specialize (Hne eq_refl); clear He;
    match goal with
    | |- context [S754_finite false m ?e] =>
        let d := eval vm_compute in (Z.max 24 (48 + e)) in round_case d
    end.
Qed.

(** Below a quarter the sum stays below one. *)
Lemma add_half_tiny (e : Z) (m : positive) :
  -149 <= e <= -26 -> Zpos m < 2 ^ 24 ->
  F32.int_part (F32.add (S754_finite false m e) F32.half) = Some 0.
Proof.
  intros He Hm. rewrite add_half_normalize. cbv zeta.
  rewrite Z.min_l by lia. rewrite Z.sub_diag, Z.pow_0_r, Z.mul_1_r.
  set (n := Z.to_pos (- 24 - e)).
  assert (Hn : Zpos n = - 24 - e) by (unfold n; rewrite Z2Pos.id; lia).
  replace (-1 - e) with (23 + Zpos n) by lia.
  assert (Hp : 0 < 2 ^ Zpos n) by (apply Z.pow_pos_nonneg; lia).
  assert (H4 : 2 ^ 2 <= 2 ^ Zpos n) by (apply Z.pow_le_mono_r; lia).
  assert (Hpow : 2 ^ (23 + Zpos n) = 2 ^ 23 * 2 ^ Zpos n) by (apply Z.pow_add_r; lia).
  change (2 ^ 2) with 4 in H4. change (2 ^ 24) with 16777216 in Hm.
  change (2 ^ 23) with 8388608 in Hpow.
  destruct (Z.pos m + 2 ^ (23 + Z.pos n)) as [|sig|sig] eqn:HS; try lia.
  assert (Hd : Zpos (digits2_pos sig) = 24 + Zpos n).
  { apply digits_unique. replace (24 + Z.pos n - 1) with (23 + Z.pos n) by lia.
    replace (24 + Z.pos n) with (23 + Z.pos n + 1) by lia.
    rewrite (Z.pow_add_r 2 (23 + Z.pos n) 1) by lia. change (2 ^ 1) with 2. lia. }
  rewrite (normalize_int_part sig e n Hd) by lia.
  f_equal. replace (- (e + Z.pos n)) with 24 by lia.
  apply Z.div_small.
  assert (HM1 : 0 <= Zpos sig / 2 ^ Zpos n < 8388608 + 4194304).
  { split; [apply Z.div_pos; lia|]. apply Z.div_lt_upper_bound; lia. }
  change (2 ^ 24) with 16777216.
  match goal with |- context [if ?b then _ else _] => destruct b end; lia.
Qed.

(** *** The step *)

Lemma valid_finite (s : bool) (m : positive) (e : Z) :
  F32.valid (S754_finite s m e) = true ->
  (Zpos (digits2_pos m) = 24 /\ -149 <= e <= 104)
  \/ (e = -149 /\ Zpos (digits2_pos m) <= 24).
Proof.
  unfold F32.valid, valid_binary, bounded, canonical_mantissa, fexp, emin, F32.prec, F32.emax.
  intros Hv. apply andb_prop in Hv as [Hc Hb].
  apply Z.eqb_eq in Hc. apply Z.leb_le in Hb. lia.
Qed.

Lemma mantissa_bounds (m : positive) :
  Zpos (digits2_pos m) <= 24 -> Zpos m < 2 ^ 24.
Proof.
  intros Hd. pose proof (digits_bounds m) as [_ Hhi].
  apply Z.lt_le_trans with (1 := Hhi). apply Z.pow_le_mono_r; lia.
Qed.

(** The nearest integer, a half going up, of [m / 2 ^ k]. *)
Lemma round_half_up_dyadic (m : positive) (k : Z) :
  0 < k ->
  round_half_up (Zpos m # Z.to_pos (2 ^ k)) = (Zpos m + 2 ^ (k - 1)) / 2 ^ k.
Proof.
  intros Hk. unfold round_half_up, Qfloor, Qplus.
  cbn [Qnum Qden]. rewrite Pos2Z.inj_mul.
  assert (Hp : 0 < 2 ^ k) by (apply Z.pow_pos_nonneg; lia).
  rewrite Z2Pos.id by exact Hp.
  replace (2 ^ k) with (2 * 2 ^ (k - 1)) at 1
    by (rewrite <- Z.pow_succ_r by lia; f_equal; lia).
  replace (Z.pos m * Z.pos 2 + 1 * (2 * 2 ^ (k - 1))) with (2 * (Z.pos m + 2 ^ (k - 1))) by lia.
  replace (2 ^ k * Z.pos 2) with (2 * 2 ^ k) by lia.
  apply Z.div_mul_cancel_l; lia.
Qed.

Section Nearest.
Context `{Platform}.

(** Every valid [float] from 0 to below 2^23, but for the one below one
    half, gets the nearest integer, a half going up. *)
Lemma ival_round_half_up (f : F32.float) (q : Q) :
  F32.valid f = true -> to_Q f = Some q ->
  (0 <= q)%Q -> (q < inject_Z (2 ^ 23))%Q -> f <> below_half ->
  ParamStepped.ival f = round_half_up q.
Proof.
  intros Hv Hq H0 H23 Hne.
  destruct f as [s|s| |s m e]; try discriminate.
  - injection Hq as <-. now destruct s.
  - cbn [to_Q] in Hq. injection Hq as <-.
    destruct (0 <=? e) eqn:He.
    + (* no datum with an exponent from 0 on is below 2^23 *)
      exfalso. apply Z.leb_le in He.
      destruct s; [unfold Qle in H0; cbn in H0; lia|].
      apply valid_finite in Hv as [[Hd _]|[-> _]]; [|lia].
      pose proof (digits_bounds m) as [Hlo _]. rewrite Hd in Hlo.
      change (2 ^ (24 - 1)) with 8388608 in Hlo.
      unfold Qlt in H23. cbn in H23.
      assert (0 < 2 ^ e) by (apply Z.pow_pos_nonneg; lia).
      change (2 ^ 23) with 8388608 in H23. nia.
    + apply Z.leb_gt in He.
      destruct s; [exfalso; unfold Qle in H0; cbn in H0; lia|].
      rewrite round_half_up_dyadic by lia.
      assert (Hm : Zpos m < 2 ^ 24).
      { apply mantissa_bounds. apply valid_finite in Hv. lia. }
      apply ival_int_part.
      * destruct (Z.le_gt_cases (-25) e) as [Hnear|Htiny].
        -- apply add_half_near; [lia | | ].
           ++ apply valid_finite in Hv as [[Hd _]|[-> _]]; [|lia].
              pose proof (digits_bounds m) as [Hlo _]. rewrite Hd in Hlo.
              change (24 - 1) with 23 in Hlo. lia.
           ++ intros -> Hc. apply Hne. unfold below_half. now injection Hc as ->.
        -- rewrite add_half_tiny; [| apply valid_finite in Hv; lia | exact Hm].
           f_equal. symmetry. apply Z.div_small.
           assert (2 ^ 25 <= 2 ^ (- e - 1)) by (apply Z.pow_le_mono_r; lia).
           assert (2 ^ (- e) = 2 * 2 ^ (- e - 1))
             by (rewrite <- Z.pow_succ_r by lia; f_equal; lia).
           change (2 ^ 25) with 33554432 in *. change (2 ^ 24) with 16777216 in Hm. lia.
      * assert (Hp : 0 < 2 ^ (- e)) by (apply Z.pow_pos_nonneg; lia).
        assert (Hh : 0 < 2 ^ (- e - 1)) by (apply Z.pow_pos_nonneg; lia).
        assert (Hz : 0 <= (Z.pos m + 2 ^ (- e - 1)) / 2 ^ (- e) <= Z.pos m)
          by (split; [apply Z.div_pos; lia |];
              apply Z.lt_succ_r, Z.div_lt_upper_bound; [lia|];
              assert (2 ^ (- e) = 2 * 2 ^ (- e - 1))
                by (rewrite <- Z.pow_succ_r by lia; f_equal; lia); nia).
        unfold F32.int_min, F32.int_max.
        change (2 ^ 31) with 2147483648. change (2 ^ 24) with 16777216 in Hm. lia.
Qed.

(** C5 as the code has it: [ParamStepped::setUI] stores what it is given,
    in or out of range, and the step is the single-precision sum [f + .5f]
    with its fraction discarded.  For every [float] [f] from 0 to below
    2^23, but for the largest one below one half, the step is the nearest
    integer of [f], a half going up.  With four steps and the labels A to D,
    [setUI 1.4f] gives step 1 and the label B, and [setUI 1.5f] gives
    step 2. *)
Theorem ParamStepped_setUI_rounds :
  (forall (s : ParamStepped.t) (f : F32.float) (notifyHost : bool),
      Param.get (ParamStepped.base (fst (ParamStepped.setUI s f notifyHost))) = f /\
      ParamStepped.getStep (fst (ParamStepped.setUI s f notifyHost))
      = F32.to_int cvt_indefinite (F32.trunc (F32.add f F32.half))) /\
  (forall (s : ParamStepped.t) (f : F32.float) (notifyHost : bool) (q : Q),
      F32.valid f = true -> to_Q f = Some q ->
      (0 <= q)%Q -> (q < inject_Z (2 ^ 23))%Q -> f <> below_half ->
      ParamStepped.getStep (fst (ParamStepped.setUI s f notifyHost)) = round_half_up q) /\
  ParamStepped.getStep (fst (ParamStepped.setUI four_steps f1_4 true)) = 1 /\
  ParamStepped.getUIString (fst (ParamStepped.setUI four_steps f1_4 true)) = Some "B" /\
  ParamStepped.getStep (fst (ParamStepped.setUI four_steps f1_5 true)) = 2.
Proof.
  split; [|split; [|repeat split]].
  - intros s f n. split; reflexivity.
  - intros s f n q Hv Hq H0 H23 Hne. now apply ival_round_half_up.
Qed.

End Nearest.

Lemma ParamStepped_setUI_rounds_witness :
  ParamStepped.getStep (fst (ParamStepped.setUI (H := sample_platform) four_steps f1_4 true))
  = round_half_up (11744051 # 8388608).
Proof.
  apply (proj1 (proj2 (ParamStepped_setUI_rounds (H := sample_platform)))
           four_steps f1_4 true (11744051 # 8388608)%Q).
  - reflexivity.
  - reflexivity.
  - discriminate.
  - reflexivity.
  - discriminate.
Defined.

(** C5 as stated fails, on every platform.  The largest [float] below one
    half is valid, lies in the range of the four-step parameter and passes
    the assertion of [setUI]; its nearest integer is 0, but its sum with
    [.5f] rounds to 1.f and the step is 1.  And -0.75f, whose nearest
    integer is -1, passes the assertion as well and gets step 0: the sum
    -0.25f is cut towards zero. *)
Lemma round_half_up_counterexample :
  (F32.valid below_half = true /\
   in_range (Param.min_ (ParamStepped.base four_steps))
            (Param.max_ (ParamStepped.base four_steps)) below_half = true /\
   to_Q below_half = Some (16777215 # 33554432)%Q /\
   round_half_up (16777215 # 33554432) = 0 /\
   F32.add below_half F32.half = F32.one /\
   forall P : Platform,
     ParamStepped.setUI_jassert (H := P) four_steps below_half = true /\
     ParamStepped.getStep (fst (ParamStepped.setUI (H := P) four_steps below_half true)) = 1 /\
     ParamStepped.getStep (fst (ParamStepped.setUI (H := P) four_steps below_half true))
     <> round_half_up (16777215 # 33554432)) /\
  (F32.valid minus_three_quarters = true /\
   to_Q minus_three_quarters = Some (- (12582912 # 16777216))%Q /\
   round_half_up (- (12582912 # 16777216)) = -1 /\
   forall P : Platform,
     ParamStepped.setUI_jassert (H := P) four_steps minus_three_quarters = true /\
     ParamStepped.getStep (fst (ParamStepped.setUI (H := P) four_steps minus_three_quarters true))
     = 0).
Proof. repeat split. discriminate. Qed.

(** From 2^23 on the step parts from the nearest integer as well:
    8388609.f gives 8388610. *)
Example large_odd_input_step :
  F32.of_int 8388609 = S754_finite false 8388609 0 /\
  to_Q (F32.of_int 8388609) = Some (inject_Z 8388609) /\
  round_half_up (inject_Z 8388609) = 8388609 /\
  forall P : Platform,
    ParamStepped.getStep (fst (ParamStepped.setUI (H := P) four_steps (F32.of_int 8388609) true))
    = 8388610.
Proof. repeat split. Qed.

(** ** setHost and values out of range *)

Section SetHost.
Context `{Platform}.

Lemma setHost_get (o : ParamObject) (v : F32.float) :
  get (fst (setHost o v)) = get (fst (setUI o v false)).
Proof.
  unfold setHost. destruct (setUI o v false) as [o' ev]. now destruct o'.
Qed.

Lemma get_setUI_AsParam (p : Param.t) (v : F32.float) (n : bool) :
  get (fst (setUI (AsParam p) v n)) = Param.get (fst (Param.setUI p v n)).
Proof. unfold setUI. now destruct (Param.setUI p v n). Qed.

Lemma get_setUI_AsParamDb (p : Param.t) (v : F32.float) (n : bool) :
  get (fst (setUI (AsParamDb p) v n)) = Param.get (fst (ParamDb.setUI p v n)).
Proof. unfold setUI. now destruct (ParamDb.setUI p v n). Qed.

(** A [ParamStepped] takes from the host whatever it is given. *)
Lemma setHost_stepped_raw (s : ParamStepped.t) (v : F32.float) :
  get (fst (setHost (AsParamStepped s) v)) = v.
Proof. reflexivity. Qed.

(** C9 as the code has it: [setHost v] leaves the default in a base
    [Param] when [v] is outside of [[min, max]], and in a [ParamDb] when the
    converted value [fromDb v] is. *)
Theorem setHost_out_of_range (p : Param.t) (v : F32.float) :
  (in_range (Param.min_ p) (Param.max_ p) v = false ->
     get (fst (setHost (AsParam p) v)) = Param.getDefault p) /\
  (in_range (Param.min_ p) (Param.max_ p) (Param.fromDb v) = false ->
     get (fst (setHost (AsParamDb p) v)) = Param.getDefault p).
Proof.
  split; intros Hout; rewrite setHost_get.
  - rewrite get_setUI_AsParam, Param_setUI_val. now rewrite Hout.
  - rewrite get_setUI_AsParamDb, ParamDb_setUI_val. now rewrite Hout.
Qed.

End SetHost.

Lemma setHost_out_of_range_witness :
  get (fst (setHost (H := sample_platform) (AsParam unit_param) F32.two)) = F32.half /\
  get (fst (setHost (H := sample_platform) (AsParamDb db_param) minus_100)) = F32.one.
Proof.
  split.
  - apply (proj1 (setHost_out_of_range (H := sample_platform) unit_param F32.two)).
    reflexivity.
  - apply (proj2 (setHost_out_of_range (H := sample_platform) db_param minus_100)).
    reflexivity.
Defined.

(** C9 as stated fails: 7.f is outside of the range [[0, 3]] of the
    four-step parameter and [setHost] stores it, not the default 0; -100.f
    is outside of the range [[0, 1]] of a [ParamDb] and [setHost] stores the
    converted value 0, not the default .5.  Both on every platform. *)
Lemma setHost_default_counterexample :
  (in_range (Param.min_ (ParamStepped.base four_steps))
            (Param.max_ (ParamStepped.base four_steps)) seven = false /\
   Param.getDefault (ParamStepped.base four_steps) = F32.zero /\
   forall P : Platform,
     get (fst (setHost (H := P) (AsParamStepped four_steps) seven)) = seven /\
     get (fst (setHost (H := P) (AsParamStepped four_steps) seven))
     <> Param.getDefault (ParamStepped.base four_steps)) /\
  (in_range (Param.min_ unit_param) (Param.max_ unit_param) minus_100 = false /\
   Param.getDefault unit_param = F32.half /\
   forall P : Platform,
     get (fst (setHost (H := P) (AsParamDb unit_param) minus_100)) = F32.zero /\
     get (fst (setHost (H := P) (AsParamDb unit_param) minus_100))
     <> Param.getDefault unit_param).
Proof.
  split; (split; [reflexivity | split; [reflexivity |]]); intros P;
    (split; [reflexivity | discriminate]).
Qed.

(** * More of the classes *)

(** ** What no call changes *)

Section Fixed.
Context `{Platform}.

Lemma exec_fixed (c : Call) (o : ParamObject) :
  settings (fst (exec c o)) = settings o /\ table (fst (exec c o)) = table o.
Proof.
  destruct c as [f|f n|f| |v|l|l], o as [p|p|s]; cbn; try (split; reflexivity).
  - now destruct (F32.geb f (Param.min_ p) && F32.leb f (Param.max_ p)).
  - now destruct (F32.geb (Param.fromDb f) (Param.min_ p)
                  && F32.leb (Param.fromDb f) (Param.max_ p)).
  - now destruct (F32.geb f (Param.min_ p) && F32.leb f (Param.max_ p)).
  - now destruct (F32.geb (Param.fromDb f) (Param.min_ p)
                  && F32.leb (Param.fromDb f) (Param.max_ p)).
Qed.

(** X2.  Name, serialization tag, unit, minimum, maximum, default and
    number of steps of a parameter, and the number of steps, the labels and
    [hasLabels] of a [ParamStepped], are what the constructor made them:
    no sequence of [set], [setUI], [setHost], [isUIDirty], [setStep],
    [addListener] and [removeListener] changes any of them. *)
Theorem settings_fixed (cs : list Call) (o : ParamObject) :
  settings (fst (run cs o)) = settings o
  /\ table (fst (run cs o)) = table o
  /\ hasLabels (fst (run cs o)) = hasLabels o.
Proof.
  assert (Hrun : forall cs o, settings (fst (run cs o)) = settings o
                              /\ table (fst (run cs o)) = table o).
  { clear cs o. induction cs as [|c cs IH]; intros o; [split; reflexivity|].
    cbn [run]. destruct (exec_fixed c o) as [E1 E2].
    destruct (exec c o) as [o1 r]. destruct (IH o1) as [E3 E4].
    destruct (run cs o1) as [o2 rs]. cbn [fst] in *. split; congruence. }
  destruct (Hrun cs o) as [E1 E2]. split; [exact E1 | split; [exact E2 |]].
  destruct (fst (run cs o)) as [p'|p'|s'], o as [p|p|s]; cbn in *;
    try reflexivity; try discriminate.
  now injection E2.
Qed.

End Fixed.

(** ** The dirty flag coalesces *)

Lemma dirty_reads_count (b : bool) (cs : list Call) :
  (count_true (dirty_reads b cs) <= (if b then 1 else 0) + count_setHost cs)%nat.
Proof.
  revert b. induction cs as [|c cs IH]; intros b; [cbn; lia|].
  unfold count_true, count_setHost in *.
  destruct c as [f|f n|f| |v|l|l]; cbn [dirty_reads];
    rewrite ?(filter_cons_False (λ c, is_setHost c = true)) by (cbn; discriminate);
    try apply IH.
  - rewrite filter_cons_True by reflexivity. cbn [length].
    specialize (IH true). cbn in IH. destruct b; lia.
  - specialize (IH false). cbn [Nat.add] in IH. destruct b.
    + rewrite filter_cons_True by reflexivity. cbn [length]. lia.
    + rewrite filter_cons_False by discriminate. lia.
Qed.

(** X3.  [isUIDirty] answers true at most once for each [setHost], and once
    more when the flag was set before: in any sequence of calls the number
    of true answers is at most the number of [setHost] calls, plus one if
    the flag was set at the start. *)
Theorem isUIDirty_coalesces `{Platform} (cs : list Call) (o : ParamObject) :
  (count_true (snd (run cs o))
   <= (if Param.uiDirty (base_of o) then 1 else 0) + count_setHost cs)%nat.
Proof. rewrite run_dirty_reads. apply dirty_reads_count. Qed.

(** ** The labels of a ParamStepped *)

Lemma fill_labels_length (lbl : list string) (u : nat) (arr : list string) (set : bool) :
  length (fst (ParamStepped.fill_labels lbl u arr set)) = length arr.
Proof.
  revert u arr set. induction lbl as [|l lbl IH]; intros u arr set; [reflexivity|].
  cbn [ParamStepped.fill_labels]. destruct (u <? length arr)%nat; [|reflexivity].
  now rewrite IH, length_insert.
Qed.

Lemma fill_labels_lookup (lbl : list string) (u : nat) (arr : list string) (set : bool)
    (i : nat) :
  fst (ParamStepped.fill_labels lbl u arr set) !! i
  = if decide (u <= i < u + length lbl /\ i < length arr)%nat
    then lbl !! (i - u)%nat else arr !! i.
Proof.
  revert u arr set. induction lbl as [|l lbl IH]; intros u arr set.
  - cbn. destruct (decide _) as [Hd|Hd]; [lia | reflexivity].
  - cbn [ParamStepped.fill_labels length].
    destruct (Nat.ltb_spec u (length arr)) as [Hu|Hu].
    + rewrite IH, length_insert.
      destruct (decide (S u <= i < S u + length lbl /\ i < length arr)%nat) as [Hd|Hd].
      * rewrite decide_True by lia.
        replace (i - u)%nat with (S (i - S u)) by lia. reflexivity.
      * destruct (decide (i = u)) as [->|Hne].
        -- rewrite decide_True by lia. rewrite list_lookup_insert_eq by exact Hu.
           now rewrite Nat.sub_diag.
        -- rewrite decide_False by lia. now rewrite list_lookup_insert_ne by congruence.
    + cbn [fst]. destruct (decide _) as [Hd|Hd]; [lia | reflexivity].
Qed.

Lemma fill_labels_set (lbl : list string) (u : nat) (arr : list string) (set : bool) :
  snd (ParamStepped.fill_labels lbl u arr set)
  = set || (negb (bool_decide (lbl = [])) && (u <? length arr)%nat).
Proof.
  revert u arr set. induction lbl as [|l lbl IH]; intros u arr set.
  - cbn. now rewrite orb_false_r.
  - cbn [ParamStepped.fill_labels]. rewrite bool_decide_eq_false_2 by discriminate.
    destruct (u <? length arr)%nat.
    + rewrite IH. cbn. now rewrite orb_true_r.
    + cbn. now rewrite orb_false_r.
Qed.

(** X4.  The constructor of [ParamStepped] fills the table of [nSteps]
    labels from the front with the given ones and leaves the rest empty;
    labels beyond the table are not read.  [hasLabels] is true exactly when
    the table has a place and at least one label was given. *)
Theorem ParamStepped_ctor_labels (n : Z) (name tag : string) (defaultval : Z)
    (labels : option (list string)) (dirty0 : bool) :
  let s := ParamStepped.ctor n name tag defaultval labels dirty0 in
  let given := default [] labels in
  ParamStepped.labels_ s
  = take (Z.to_nat n) (given ++ replicate (Z.to_nat n) EmptyString)
  /\ ParamStepped.nSteps s = n
  /\ ParamStepped.hasLabels s = (0 <? n) && negb (bool_decide (given = [])).
Proof.
  intros s given. subst s. unfold ParamStepped.ctor, ParamStepped.hasLabels.
  fold given.
  pose proof (fill_labels_length given 0 (replicate (Z.to_nat n) EmptyString) false) as Hlen.
  pose proof (fill_labels_lookup given 0 (replicate (Z.to_nat n) EmptyString) false) as Hlk.
  pose proof (fill_labels_set given 0 (replicate (Z.to_nat n) EmptyString) false) as Hset.
  destruct (ParamStepped.fill_labels given 0 _ false) as [arr set].
  cbn [fst snd ParamStepped.labels_ ParamStepped.nSteps ParamStepped.labelsSet] in *.
  rewrite length_replicate in *.
  split; [|split; [reflexivity|]].
  - apply list_eq. intros i. rewrite Hlk. clear Hlk.
    destruct (decide (i < Z.to_nat n)%nat) as [Hi|Hi].
    + rewrite lookup_take_lt by exact Hi.
      destruct (decide (i < length given)%nat) as [Hg|Hg].
      * rewrite decide_True by lia. rewrite lookup_app_l by exact Hg.
        now rewrite Nat.sub_0_r.
      * rewrite decide_False by lia. rewrite lookup_app_r by lia.
        rewrite !lookup_replicate_2 by lia. reflexivity.
    + rewrite lookup_take_ge by lia. rewrite decide_False by lia.
      apply lookup_replicate_None. lia.
  - rewrite Hset. cbn [orb]. rewrite andb_comm. f_equal.
    destruct (Z.ltb_spec 0 n) as [Hn|Hn].
    + apply Nat.ltb_lt. lia.
    + apply Nat.ltb_ge. lia.
Qed.

Section Labels.
Context `{Platform}.

Lemma run_stepped (s : ParamStepped.t) (cs : list Call) :
  step_in_range s ->
  forallb (asserted (ParamStepped.nSteps s)) cs = true ->
  exists s', fst (run cs (AsParamStepped s)) = AsParamStepped s'
             /\ ParamStepped.nSteps s' = ParamStepped.nSteps s
             /\ ParamStepped.labels_ s' = ParamStepped.labels_ s
             /\ step_in_range s'.
Proof.
  revert s. induction cs as [|c cs IH]; intros s Hs Hcs.
  - exists s. repeat (split; [reflexivity|]). exact Hs.
  - cbn [forallb] in Hcs. apply andb_prop in Hcs as [Hc Hcs].
    assert (Hstep : exists s1, fst (exec c (AsParamStepped s)) = AsParamStepped s1
                               /\ ParamStepped.nSteps s1 = ParamStepped.nSteps s
                               /\ ParamStepped.labels_ s1 = ParamStepped.labels_ s
                               /\ step_in_range s1).
    { destruct c as [f|f n|f| |v|l|l]; cbn [asserted] in Hc;
        try (eexists; repeat (split; [reflexivity|]); exact Hs).
      - exists (fst (ParamStepped.setUI s f n)).
        repeat (split; [reflexivity|]). now apply setUI_keeps_range.
      - eexists. repeat (split; [reflexivity|]).
        apply (setUI_keeps_range s f false) in Hc. exact Hc.
      - exists (ParamStepped.setStep s v). repeat (split; [reflexivity|]).
        apply andb_prop in Hc as [H0 H1].
        apply Z.leb_le in H0. apply Z.ltb_lt in H1. now apply setStep_keeps_range. }
    destruct Hstep as (s1 & E1 & Hn1 & Hl1 & Hs1).
    rewrite <- Hn1 in Hcs. destruct (IH s1 Hs1 Hcs) as (s' & E' & Hn' & Hl' & Hs').
    exists s'. cbn [run]. destruct (exec c (AsParamStepped s)) as [o1 r].
    cbn [fst] in E1. subst o1. destruct (run cs (AsParamStepped s1)) as [o2 rs].
    cbn [fst] in *. split; [exact E' | split; [congruence | split; [congruence | exact Hs']]].
Qed.

Lemma getUIString_Some (s : ParamStepped.t) :
  length (ParamStepped.labels_ s) = Z.to_nat (ParamStepped.nSteps s) ->
  step_in_range s ->
  exists label, ParamStepped.getUIString s = Some label.
Proof.
  unfold step_in_range, ParamStepped.getUIString. intros Hlen Hs.
  destruct (Z.ltb_spec (ParamStepped.getStep s) 0) as [Hneg|_]; [lia|].
  apply lookup_lt_is_Some. lia.
Qed.

(** X5.  With a table of [nSteps] labels, [getUIString ()] reads inside of
    the table exactly when the step is one of the proper members; with any
    other step, a negative one or one from [nSteps] on, it reads outside. *)
Theorem getUIString_inside (s : ParamStepped.t) :
  length (ParamStepped.labels_ s) = Z.to_nat (ParamStepped.nSteps s) ->
  (step_in_range s <-> exists label, ParamStepped.getUIString s = Some label) /\
  (~ step_in_range s <-> ParamStepped.getUIString s = None).
Proof.
  intros Hlen.
  assert (Hiff : step_in_range s <-> exists label, ParamStepped.getUIString s = Some label).
  { split; [now apply getUIString_Some|].
    unfold step_in_range, ParamStepped.getUIString. intros [label Hl].
    destruct (Z.ltb_spec (ParamStepped.getStep s) 0) as [Hneg|Hpos]; [discriminate|].
    apply lookup_lt_Some in Hl. lia. }
  split; [exact Hiff|]. rewrite Hiff.
  destruct (ParamStepped.getUIString s) as [l|]; split; intros H0.
  - exfalso. apply H0. now exists l.
  - discriminate.
  - reflexivity.
  - intros [l Hl]. discriminate.
Qed.

(** X6.  A [ParamStepped] constructed with a default among its members, and
    then called in any way that respects the assertions, has a label for
    its step: [getUIString ()] returns the entry of the step in the table
    the constructor filled, a given label or the empty string. *)
Theorem getUIString_after_calls (n : Z) (name tag : string) (defaultval : Z)
    (labels : option (list string)) (dirty0 : bool) (cs : list Call) :
  0 <= defaultval < n ->
  forallb (asserted n) cs = true ->
  exists s', fst (run cs (AsParamStepped (ParamStepped.ctor n name tag defaultval labels dirty0)))
             = AsParamStepped s'
    /\ 0 <= ParamStepped.getStep s' < n
    /\ ParamStepped.getUIString s'
       = Some (nth (Z.to_nat (ParamStepped.getStep s'))
                 (default [] labels) EmptyString).
Proof.
  intros Hd Hcs.
  set (s := ParamStepped.ctor n name tag defaultval labels dirty0).
  assert (Hn : ParamStepped.nSteps s = n).
  { unfold s, ParamStepped.ctor. now destruct (ParamStepped.fill_labels _ _ _ _). }
  assert (Hstep : ParamStepped.getStep s = defaultval).
  { unfold s, ParamStepped.ctor. now destruct (ParamStepped.fill_labels _ _ _ _). }
  assert (Hl : forall i, ParamStepped.labels_ s !! i
               = if decide (i < Z.to_nat n)%nat
                 then Some (nth i (default [] labels) EmptyString) else None).
  { intros i. unfold s, ParamStepped.ctor.
    pose proof (fill_labels_lookup (default [] labels) 0
                  (replicate (Z.to_nat n) EmptyString) false i) as Hlk.
    destruct (ParamStepped.fill_labels _ _ _ _) as [arr set].
    cbn [fst ParamStepped.labels_] in *. rewrite Hlk, length_replicate.
    destruct (decide (i < Z.to_nat n)%nat) as [Hi|Hi].
    - destruct (decide (i < length (default [] labels))%nat) as [Hg|Hg].
      + rewrite decide_True by lia. rewrite Nat.sub_0_r.
        apply lookup_lt_is_Some in Hg as [x Hx]. rewrite Hx.
        f_equal. symmetry. apply nth_lookup_Some with (d := EmptyString) in Hx. exact Hx.
      + rewrite decide_False by lia. rewrite lookup_replicate_2 by lia.
        f_equal. symmetry. apply nth_overflow. lia.
    - rewrite decide_False by lia. apply lookup_replicate_None. lia. }
  assert (Hs : step_in_range s) by (unfold step_in_range; rewrite Hstep, Hn; lia).
  rewrite <- Hn in Hcs.
  destruct (run_stepped s cs Hs Hcs) as (s' & E & Hn' & Hl' & Hs').
  exists s'. split; [exact E|].
  unfold step_in_range in Hs'. rewrite Hn', Hn in Hs'.
  split; [lia|].
  unfold ParamStepped.getUIString.
  destruct (Z.ltb_spec (ParamStepped.getStep s') 0) as [Hneg|_]; [lia|].
  rewrite Hl', Hl. rewrite decide_True by lia. reflexivity.
Qed.

End Labels.

Lemma getUIString_inside_witness :
  (step_in_range four_steps
   <-> exists label, ParamStepped.getUIString four_steps = Some label) /\
  (~ step_in_range four_steps <-> ParamStepped.getUIString four_steps = None).
Proof. apply (getUIString_inside four_steps). reflexivity. Defined.

Lemma getUIString_after_calls_witness :
  exists s', fst (run (H := sample_platform)
                    [CallSetUI f1_4 true; CallSet seven; CallSetHost f1_5; CallSetStep 3]
                    (AsParamStepped
                       (ParamStepped.ctor 4 "wave" "wave" 0 (Some ["A"; "B"; "C"; "D"]) false)))
             = AsParamStepped s'
    /\ 0 <= ParamStepped.getStep s' < 4
    /\ ParamStepped.getUIString s'
       = Some (nth (Z.to_nat (ParamStepped.getStep s')) ["A"; "B"; "C"; "D"] EmptyString).
Proof.
  apply (getUIString_after_calls (H := sample_platform) 4 "wave" "wave" 0
           (Some ["A"; "B"; "C"; "D"]) false).
  - lia.
  - reflexivity.
Defined.

(** ** The MIDI conversions *)

Lemma midi_values_all (P : Z -> bool) :
  forallb P midi_values = true -> forall m, 0 <= m <= 127 -> P m = true.
Proof.
  intros Hall m Hm. rewrite forallb_forall in Hall. apply Hall.
  unfold midi_values. apply in_map_iff. exists (Z.to_nat m).
  split; [lia|]. apply in_seq. lia.
Qed.

Lemma midi_pairs_all {A : Type} (f : Z -> A) (R : A -> A -> bool) (d : A) :
  (let vs := map f midi_values in
   forallb (fun i => forallb (fun j => (j <=? i)%nat || R (nth i vs d) (nth j vs d))
                       (seq 0 128)) (seq 0 128)) = true ->
  forall m m', 0 <= m -> m < m' -> m' <= 127 -> R (f m) (f m') = true.
Proof.
  cbv zeta. intros Hall m m' H0 Hlt H127.
  assert (Hnth : forall i, (i < 128)%nat -> nth i (map f midi_values) d = f (Z.of_nat i)).
  { intros i Hi. rewrite (nth_indep _ d (f 0)) by (unfold midi_values; now rewrite !length_map, length_seq).
    rewrite (map_nth f midi_values 0 i). f_equal. unfold midi_values.
    change 0 with (Z.of_nat 0). rewrite (map_nth Z.of_nat). now rewrite seq_nth. }
  rewrite forallb_forall in Hall.
  assert (Hm : In (Z.to_nat m) (seq 0 128)) by (apply in_seq; lia).
  apply Hall in Hm. rewrite forallb_forall in Hm.
  assert (Hm' : In (Z.to_nat m') (seq 0 128)) by (apply in_seq; lia).
  apply Hm in Hm'. rewrite !Hnth, !Z2Nat.id in Hm' by lia.
  destruct (Nat.leb_spec (Z.to_nat m') (Z.to_nat m)); [lia | exact Hm'].
Qed.

(** X7.  Every MIDI value comes back from its unipolar value:
    [unipolarToMidi (midiToUnipolar (m))] is [m] for [m] from 0 to 127, and
    the unipolar value is within [[0, 1]]. *)
Theorem midi_unipolar_round_trip `{Platform} (m : Z) :
  0 <= m <= 127 ->
  Param.unipolarToMidi (Param.midiToUnipolar m) = m
  /\ F32.leb F32.zero (Param.midiToUnipolar m) = true
  /\ F32.leb (Param.midiToUnipolar m) F32.one = true.
Proof.
  intros Hm.
  assert (Hall : ((Param.unipolarToMidi (Param.midiToUnipolar m) =? m)
                  && F32.leb F32.zero (Param.midiToUnipolar m)
                  && F32.leb (Param.midiToUnipolar m) F32.one) = true).
  { revert m Hm. apply midi_values_all. vm_compute. reflexivity. }
  apply andb_prop in Hall as [Hall H1]. apply andb_prop in Hall as [Hrt H0].
  apply Z.eqb_eq in Hrt. auto.
Qed.

(** X8.  Over the MIDI values 0 to 127, [midiToUnipolar] and [midiToBipolar]
    are strictly increasing, and [midiToPanValue] never decreases and is
    strictly increasing from 1 on. *)
Theorem midi_conversions_increase (m m' : Z) :
  0 <= m -> m < m' -> m' <= 127 ->
  F32.ltb (Param.midiToUnipolar m) (Param.midiToUnipolar m') = true
  /\ F32.ltb (Param.midiToBipolar m) (Param.midiToBipolar m') = true
  /\ F32.leb (Param.midiToPanValue m) (Param.midiToPanValue m') = true
  /\ (1 <= m -> F32.ltb (Param.midiToPanValue m) (Param.midiToPanValue m') = true).
Proof.
  intros H0 Hlt H127. split; [|split; [|split]].
  - revert m m' H0 Hlt H127.
    apply (midi_pairs_all Param.midiToUnipolar F32.ltb S754_nan). vm_compute. reflexivity.
  - revert m m' H0 Hlt H127.
    apply (midi_pairs_all Param.midiToBipolar F32.ltb S754_nan). vm_compute. reflexivity.
  - revert m m' H0 Hlt H127.
    apply (midi_pairs_all Param.midiToPanValue F32.leb S754_nan). vm_compute. reflexivity.
  - intros H1.
    assert (Hall : (m <? 1) || F32.ltb (Param.midiToPanValue m) (Param.midiToPanValue m') = true).
    { revert m m' H0 Hlt H127 H1. intros m m' H0 Hlt H127 _. revert m m' H0 Hlt H127.
      apply (midi_pairs_all (fun m => (m, Param.midiToPanValue m))
               (fun a b => (fst a <? 1) || F32.ltb (snd a) (snd b)) (0, S754_nan)).
      vm_compute. reflexivity. }
    destruct (Z.ltb_spec m 1); [lia | exact Hall].
Qed.

(** X9.  Over the MIDI values 0 to 127, [midiToBipolar] and [midiToPanValue]
    stay within [[-1, 1]]; the pan value is 0 at 64 only, and the bipolar
    value is 0 nowhere. *)
Theorem midi_bipolar_range (m : Z) :
  0 <= m <= 127 ->
  in_range F32.minus_one F32.one (Param.midiToBipolar m) = true
  /\ in_range F32.minus_one F32.one (Param.midiToPanValue m) = true
  /\ (feq (Param.midiToPanValue m) F32.zero = true <-> m = 64)
  /\ feq (Param.midiToBipolar m) F32.zero = false.
Proof.
  intros Hm.
  assert (Hall : (in_range F32.minus_one F32.one (Param.midiToBipolar m)
                  && in_range F32.minus_one F32.one (Param.midiToPanValue m)
                  && Bool.eqb (feq (Param.midiToPanValue m) F32.zero) (m =? 64)
                  && negb (feq (Param.midiToBipolar m) F32.zero)) = true).
  { revert m Hm. apply midi_values_all. vm_compute. reflexivity. }
  apply andb_prop in Hall as [Hall Hz]. apply andb_prop in Hall as [Hall Hc].
  apply andb_prop in Hall as [Hb Hp].
  split; [exact Hb | split; [exact Hp | split]].
  - apply Bool.eqb_prop in Hc. rewrite Hc. apply Z.eqb_eq.
  - now apply negb_true_iff.
Qed.

(** X10.  For a MIDI value from 0 to 127, going through the unipolar value
    gives the bipolar value to the bit:
    [unipolarToBipolar (midiToUnipolar (m))] is [midiToBipolar (m)]. *)
Theorem midi_unipolar_bipolar (m : Z) :
  0 <= m <= 127 ->
  Param.unipolarToBipolar (Param.midiToUnipolar m) = Param.midiToBipolar m.
Proof.
  intros Hm.
  assert (Hall : feq (Param.unipolarToBipolar (Param.midiToUnipolar m))
                     (Param.midiToBipolar m)
                 && bool_decide (Param.unipolarToBipolar (Param.midiToUnipolar m)
                                 = Param.midiToBipolar m) = true).
  { revert m Hm. apply midi_values_all. vm_compute. reflexivity. }
  apply andb_prop in Hall as [_ Heq]. now apply bool_decide_eq_true in Heq.
Qed.

Lemma midi_unipolar_round_trip_witness :
  Param.unipolarToMidi (H := sample_platform) (Param.midiToUnipolar 100) = 100
  /\ F32.leb F32.zero (Param.midiToUnipolar 100) = true
  /\ F32.leb (Param.midiToUnipolar 100) F32.one = true.
Proof. apply (midi_unipolar_round_trip (H := sample_platform) 100). lia. Defined.

Lemma midi_conversions_increase_witness :
  F32.ltb (Param.midiToUnipolar 1) (Param.midiToUnipolar 64) = true
  /\ F32.ltb (Param.midiToBipolar 1) (Param.midiToBipolar 64) = true
  /\ F32.leb (Param.midiToPanValue 1) (Param.midiToPanValue 64) = true
  /\ (1 <= 1 -> F32.ltb (Param.midiToPanValue 1) (Param.midiToPanValue 64) = true).
Proof. apply (midi_conversions_increase 1 64); lia. Defined.

Lemma midi_bipolar_range_witness :
  in_range F32.minus_one F32.one (Param.midiToBipolar 64) = true
  /\ in_range F32.minus_one F32.one (Param.midiToPanValue 64) = true
  /\ (feq (Param.midiToPanValue 64) F32.zero = true <-> 64 = 64)
  /\ feq (Param.midiToBipolar 64) F32.zero = false.
Proof. apply (midi_bipolar_range 64). lia. Defined.

Lemma midi_unipolar_bipolar_witness :
  Param.unipolarToBipolar (Param.midiToUnipolar 100) = Param.midiToBipolar 100.
Proof. apply (midi_unipolar_bipolar 100). lia. Defined.


(** ** The floor of the decibel scale *)

(** X11.  A level at or below [MIN_DB] given to [ParamDb::setUI] is stored
    as the linear value 0, or as the default when 0 is not within
    [[min, max]]; when 0 is stored [getUI] returns [MIN_DB], whatever the
    level was and whatever the library's [pow] and [log10] are. *)
Theorem ParamDb_floor `{Platform} (p : Param.t) (db : F32.float) (notifyHost : bool) :
  F32.leb db Param.MIN_DB = true ->
  Param.get (fst (ParamDb.setUI p db notifyHost))
  = (if in_range (Param.min_ p) (Param.max_ p) F32.zero then F32.zero else Param.default_ p)
  /\ (in_range (Param.min_ p) (Param.max_ p) F32.zero = true ->
      ParamDb.getUI (fst (ParamDb.setUI p db notifyHost)) = Param.MIN_DB).
Proof.
  intros Hdb. unfold ParamDb.getUI. rewrite ParamDb_setUI_val, (fromDb_floor db Hdb).
  split; [reflexivity|]. intros ->. now apply toDb_floor.
Qed.

Lemma ParamDb_floor_witness :
  Param.get (fst (ParamDb.setUI (H := sample_platform) unit_param minus_100 true))
  = (if in_range (Param.min_ unit_param) (Param.max_ unit_param) F32.zero
     then F32.zero else Param.default_ unit_param)
  /\ (in_range (Param.min_ unit_param) (Param.max_ unit_param) F32.zero = true ->
      ParamDb.getUI (H := sample_platform)
        (fst (ParamDb.setUI (H := sample_platform) unit_param minus_100 true))
      = Param.MIN_DB).
Proof. apply (ParamDb_floor (H := sample_platform) unit_param minus_100 true). reflexivity. Defined.

(** ** The value and the step of a ParamStepped *)

Lemma round_aux_exact (s : bool) (m : positive) (e : Z) :
  Zpos (digits2_pos m) = 24 -> -149 <= e <= 104 ->
  binary_round_aux 24 128 s (Zpos m) e loc_Exact = S754_finite s m e.
Proof.
  intros Hd He. unfold binary_round_aux, shr_fexp, fexp, emin.
  cbn [Zdigits2 shr_record_of_loc]. rewrite Hd.
  replace (Z.max (24 + e - 24) (3 - 128 - 24) - e) with 0 by lia.
  cbn [shr shr_m loc_of_shr_record round_nearest_even Zdigits2]. rewrite Hd.
  replace (Z.max (24 + e - 24) (3 - 128 - 24) - e) with 0 by lia.
  cbn [shr shr_m shr_record_of_loc].
  replace (e <=? 128 - 24) with true by (symmetry; apply Z.leb_le; lia).
  reflexivity.
Qed.

(** [static_cast<float>] of a positive integer below 2^24 is exact. *)
Lemma of_int_exact (v : positive) :
  Zpos v < 2 ^ 24 ->
  exists m e, F32.of_int (Zpos v) = S754_finite false m e
              /\ Zpos (digits2_pos m) = 24 /\ -23 <= e <= 0
              /\ Zpos m = Zpos v * 2 ^ (- e).
Proof.
  intros Hv. unfold F32.of_int, F32.prec, F32.emax. cbn [binary_normalize].
  unfold binary_round.
  pose proof (digits_bounds v) as [Hlo Hhi].
  assert (Hd : 1 <= Zpos (digits2_pos v) <= 24).
  { split; [lia|]. destruct (Z.le_gt_cases (Zpos (digits2_pos v)) 24) as [Hle|Hgt]; [exact Hle|].
    exfalso. assert (2 ^ 24 <= 2 ^ (Zpos (digits2_pos v) - 1)) by (apply Z.pow_le_mono_r; lia).
    lia. }
  set (e := Zpos (digits2_pos v) - 24).
  assert (Hf : fexp 24 128 (Zpos (digits2_pos v) + 0) = e)
    by (unfold fexp, emin, e; lia).
  rewrite Hf.
  pose proof (shl_align_fst v 0 e ltac:(unfold e; lia)) as Hm.
  assert (He : snd (shl_align v 0 e) = e).
  { unfold shl_align. destruct (e - 0) as [|p|p] eqn:E; cbn [snd]; unfold e in *; lia. }
  destruct (shl_align v 0 e) as [mz ez]. cbn [fst snd] in *. subst ez.
  assert (Hdz : Zpos (digits2_pos mz) = 24).
  { apply digits_unique. rewrite Hm. replace (0 - e) with (24 - Zpos (digits2_pos v)) by (unfold e; lia).
    assert (Hp : 0 < 2 ^ (24 - Zpos (digits2_pos v))) by (apply Z.pow_pos_nonneg; lia).
    split.
    - replace (24 - 1) with ((Zpos (digits2_pos v) - 1) + (24 - Zpos (digits2_pos v))) by lia.
      rewrite Z.pow_add_r by lia. apply Z.mul_le_mono_nonneg_r; lia.
    - replace 24 with (Zpos (digits2_pos v) + (24 - Zpos (digits2_pos v))) at 2 by lia.
      rewrite Z.pow_add_r by lia. apply Z.mul_lt_mono_pos_r; lia. }
  exists mz, e. rewrite round_aux_exact by (unfold e; lia).
  split; [reflexivity|]. split; [exact Hdz|]. split; [unfold e; lia|].
  exact Hm.
Qed.

Section Sync.
Context `{Platform}.

(** The step of the [float] of a member is the member. *)
Lemma ival_of_int (v : Z) : 0 <= v < 2 ^ 23 -> ParamStepped.ival (F32.of_int v) = v.
Proof.
  intros Hv. destruct v as [|v|v]; [reflexivity | | lia].
  destruct (of_int_exact v) as (m & e & E & Hd & He & Hm).
  { change (2 ^ 24) with 16777216. change (2 ^ 23) with 8388608 in Hv. lia. }
  assert (Hneg : e < 0).
  { destruct (Z.eq_dec e 0) as [->|]; [|lia]. exfalso.
    pose proof (digits_bounds m) as [Hlo _]. rewrite Hd in Hlo.
    change (2 ^ (24 - 1)) with 8388608 in Hlo. change (2 ^ 23) with 8388608 in Hv.
    change (2 ^ (- 0)) with 1 in Hm. lia. }
  assert (Hp : 0 < 2 ^ (- e)) by (apply Z.pow_pos_nonneg; lia).
  rewrite E.
  rewrite (ival_round_half_up _ (Zpos m # Z.to_pos (2 ^ (- e)))).
  - rewrite round_half_up_dyadic by lia. rewrite Hm.
    symmetry. apply Z.div_unique with (r := 2 ^ (- e - 1)); [|ring].
    left. split; [apply Z.pow_nonneg; lia|]. apply Z.pow_lt_mono_r; lia.
  - unfold F32.valid, valid_binary, bounded, canonical_mantissa, fexp, emin, F32.prec, F32.emax.
    rewrite Hd. apply andb_true_intro. split; [apply Z.eqb_eq | apply Z.leb_le]; lia.
  - cbn [to_Q]. replace (0 <=? e) with false by (symmetry; apply Z.leb_gt; lia). reflexivity.
  - unfold Qle. cbn. lia.
  - unfold Qlt. cbn [Qnum Qden inject_Z]. rewrite Z2Pos.id by exact Hp. rewrite Hm. nia.
  - unfold below_half. intros Hc. injection Hc as Hc1 Hc2. lia.
Qed.

Lemma setUI_in_sync (s : ParamStepped.t) (f : F32.float) (n : bool) :
  in_sync (fst (ParamStepped.setUI s f n)).
Proof. reflexivity. Qed.

Lemma setStep_in_sync (s : ParamStepped.t) (v : Z) :
  0 <= v < 2 ^ 23 -> in_sync (ParamStepped.setStep s v).
Proof. intros Hv. unfold in_sync. cbn. now rewrite ival_of_int. Qed.

(** X12.  The step of a [ParamStepped] is the one its value rounds to, as
    [setUI] computes it, after the constructor and after every sequence of
    [setUI], [setHost], [setStep], [isUIDirty], [addListener] and
    [removeListener], for members from 0 to below 2^23.  A [set] stores the
    value and leaves the step: after it the two can differ, as on the
    four-step parameter after [set (2.f)], whose step is still 0. *)
Theorem step_follows_value :
  (forall (n : Z) (name tag : string) (defaultval : Z) (labels : option (list string))
          (dirty0 : bool) (cs : list Call),
      0 <= defaultval < 2 ^ 23 ->
      forallb keeps_sync cs = true ->
      exists s', fst (run cs (AsParamStepped
                                (ParamStepped.ctor n name tag defaultval labels dirty0)))
                 = AsParamStepped s'
                 /\ in_sync s') /\
  (forall (s : ParamStepped.t) (f : F32.float),
      exists s', set (AsParamStepped s) f = AsParamStepped s'
                 /\ ParamStepped.getStep s' = ParamStepped.getStep s
                 /\ Param.get (ParamStepped.base s') = f) /\
  (exists s', set (AsParamStepped four_steps) F32.two = AsParamStepped s'
              /\ ParamStepped.getStep s' = 0
              /\ ParamStepped.ival (Param.get (ParamStepped.base s')) = 2).
Proof.
  split; [|split].
  - intros n name tag d labels dirty0 cs Hd Hcs.
    assert (Hctor : in_sync (ParamStepped.ctor n name tag d labels dirty0)).
    { unfold in_sync, ParamStepped.ctor.
      destruct (ParamStepped.fill_labels _ _ _ _) as [arr b]. cbn.
      now rewrite ival_of_int. }
    revert Hctor. generalize (ParamStepped.ctor n name tag d labels dirty0).
    induction cs as [|c cs IH]; intros s Hs.
    + now exists s.
    + cbn [forallb] in Hcs. apply andb_prop in Hcs as [Hc Hcs].
      assert (Hstep : exists s1, fst (exec c (AsParamStepped s)) = AsParamStepped s1
                                 /\ in_sync s1).
      { destruct c as [f|f b|f| |v|l|l]; cbn [keeps_sync] in Hc; try discriminate;
          try (eexists; split; [reflexivity | exact Hs]).
        - exists (fst (ParamStepped.setUI s f b)). split; [reflexivity | apply setUI_in_sync].
        - eexists. split; [reflexivity|]. reflexivity.
        - exists (ParamStepped.setStep s v). split; [reflexivity|].
          apply andb_prop in Hc as [H0 H1].
          apply Z.leb_le in H0. apply Z.ltb_lt in H1. now apply setStep_in_sync. }
      destruct Hstep as (s1 & E1 & Hs1).
      destruct (IH Hcs s1 Hs1) as (s' & E' & Hs').
      exists s'. cbn [run]. destruct (exec c (AsParamStepped s)) as [o1 r].
      cbn [fst] in E1. subst o1. destruct (run cs (AsParamStepped s1)) as [o2 rs].
      cbn [fst] in *. split; assumption.
  - intros s f. eexists. split; [reflexivity|]. split; reflexivity.
  - eexists. split; [reflexivity|]. split; reflexivity.
Qed.

End Sync.

Lemma step_follows_value_witness :
  exists s', fst (run (H := sample_platform)
                    [CallSetUI f1_4 true; CallSetHost f1_5; CallIsUIDirty; CallSetStep 3]
                    (AsParamStepped
                       (ParamStepped.ctor 4 "wave" "wave" 0 (Some ["A"; "B"; "C"; "D"]) false)))
             = AsParamStepped s'
             /\ in_sync (H := sample_platform) s'.
Proof.
  apply (proj1 (step_follows_value (H := sample_platform)) 4 "wave" "wave" 0
           (Some ["A"; "B"; "C"; "D"]) false).
  - vm_compute. split; [discriminate | reflexivity].
  - reflexivity.
Defined.


(** ** The label of a value *)

(** What [ival] is for every platform is the integer part of [f + .5f]. *)
Lemma add_half_int_part (f : F32.float) (q : Q) :
  F32.valid f = true -> to_Q f = Some q ->
  (0 <= q)%Q -> (q < inject_Z (2 ^ 23))%Q -> f <> below_half ->
  F32.int_part (F32.trunc (F32.add f F32.half)) = Some (round_half_up q)
  /\ 0 <= round_half_up q <= 2 ^ 23.
Proof.
  intros Hv Hq H0 H23 Hne.
  pose (P := {| std_log10 := fun _ => S754_nan;
                std_pow := fun _ _ => S754_nan;
                cvt_indefinite := fun _ => round_half_up q + 1 |}).
  pose proof (@ival_round_half_up P f q Hv Hq H0 H23 Hne) as Hi.
  unfold ParamStepped.ival, F32.to_int in Hi. cbn [cvt_indefinite P] in Hi.
  assert (Hr : 0 <= round_half_up q <= 2 ^ 23).
  { unfold round_half_up. split.
    - apply (Qfloor_resp_le 0 (q + (1 # 2))).
      apply Qle_trans with (1 := H0). rewrite <- (Qplus_0_r q) at 1.
      apply Qplus_le_compat; [apply Qle_refl | easy].
    - apply Z.lt_succ_r. change (Z.succ (2 ^ 23)) with (Qfloor (inject_Z (2 ^ 23 + 1))) at 1.
      rewrite <- Qfloor_Z.
      assert (Hlt : (q + (1 # 2) < inject_Z (2 ^ 23 + 1))%Q).
      { rewrite inject_Z_plus. apply Qplus_lt_le_compat; [exact H23 | easy]. }
      destruct (Z.lt_ge_cases (Qfloor (q + (1 # 2))) (2 ^ 23 + 1)) as [Hl|Hg];
        [rewrite Qfloor_Z; exact Hl | exfalso].
      apply (Qlt_not_le _ _ Hlt). apply Qle_trans with (inject_Z (Qfloor (q + (1 # 2)))).
      + rewrite <- Zle_Qle. exact Hg.
      + apply Qfloor_le. }
  split; [|exact Hr].
  destruct (F32.int_part (F32.trunc (F32.add f F32.half))) as [z|]; [|lia].
  destruct ((F32.int_min <=? z) && (z <=? F32.int_max)); [now subst | lia].
Qed.

Section LabelOf.
Context `{Platform} `{Formatting}.

(** X13.  [getUIString (v)] names the step that [setUI (v)] stores: for a
    [float] [v] from 0 to below 2^23, but for the largest one below one
    half, and a [size_t] of at least 24 bits, it looks up the nearest
    integer of [v], a half going up.  When that step has a label, the label
    is what [getUIString ()] returns after [setUI (v)]; when it is beyond
    the table, [getUIString (v)] returns the formatted placeholder, whereas
    [getUIString ()] after [setUI (v)] reads outside of the table. *)
Theorem getUIString_of_value (s : ParamStepped.t) (v : F32.float) (q : Q)
    (notifyHost : bool) :
  2 ^ 23 <= size_max ->
  F32.valid v = true -> to_Q v = Some q ->
  (0 <= q)%Q -> (q < inject_Z (2 ^ 23))%Q -> v <> below_half ->
  let u := round_half_up q in
  let s' := fst (ParamStepped.setUI s v notifyHost) in
  (u < Z.of_nat (length (ParamStepped.labels_ s)) ->
   ParamStepped.labels_ s !! Z.to_nat u = Some (ParamStepped.getUIString_of s v)
   /\ ParamStepped.getUIString s' = Some (ParamStepped.getUIString_of s v)) /\
  (Z.of_nat (length (ParamStepped.labels_ s)) <= u ->
   ParamStepped.getUIString_of s v = formatted_val u
   /\ ParamStepped.getUIString s' = None).
Proof.
  intros Hsz Hv Hq Hq0 H23 Hne u s'.
  destruct (add_half_int_part v q Hv Hq Hq0 H23 Hne) as [Hi Hr]. fold u in Hi, Hr.
  assert (Hu : F32.to_size size_max size_indefinite (F32.trunc (F32.add v F32.half)) = u).
  { unfold F32.to_size. rewrite Hi.
    replace (0 <=? u) with true by (symmetry; apply Z.leb_le; lia).
    replace (u <=? size_max) with true by (symmetry; apply Z.leb_le; lia).
    reflexivity. }
  assert (Hstep : ParamStepped.getStep s' = u).
  { unfold s', u. cbn. now apply ival_round_half_up. }
  unfold ParamStepped.getUIString, ParamStepped.getUIString_of. cbv zeta.
  rewrite Hu, Hstep.
  replace (ParamStepped.labels_ s') with (ParamStepped.labels_ s) by reflexivity.
  replace (u <? 0) with false by (symmetry; apply Z.ltb_ge; lia).
  split; intros Hlen.
  - replace (u <? Z.of_nat (length (ParamStepped.labels_ s))) with true
      by (symmetry; apply Z.ltb_lt; lia).
    destruct (lookup_lt_is_Some_2 (ParamStepped.labels_ s) (Z.to_nat u)) as [l Hl]; [lia|].
    rewrite Hl. split; reflexivity.
  - replace (u <? Z.of_nat (length (ParamStepped.labels_ s))) with false
      by (symmetry; apply Z.ltb_ge; lia).
    split; [reflexivity|]. apply lookup_ge_None. lia.
Qed.

End LabelOf.

Lemma getUIString_of_value_witness :
  ParamStepped.labels_ four_steps !! Z.to_nat (round_half_up (11744051 # 8388608))
  = Some (ParamStepped.getUIString_of (H := sample_formatting) four_steps f1_4)
  /\ ParamStepped.getUIString
       (fst (ParamStepped.setUI (H := sample_platform) four_steps f1_4 true))
     = Some (ParamStepped.getUIString_of (H := sample_formatting) four_steps f1_4).
Proof.
  apply (proj1 (getUIString_of_value (H := sample_platform) (H0 := sample_formatting)
                  four_steps f1_4 (11744051 # 8388608)%Q true
                  ltac:(vm_compute; discriminate) eq_refl eq_refl
                  ltac:(discriminate) eq_refl ltac:(discriminate))).
  reflexivity.
Defined.

(** ** The value and its range *)

Section ValueRange.
Context `{Platform}.

Lemma exec_value_in_range (lo hi : F32.float) (c : Call) (o : ParamObject) :
  table o = None -> is_set c = false ->
  Param.getMin (base_of o) = lo -> Param.getMax (base_of o) = hi ->
  in_range lo hi (Param.getDefault (base_of o)) = true ->
  in_range lo hi (get o) = true ->
  in_range lo hi (get (fst (exec c o))) = true.
Proof.
  intros Ht Hc Hlo Hhi Hd Hv.
  destruct c as [f|f n|f| |v|l|l]; try discriminate; cbn [exec fst].
  - destruct o as [p|p|s]; [| |discriminate].
    + rewrite get_setUI_AsParam, Param_setUI_val.
      cbn [base_of] in *. unfold Param.getMin, Param.getMax, Param.getDefault in *.
      rewrite Hlo, Hhi. destruct (in_range lo hi f) eqn:E; assumption.
    + rewrite get_setUI_AsParamDb, ParamDb_setUI_val.
      cbn [base_of] in *. unfold Param.getMin, Param.getMax, Param.getDefault in *.
      rewrite Hlo, Hhi. destruct (in_range lo hi (Param.fromDb f)) eqn:E; assumption.
  - rewrite setHost_get. destruct o as [p|p|s]; [| |discriminate].
    + rewrite get_setUI_AsParam, Param_setUI_val.
      cbn [base_of] in *. unfold Param.getMin, Param.getMax, Param.getDefault in *.
      rewrite Hlo, Hhi. destruct (in_range lo hi f) eqn:E; assumption.
    + rewrite get_setUI_AsParamDb, ParamDb_setUI_val.
      cbn [base_of] in *. unfold Param.getMin, Param.getMax, Param.getDefault in *.
      rewrite Hlo, Hhi. destruct (in_range lo hi (Param.fromDb f)) eqn:E; assumption.
  - destruct o as [p|p|s]; [exact Hv | exact Hv | discriminate].
  - destruct o as [p|p|s]; [exact Hv | exact Hv | discriminate].
  - destruct o as [p|p|s]; [exact Hv | exact Hv | discriminate].
  - destruct o as [p|p|s]; [exact Hv | exact Hv | discriminate].
Qed.

Lemma run_value_in_range (lo hi : F32.float) (cs : list Call) (o : ParamObject) :
  table o = None -> forallb (fun c => negb (is_set c)) cs = true ->
  Param.getMin (base_of o) = lo -> Param.getMax (base_of o) = hi ->
  in_range lo hi (Param.getDefault (base_of o)) = true ->
  in_range lo hi (get o) = true ->
  in_range lo hi (get (fst (run cs o))) = true.
Proof.
  revert o. induction cs as [|c cs IH]; intros o Ht Hcs Hlo Hhi Hd Hv; [exact Hv|].
  cbn [forallb] in Hcs. apply andb_prop in Hcs as [Hc Hcs].
  apply negb_true_iff in Hc.
  pose proof (exec_value_in_range lo hi c o Ht Hc Hlo Hhi Hd Hv) as Hv1.
  destruct (exec_fixed c o) as [Es Et].
  cbn [run]. destruct (exec c o) as [o1 r]. cbn [fst] in *.
  assert (Hs : Param.getMin (base_of o1) = lo /\ Param.getMax (base_of o1) = hi
               /\ Param.getDefault (base_of o1) = Param.getDefault (base_of o)).
  { unfold settings in Es. injection Es as _ _ _ E1 E2 E3 _.
    rewrite E1, E2, E3. auto. }
  destruct Hs as (Hlo1 & Hhi1 & Hd1).
  specialize (IH o1). destruct (run cs o1) as [o2 rs]. cbn [fst] in *.
  apply IH; try assumption; [congruence | now rewrite Hd1].
Qed.

(** X16.  The value of a [Param] and of a [ParamDb] stays within
    [[min, max]]: when the assertions of the constructor hold, [get] is
    within the bounds after the constructor and after every sequence of
    [setUI], [setHost], [isUIDirty], [addListener] and [removeListener];
    only [set] stores a value without the test. *)
Theorem value_stays_in_range (name tag unit : string) (minval maxval defaultval : F32.float)
    (numSteps : Z) (dirty0 : bool) (cs : list Call) :
  Param.ctor_jassert minval maxval defaultval = true ->
  forallb (fun c => negb (is_set c)) cs = true ->
  let p := Param.ctor name tag unit minval maxval defaultval numSteps dirty0 in
  in_range minval maxval (get (fst (run cs (AsParam p)))) = true /\
  in_range minval maxval (get (fst (run cs (AsParamDb p)))) = true.
Proof.
  intros Hj Hcs p.
  assert (Hd : in_range minval maxval defaultval = true).
  { unfold Param.ctor_jassert in Hj. apply andb_prop in Hj as [Hj H2].
    apply andb_prop in Hj as [_ H1]. unfold in_range. now rewrite H1, H2. }
  split; apply run_value_in_range; try reflexivity; assumption.
Qed.

End ValueRange.

Lemma value_stays_in_range_witness :
  in_range F32.zero F32.one
    (get (fst (run (H := sample_platform)
                 [CallSetUI F32.two true; CallSetHost f1_4; CallIsUIDirty; CallSetUI f1_5 false]
                 (AsParam (Param.ctor "vol" "vol" "" F32.zero F32.one F32.half 0 false)))))
  = true /\
  in_range F32.zero F32.one
    (get (fst (run (H := sample_platform)
                 [CallSetUI F32.two true; CallSetHost f1_4; CallIsUIDirty; CallSetUI f1_5 false]
                 (AsParamDb (Param.ctor "vol" "vol" "" F32.zero F32.one F32.half 0 false)))))
  = true.
Proof.
  apply (value_stays_in_range (H := sample_platform) "vol" "vol" "" F32.zero F32.one F32.half
           0 false).
  - reflexivity.
  - reflexivity.
Defined.

(** ** The accuracy of the binary32 product and quotient *)

Lemma represents_shr_1 (N D : Z) (mrs : shr_record) :
  0 <= N -> 0 < D -> represents N D mrs -> represents N (2 * D) (shr_1 mrs).
Proof.
  intros HN HD (Hm & Hr & Hs). destruct mrs as [m r s]. cbn [shr_m shr_r shr_s] in *.
  assert (Hq : 0 <= N / D) by (apply Z.div_pos; lia).
  rewrite shr_1_spec by lia. unfold represents. cbn [shr_m shr_r shr_s].
  pose proof (Z.mod_pos_bound N D HD) as Hb.
  assert (Hmod : N mod (2 * D) = N mod D + D * (if Z.odd (N / D) then 1 else 0)).
  { rewrite (Z.mul_comm 2 D), Z.rem_mul_r by lia. now rewrite Zmod_odd. }
  subst m. split; [|split].
  - rewrite (Z.mul_comm 2 D), Z.div_div by lia. reflexivity.
  - rewrite Hmod. destruct (Z.odd (N / D)); symmetry; [apply Z.leb_le | apply Z.leb_gt]; lia.
  - rewrite Hmod, Hr, Hs.
    destruct (Z.odd (N / D));
      destruct (Z.eqb_spec (N mod D) 0) as [E|E];
      repeat match goal with
             | |- context [?a =? ?b] => destruct (Z.eqb_spec a b)
             | |- context [?a <=? ?b] => destruct (Z.leb_spec a b)
             end; cbn [andb orb negb]; try reflexivity; lia.
Qed.

Lemma represents_iter (N D : Z) (mrs : shr_record) (p : positive) :
  0 <= N -> 0 < D -> represents N D mrs ->
  represents N (D * 2 ^ Zpos p) (Pos.iter shr_1 mrs p).
Proof.
  intros HN HD Hrep. induction p as [|p IH] using Pos.peano_ind.
  - cbn [Pos.iter]. change (2 ^ 1) with 2. rewrite Z.mul_comm. now apply represents_shr_1.
  - rewrite Pos.iter_succ, Pos2Z.inj_succ, Z.pow_succ_r by lia.
    replace (D * (2 * 2 ^ Z.pos p)) with (2 * (D * 2 ^ Z.pos p)) by ring.
    apply represents_shr_1; [lia | | exact IH].
    apply Z.mul_pos_pos; [lia | apply Z.pow_pos_nonneg; lia].
Qed.

(** Rounding to nearest, ties to even, is off by at most one half. *)
Lemma represents_round (N D : Z) (mrs : shr_record) :
  0 <= N -> 0 < D -> represents N D mrs ->
  let m2 := round_nearest_even (shr_m mrs) (loc_of_shr_record mrs) in
  N / D <= m2 <= N / D + 1 /\ - D <= 2 * (m2 * D - N) <= D.
Proof.
  intros HN HD (Hm & Hr & Hs) m2. destruct mrs as [m r s]. cbn [shr_m shr_r shr_s] in *.
  pose proof (Z.mod_pos_bound N D HD) as Hb.
  pose proof (Z.div_mod N D ltac:(lia)) as Hdm.
  subst m2 m. unfold loc_of_shr_record, round_nearest_even. cbn [shr_r shr_s].
  rewrite Hr, Hs.
  destruct (Z.leb_spec D (2 * (N mod D)));
    destruct (Z.eqb_spec (N mod D) 0);
    destruct (Z.eqb_spec (2 * (N mod D)) D); cbn [andb negb]; try lia;
    try destruct (Z.even (N / D)); nia.
Qed.

(** The rounding of [binary_round_aux]: a significand of [24 + n] digits
    that stands for [N / D], with what is left of it in the location, comes
    out with 24 digits and within one half of the last place. *)
Lemma round_aux_accurate (s : bool) (N D mz ez : Z) (lz : location) (n : Z) :
  0 <= N -> 0 < D -> represents N D (shr_record_of_loc mz lz) ->
  Zdigits2 mz = 24 + n -> 0 <= n -> -149 <= ez + n -> ez + n + 1 <= 104 ->
  exists m' e',
    binary_round_aux 24 128 s mz ez lz = S754_finite s m' e'
    /\ Zpos (digits2_pos m') = 24 /\ ez + n <= e' <= ez + n + 1
    /\ - (D * 2 ^ n) <= 2 * (Zpos m' * 2 ^ (e' - ez) * D - N) <= D * 2 ^ n
    /\ 2 ^ 23 * (D * 2 ^ n) <= N.
Proof.
  intros HN HD Hrep Hd Hn Hlo Hhi.
  assert (Hmz : mz = N / D).
  { destruct Hrep as (Hm & _). now destruct lz as [|[]]. }
  assert (Hpn : 0 < 2 ^ n) by (apply Z.pow_pos_nonneg; lia).
  assert (HT : 0 < D * 2 ^ n) by (apply Z.mul_pos_pos; lia).
  (* the significand is positive and between 2^(23+n) and 2^(24+n) *)
  assert (Hmz0 : 0 <= mz) by (rewrite Hmz; apply Z.div_pos; lia).
  destruct mz as [|pz|pz]; cbn [Zdigits2] in Hd; try lia.
  pose proof (digits_bounds pz) as [Slo Shi]. rewrite Hd in Slo, Shi.
  replace (24 + n - 1) with (23 + n) in Slo by lia.
  rewrite Z.pow_add_r in Slo, Shi by lia.
  (* after the shift *)
  assert (Hshift : exists mrs, shr_fexp 24 128 (Zpos pz) ez lz = (mrs, ez + n)
                               /\ represents N (D * 2 ^ n) mrs).
  { unfold shr_fexp. cbn [Zdigits2]. rewrite Hd. unfold fexp, emin.
    replace (Z.max (24 + n + ez - 24) (3 - 128 - 24) - ez) with n by lia.
    destruct n as [|p|p]; try lia.
    - cbn [shr]. eexists. split; [f_equal; lia|].
      rewrite Z.pow_0_r, Z.mul_1_r. exact Hrep.
    - cbn [shr]. eexists. split; [reflexivity|].
      rewrite iter_pos_iter. now apply represents_iter. }
  destruct Hshift as (mrs & Es & Hrep1).
  assert (HN1 : 2 ^ 23 <= N / (D * 2 ^ n) < 2 ^ 24).
  { rewrite <- Z.div_div by lia. rewrite <- Hmz. split.
    - apply Z.div_le_lower_bound; lia.
    - apply Z.div_lt_upper_bound; lia. }
  pose proof (represents_round N (D * 2 ^ n) mrs HN HT Hrep1) as Hround.
  cbv zeta in Hround. destruct Hround as [Hm2 Herr].
  unfold binary_round_aux. rewrite Es.
  set (M2 := round_nearest_even (shr_m mrs) (loc_of_shr_record mrs)) in *.
  clearbody M2.
  assert (HM2 : 2 ^ 23 <= M2 <= 2 ^ 24) by lia.
  assert (HNlow : 2 ^ 23 * (D * 2 ^ n) <= N).
  { pose proof (Z.mul_div_le N (D * 2 ^ n) HT) as H1.
    apply Z.le_trans with ((D * 2 ^ n) * (N / (D * 2 ^ n))); [|exact H1].
    rewrite (Z.mul_comm (2 ^ 23)). apply Z.mul_le_mono_nonneg_l; lia. }
  destruct M2 as [|M2|M2]; try lia.
  change (2 ^ 23) with 8388608 in HM2. change (2 ^ 24) with 16777216 in HM2.
  unfold shr_fexp. cbn [Zdigits2].
  destruct (Z.eq_dec (Zpos M2) 16777216) as [Heq|Hne].
  - (* the significand carried into a 25th bit *)
    injection Heq as ->. change (Z.pos (digits2_pos 16777216)) with 25.
    unfold fexp, emin.
    replace (Z.max (25 + (ez + n) - 24) (3 - 128 - 24) - (ez + n)) with 1 by lia.
    cbn [shr shr_record_of_loc SpecFloat.iter_pos shr_1 shr_m].
    replace (ez + n + 1 <=? 128 - 24) with true by (symmetry; apply Z.leb_le; lia).
    exists 8388608%positive, (ez + n + 1).
    split; [reflexivity | split; [reflexivity | split; [lia | split; [|exact HNlow]]]].
    replace (ez + n + 1 - ez) with (n + 1) by lia.
    rewrite Z.pow_add_r by lia. change (2 ^ 1) with 2.
    replace (8388608 * (2 ^ n * 2) * D) with (16777216 * (D * 2 ^ n)) by ring.
    lia.
  - assert (Hd2 : Zpos (digits2_pos M2) = 24) by (apply digits_unique; lia).
    rewrite Hd2. unfold fexp, emin.
    replace (Z.max (24 + (ez + n) - 24) (3 - 128 - 24) - (ez + n)) with 0 by lia.
    cbn [shr shr_record_of_loc shr_m].
    replace (ez + n <=? 128 - 24) with true by (symmetry; apply Z.leb_le; lia).
    exists M2, (ez + n).
    split; [reflexivity | split; [exact Hd2 | split; [lia | split; [|exact HNlow]]]].
    replace (ez + n - ez) with n by lia.
    replace (Z.pos M2 * 2 ^ n * D) with (Z.pos M2 * (D * 2 ^ n)) by ring.
    lia.
Qed.

Section ToReal.
Local Open Scope R_scope.

Lemma powerRZ_2_pos (e : Z) : 0 < powerRZ 2 e.
Proof. apply powerRZ_lt. lra. Qed.

Lemma powerRZ_2_IZR (k : Z) : (0 <= k)%Z -> powerRZ 2 k = IZR (2 ^ k).
Proof.
  intros Hk. rewrite <- (Z2Nat.id k Hk), <- pow_powerRZ. now rewrite pow_IZR.
Qed.

Lemma powerRZ_2_split (e e' : Z) :
  (e <= e')%Z -> powerRZ 2 e' = IZR (2 ^ (e' - e)) * powerRZ 2 e.
Proof.
  intros He. replace e' with ((e' - e) + e)%Z at 1 by lia.
  rewrite powerRZ_add by lra. now rewrite powerRZ_2_IZR by lia.
Qed.

(** From the integers to the reals: one half of the last place is at most
    2^-24 of the value. *)
Lemma accurate_to_R (N D : Z) (m' : positive) (e' ez n : Z) :
  (0 < D)%Z -> (0 <= n)%Z -> (ez <= e')%Z ->
  (- (D * 2 ^ n) <= 2 * (Zpos m' * 2 ^ (e' - ez) * D - N) <= D * 2 ^ n)%Z ->
  (2 ^ 23 * (D * 2 ^ n) <= N)%Z ->
  Rabs (IZR (Zpos m') * powerRZ 2 e' - IZR N / IZR D * powerRZ 2 ez)
  <= / 2 ^ 24 * (IZR N / IZR D * powerRZ 2 ez).
Proof.
  intros HD Hn He Herr Hlow.
  rewrite (powerRZ_2_split ez e' He).
  set (K := (Zpos m' * 2 ^ (e' - ez))%Z) in *.
  replace (IZR (Z.pos m') * (IZR (2 ^ (e' - ez)) * powerRZ 2 ez))
    with (IZR K * powerRZ 2 ez) by (unfold K; rewrite mult_IZR; ring).
  pose proof (powerRZ_2_pos ez) as HP. set (P := powerRZ 2 ez) in *.
  assert (HDr : 0 < IZR D) by (now apply IZR_lt).
  assert (H1 : (- N <= 16777216 * (K * D - N) <= N)%Z).
  { change (2 ^ 23)%Z with 8388608%Z in Hlow. lia. }
  destruct H1 as [H1 H2]. apply IZR_le in H1, H2.
  rewrite opp_IZR in H1. rewrite mult_IZR, minus_IZR, mult_IZR in H1, H2.
  set (k := IZR K) in *. set (d := IZR D) in *. set (v := IZR N) in *.
  assert (Hq : v / d * d = v) by (field; lra).
  replace (k * P - v / d * P) with ((k - v / d) * P) by ring.
  rewrite Rabs_mult, (Rabs_pos_eq P) by lra.
  replace (/ 2 ^ 24 * (v / d * P)) with (/ 2 ^ 24 * (v / d) * P) by ring.
  apply Rmult_le_compat_r; [lra|].
  apply Rabs_le.
  assert (Hkd : k * d - v = (k - v / d) * d) by (rewrite Rmult_minus_distr_r, Hq; ring).
  rewrite Hkd in H1, H2.
  assert (Hvd : v = v / d * d) by (symmetry; exact Hq).
  split.
  - apply Rmult_le_reg_r with (16777216 * d); [lra|].
    replace (- (/ 2 ^ 24 * (v / d)) * (16777216 * d)) with (- (v / d * d)) by (field; lra).
    rewrite Hq. lra.
  - apply Rmult_le_reg_r with (16777216 * d); [lra|].
    replace (/ 2 ^ 24 * (v / d) * (16777216 * d)) with (v / d * d) by (field; lra).
    rewrite Hq. lra.
Qed.

End ToReal.

Lemma normal_finite (x : F32.float) :
  normal x = true ->
  exists s m e, x = S754_finite s m e /\ Zpos (digits2_pos m) = 24 /\ -149 <= e <= 104.
Proof.
  destruct x as [s|s| |s m e]; try discriminate. cbn [normal]. intros Hn.
  apply andb_prop in Hn as [Hn H2]. apply andb_prop in Hn as [H0 H1].
  apply Z.eqb_eq in H0. apply Z.leb_le in H1, H2. exists s, m, e. auto.
Qed.

Lemma normal_intro (s : bool) (m : positive) (e : Z) :
  Zpos (digits2_pos m) = 24 -> -149 <= e <= 104 -> normal (S754_finite s m e) = true.
Proof.
  intros Hd He. cbn [normal]. rewrite Hd.
  replace (-149 <=? e) with true by (symmetry; apply Z.leb_le; lia).
  replace (e <=? 104) with true by (symmetry; apply Z.leb_le; lia).
  reflexivity.
Qed.

Lemma normal_mantissa (m : positive) :
  Zpos (digits2_pos m) = 24 -> 8388608 <= Zpos m < 16777216.
Proof.
  intros Hd. pose proof (digits_bounds m) as H. rewrite Hd in H. exact H.
Qed.

Section Signs.
Local Open Scope R_scope.

Lemma signed_error (sg : bool) (a v u : R) :
  Rabs (a - v) <= u * v -> 0 <= v ->
  Rabs ((if sg then -1 else 1) * a - (if sg then -1 else 1) * v)
  <= u * Rabs ((if sg then -1 else 1) * v).
Proof.
  intros Ha Hv. rewrite <- Rmult_minus_distr_l, !Rabs_mult.
  replace (Rabs (if sg then -1 else 1)) with 1
    by (destruct sg; unfold Rabs; destruct Rcase_abs; lra).
  rewrite (Rabs_pos_eq v) by exact Hv. lra.
Qed.

Lemma sign_xorb (sx sy : bool) :
  (if xorb sx sy then -1 else 1) = (if sx then -1 else 1) * (if sy then -1 else 1).
Proof. destruct sx, sy; cbn; lra. Qed.

End Signs.

(** The product of two normal data whose exponents are such that the
    result is in the normal range: it is normal, and off by at most 2^-24
    of the exact product. *)
Lemma mul_accurate (x y : F32.float) :
  normal x = true -> normal y = true ->
  -172 <= exponent x + exponent y <= 79 ->
  normal (F32.mul x y) = true
  /\ exponent x + exponent y + 23 <= exponent (F32.mul x y) <= exponent x + exponent y + 25
  /\ (Rabs (to_R (F32.mul x y) - to_R x * to_R y) <= / 2 ^ 24 * Rabs (to_R x * to_R y))%R.
Proof.
  intros Hx Hy He.
  destruct (normal_finite x Hx) as (sx & mx & ex & -> & Hdx & Hex).
  destruct (normal_finite y Hy) as (sy & my & ey & -> & Hdy & Hey).
  cbn [exponent] in *.
  pose proof (normal_mantissa mx Hdx) as Hmx. pose proof (normal_mantissa my Hdy) as Hmy.
  unfold F32.mul, F32.prec, F32.emax. cbn [SFmul].
  set (N := Zpos (mx * my)).
  assert (HN : N = Zpos mx * Zpos my) by reflexivity.
  assert (HNb : 2 ^ 46 <= N < 2 ^ 48).
  { change (2 ^ 46) with (8388608 * 8388608). change (2 ^ 48) with (16777216 * 16777216). nia. }
  assert (Hn : exists n, Zdigits2 N = 24 + n /\ 23 <= n <= 24).
  { destruct (Z.lt_ge_cases N (2 ^ 47)) as [Hlt|Hge].
    - exists 23. split; [|lia]. unfold N. cbn [Zdigits2]. apply digits_unique.
      change (24 + 23 - 1) with 46. change (24 + 23) with 47. fold N. lia.
    - exists 24. split; [|lia]. unfold N. cbn [Zdigits2]. apply digits_unique.
      change (24 + 24 - 1) with 47. change (24 + 24) with 48. fold N. lia. }
  destruct Hn as (n & Hd & Hn).
  assert (Hrep : represents N 1 (shr_record_of_loc N loc_Exact)).
  { unfold represents. cbn [shr_record_of_loc shr_m shr_r shr_s].
    rewrite Z.div_1_r, Z.mod_1_r. repeat split. }
  destruct (round_aux_accurate (xorb sx sy) N 1 N (ex + ey) loc_Exact n
              ltac:(lia) ltac:(lia) Hrep Hd ltac:(lia) ltac:(lia) ltac:(lia))
    as (m' & e' & E & Hd' & He' & Herr & Hlow).
  rewrite E. split; [apply normal_intro; [exact Hd' | lia]|].
  cbn [exponent]. split; [lia|].
  cbn [to_R].
  pose proof (accurate_to_R N 1 m' e' (ex + ey) n ltac:(lia) ltac:(lia) ltac:(lia) Herr Hlow)
    as Hacc.
  replace (((if sx then -1 else 1) * (IZR (Z.pos mx) * powerRZ 2 ex)
            * ((if sy then -1 else 1) * (IZR (Z.pos my) * powerRZ 2 ey)))%R)
    with (((if xorb sx sy then -1 else 1) * (IZR N / 1 * powerRZ 2 (ex + ey)))%R).
  - apply signed_error; [exact Hacc|].
    apply Rmult_le_pos; [|left; apply powerRZ_2_pos].
    unfold Rdiv. rewrite Rinv_1, Rmult_1_r. apply IZR_le. lia.
  - rewrite sign_xorb, HN, mult_IZR, powerRZ_add by lra. field.
Qed.

Lemma new_location_represents (N D : Z) :
  0 <= N -> 0 < D ->
  represents N D (shr_record_of_loc (N / D) (new_location D (N mod D))).
Proof.
  intros HN HD. pose proof (Z.mod_pos_bound N D HD) as Hb.
  unfold new_location, new_location_even, new_location_odd, represents.
  destruct (Z.even D) eqn:Hev.
  - destruct (Z.eqb_spec (N mod D) 0) as [E0|E0].
    + cbn [shr_record_of_loc shr_m shr_r shr_s]. rewrite E0.
      split; [reflexivity|]. split; [symmetry; apply Z.leb_gt; lia | reflexivity].
    + destruct (Z.compare_spec (2 * (N mod D)) D) as [Hc|Hc|Hc];
        cbn [shr_record_of_loc shr_m shr_r shr_s]; (split; [reflexivity|]);
        destruct (Z.leb_spec D (2 * (N mod D))); try lia;
        destruct (Z.eqb_spec (2 * (N mod D)) D); try lia; split; reflexivity.
  - assert (Hodd : 2 * (N mod D) <> D).
    { intros Hc. rewrite <- Hc, Z.even_mul in Hev. discriminate. }
    destruct (Z.eqb_spec (N mod D) 0) as [E0|E0].
    + cbn [shr_record_of_loc shr_m shr_r shr_s]. rewrite E0.
      split; [reflexivity|]. split; [symmetry; apply Z.leb_gt; lia | reflexivity].
    + destruct (Z.compare_spec (2 * (N mod D) + 1) D) as [Hc|Hc|Hc];
        cbn [shr_record_of_loc shr_m shr_r shr_s]; (split; [reflexivity|]);
        destruct (Z.leb_spec D (2 * (N mod D))); try lia;
        destruct (Z.eqb_spec (2 * (N mod D)) D); try lia; split; reflexivity.
Qed.

(** The quotient of two normal data, likewise. *)
Lemma div_accurate (x y : F32.float) :
  normal x = true -> normal y = true ->
  -125 <= exponent x - exponent y <= 126 ->
  normal (F32.div x y) = true
  /\ (Rabs (to_R (F32.div x y) - to_R x / to_R y) <= / 2 ^ 24 * Rabs (to_R x / to_R y))%R.
Proof.
  intros Hx Hy He.
  destruct (normal_finite x Hx) as (sx & mx & ex & -> & Hdx & Hex).
  destruct (normal_finite y Hy) as (sy & my & ey & -> & Hdy & Hey).
  cbn [exponent] in *.
  pose proof (normal_mantissa mx Hdx) as Hmx. pose proof (normal_mantissa my Hdy) as Hmy.
  unfold F32.div, F32.prec, F32.emax. cbn [SFdiv].
  set (N := Zpos mx * 2 ^ 24).
  assert (Hcore : SFdiv_core_binary 24 128 (Zpos mx) ex (Zpos my) ey
                  = (N / Zpos my, ex - ey - 24, new_location (Zpos my) (N mod Zpos my))).
  { unfold SFdiv_core_binary. cbn [Zdigits2]. rewrite Hdx, Hdy. unfold fexp, emin.
    replace (Z.min (Z.max (24 + ex - (24 + ey) - 24) (3 - 128 - 24)) (ex - ey))
      with (ex - ey - 24) by lia.
    replace (ex - ey - (ex - ey - 24)) with 24 by lia.
    rewrite Z.shiftl_mul_pow2 by lia. fold N.
    unfold Z.div, Z.modulo. now destruct (Z.div_eucl N (Zpos my)). }
  rewrite Hcore. set (D := Zpos my) in *.
  assert (HNb : 2 ^ 23 * D < N /\ N < 2 ^ 25 * D).
  { unfold N, D. change (2 ^ 23) with 8388608. change (2 ^ 24) with 16777216.
    change (2 ^ 25) with 33554432. lia. }
  assert (Hq : 2 ^ 23 <= N / D < 2 ^ 25).
  { split; [apply Z.div_le_lower_bound | apply Z.div_lt_upper_bound]; unfold D in *; lia. }
  assert (Hn : exists n, Zdigits2 (N / D) = 24 + n /\ 0 <= n <= 1).
  { destruct (N / D) as [|q|q] eqn:Eq; try lia. cbn [Zdigits2].
    destruct (Z.lt_ge_cases (Zpos q) (2 ^ 24)) as [Hlt|Hge].
    - exists 0. split; [|lia]. apply digits_unique. change (24 + 0 - 1) with 23.
      change (24 + 0) with 24. lia.
    - exists 1. split; [|lia]. apply digits_unique. change (24 + 1 - 1) with 24.
      change (24 + 1) with 25. lia. }
  destruct Hn as (n & Hd & Hn).
  assert (HN0 : 0 <= N) by (unfold N; lia).
  assert (HD0 : 0 < D) by (unfold D; lia).
  destruct (round_aux_accurate (xorb sx sy) N D (N / D) (ex - ey - 24)
              (new_location D (N mod D)) n HN0 HD0 (new_location_represents N D HN0 HD0)
              Hd ltac:(lia) ltac:(lia) ltac:(lia))
    as (m' & e' & E & Hd' & He' & Herr & Hlow).
  rewrite E. split; [apply normal_intro; [exact Hd' | lia]|].
  cbn [to_R].
  pose proof (accurate_to_R N D m' e' (ex - ey - 24) n HD0 ltac:(lia) ltac:(lia) Herr Hlow)
    as Hacc.
  pose proof (powerRZ_2_pos ey) as Hpy.
  assert (HDr : (0 < IZR D)%R) by (now apply IZR_lt).
  replace (((if sx then -1 else 1) * (IZR (Z.pos mx) * powerRZ 2 ex)
            / ((if sy then -1 else 1) * (IZR (Z.pos my) * powerRZ 2 ey)))%R)
    with (((if xorb sx sy then -1 else 1) * (IZR N / IZR D * powerRZ 2 (ex - ey - 24)))%R).
  - apply signed_error; [exact Hacc|].
    apply Rmult_le_pos; [|left; apply powerRZ_2_pos].
    apply Rmult_le_pos; [apply IZR_le; lia | left; now apply Rinv_0_lt_compat].
  - rewrite sign_xorb. unfold N. rewrite mult_IZR. fold D.
    replace (ex - ey - 24) with (ex + (- ey + -24)) by lia.
    rewrite !powerRZ_add by lra. rewrite (powerRZ_neg' 2 ey).
    change (powerRZ 2 (-24)) with (/ (2 ^ 24))%R.
    change (IZR (2 ^ 24)) with (IZR 16777216).
    generalize (IZR (Z.pos mx)) (powerRZ 2 ex). intros a b.
    set (c := powerRZ 2 ey) in *. set (d := IZR D) in *.
    destruct sx, sy; field; split; lra.
Qed.

(** ** Powers of two and the range of binary32 *)

Section Magnitude.
Local Open Scope R_scope.

Lemma powerRZ_2_le (a b : Z) : (a <= b)%Z -> powerRZ 2 a <= powerRZ 2 b.
Proof.
  intros Hab. rewrite (powerRZ_2_split a b Hab).
  pose proof (powerRZ_2_pos a) as Hp.
  assert (H1 : 1 <= IZR (2 ^ (b - a))).
  { apply IZR_le. pose proof (Z.pow_pos_nonneg 2 (b - a)). lia. }
  rewrite <- (Rmult_1_l (powerRZ 2 a)) at 1. apply Rmult_le_compat_r; lra.
Qed.

Lemma powerRZ_2_lt_inv (a b : Z) : powerRZ 2 a < powerRZ 2 b -> (a < b)%Z.
Proof.
  intros Hlt. destruct (Z.lt_ge_cases a b) as [H|H]; [exact H|exfalso].
  pose proof (powerRZ_2_le b a H). lra.
Qed.

Lemma to_R_finite_pos (m : positive) (e : Z) :
  to_R (S754_finite false m e) = IZR (Zpos m) * powerRZ 2 e.
Proof. cbn [to_R]. ring. Qed.

Lemma to_R_abs (s : bool) (m : positive) (e : Z) :
  Rabs (to_R (S754_finite s m e)) = IZR (Zpos m) * powerRZ 2 e.
Proof.
  cbn [to_R]. pose proof (powerRZ_2_pos e) as Hp.
  assert (Hm : 0 < IZR (Zpos m)) by (apply IZR_lt; lia).
  assert (Hv : 0 < IZR (Zpos m) * powerRZ 2 e) by (now apply Rmult_lt_0_compat).
  destruct s.
  - replace (-1 * (IZR (Z.pos m) * powerRZ 2 e)) with (- (IZR (Z.pos m) * powerRZ 2 e)) by ring.
    rewrite Rabs_Ropp. apply Rabs_pos_eq. lra.
  - rewrite Rmult_1_l. apply Rabs_pos_eq. lra.
Qed.

(** A valid finite datum that is not zero lies between 2^-149 and 2^128 in
    magnitude. *)
Lemma valid_magnitude (s : bool) (m : positive) (e : Z) :
  F32.valid (S754_finite s m e) = true ->
  powerRZ 2 (-149) <= Rabs (to_R (S754_finite s m e)) <= powerRZ 2 128.
Proof.
  intros Hv. rewrite to_R_abs.
  assert (Hme : (Zpos m < 2 ^ 24 /\ -149 <= e <= 104)%Z).
  { apply valid_finite in Hv. split; [apply mantissa_bounds|]; lia. }
  destruct Hme as [Hm He].
  assert (Hm1 : 1 <= IZR (Zpos m)) by (apply IZR_le; lia).
  assert (Hm2 : IZR (Zpos m) <= powerRZ 2 24).
  { rewrite powerRZ_2_IZR by lia. apply IZR_le. lia. }
  pose proof (powerRZ_2_pos e) as Hp.
  pose proof (powerRZ_2_le (-149) e ltac:(lia)) as Hlo.
  pose proof (powerRZ_2_le e 104 ltac:(lia)) as Hhi.
  pose proof (powerRZ_2_pos (-149)) as Hp0.
  split.
  - apply Rle_trans with (1 * powerRZ 2 e); [lra|]. apply Rmult_le_compat_r; lra.
  - replace 128%Z with (24 + 104)%Z by lia. rewrite powerRZ_add by lra.
    apply Rmult_le_compat; lra.
Qed.

(** A normal datum: its exponent from its magnitude. *)
Lemma normal_exponent (x : F32.float) (a b : Z) :
  normal x = true ->
  powerRZ 2 a <= Rabs (to_R x) -> Rabs (to_R x) < powerRZ 2 b ->
  (a - 24 < exponent x < b - 23)%Z.
Proof.
  intros Hn Ha Hb.
  destruct (normal_finite x Hn) as (s & m & e & -> & Hd & He).
  pose proof (normal_mantissa m Hd) as [Hm1 Hm2].
  rewrite to_R_abs in Ha, Hb. cbn [exponent].
  pose proof (powerRZ_2_pos e) as Hp.
  apply IZR_le in Hm1. apply IZR_lt in Hm2.
  split.
  - assert (H1 : powerRZ 2 a < powerRZ 2 (24 + e)).
    { rewrite powerRZ_add by lra. rewrite (powerRZ_2_IZR 24) by lia.
      change (IZR (2 ^ 24)) with (IZR 16777216).
      apply Rle_lt_trans with (1 := Ha). apply Rmult_lt_compat_r; lra. }
    apply powerRZ_2_lt_inv in H1. lia.
  - assert (H1 : powerRZ 2 (23 + e) < powerRZ 2 b).
    { rewrite powerRZ_add by lra. rewrite (powerRZ_2_IZR 23) by lia.
      change (IZR (2 ^ 23)) with (IZR 8388608).
      apply Rle_lt_trans with (2 := Hb). apply Rmult_le_compat_r; lra. }
    apply powerRZ_2_lt_inv in H1. lia.
Qed.

(** A valid datum of at least 2^-126 in magnitude is normal. *)
Lemma valid_normal (x : F32.float) :
  F32.valid x = true -> powerRZ 2 (-126) <= Rabs (to_R x) -> normal x = true.
Proof.
  intros Hv Hx. pose proof (powerRZ_2_pos (-126)) as Hp.
  destruct x as [s|s| |s m e];
    try (cbn [to_R] in Hx; rewrite Rabs_R0 in Hx; lra).
  apply valid_finite in Hv as Hc.
  destruct Hc as [[Hd He]|[-> Hd]]; [now apply normal_intro|].
  destruct (Z.eq_dec (Zpos (digits2_pos m)) 24%Z) as [E|E]; [apply normal_intro; lia|].
  exfalso. rewrite to_R_abs in Hx.
  assert (Hm : (Zpos m < 2 ^ 23)%Z).
  { pose proof (digits_bounds m) as [_ Hhi].
    apply Z.lt_le_trans with (1 := Hhi). apply Z.pow_le_mono_r; lia. }
  apply IZR_lt in Hm. change (IZR (2 ^ 23)) with (IZR 8388608) in Hm.
  assert (H1 : IZR (Zpos m) * powerRZ 2 (-149) < powerRZ 2 (23 + -149)).
  { rewrite powerRZ_add by lra. rewrite (powerRZ_2_IZR 23) by lia.
    change (IZR (2 ^ 23)) with (IZR 8388608).
    apply Rmult_lt_compat_r; [apply powerRZ_2_pos | exact Hm]. }
  change (23 + -149)%Z with (-126)%Z in H1. lra.
Qed.

Lemma to_R_twenty : to_R F32.twenty = 20.
Proof.
  unfold F32.twenty. cbn [to_R]. unfold powerRZ.
  change (Pos.to_nat 19) with 19%nat. lra.
Qed.

Lemma to_R_ten : to_R F32.ten = 10.
Proof.
  unfold F32.ten. cbn [to_R]. unfold powerRZ.
  change (Pos.to_nat 20) with 20%nat. lra.
Qed.

End Magnitude.

(** ** Real analysis for the decibel round trips *)

Section RealFacts.
Import Levels.
Local Open Scope R_scope.

Lemma ln_10_pos : 0 < ln 10.
Proof. rewrite <- ln_1. apply ln_increasing; lra. Qed.

Lemma pow10_log10 (x : R) : 0 < x -> pow10 (log10 x) = x.
Proof.
  intros Hx. unfold pow10, log10.
  replace (ln x / ln 10 * ln 10) with (ln x) by (field; pose proof ln_10_pos; lra).
  now apply exp_ln.
Qed.

Lemma pow10_plus (a b : R) : pow10 (a + b) = pow10 a * pow10 b.
Proof. unfold pow10. rewrite Rmult_plus_distr_r. apply exp_plus. Qed.


Lemma pow10_0 : pow10 0 = 1.
Proof. unfold pow10. rewrite Rmult_0_l. apply exp_0. Qed.

Lemma pow10_le (a b : R) : a <= b -> pow10 a <= pow10 b.
Proof.
  intros [Hlt| ->]; [|lra]. left. apply exp_increasing.
  apply Rmult_lt_compat_r; [apply ln_10_pos | exact Hlt].
Qed.

Lemma pow10_opp (a : R) : pow10 (- a) * pow10 a = 1.
Proof. rewrite <- pow10_plus. replace (- a + a) with 0 by ring. apply pow10_0. Qed.

Lemma Rabs_le_between (a b : R) : Rabs a <= b -> - b <= a <= b.
Proof. unfold Rabs. destruct (Rcase_abs a); lra. Qed.

Lemma exp_1_ge_2 : 2 <= exp 1.
Proof. pose proof (exp_ineq1_le 1). lra. Qed.

Lemma ln_10_le_4 : ln 10 <= 4.
Proof.
  destruct (Rle_lt_dec (ln 10) 4) as [Hle|Hgt]; [exact Hle|exfalso].
  apply exp_increasing in Hgt. rewrite exp_ln in Hgt by lra.
  replace 4 with (1 + 1 + 1 + 1) in Hgt by ring.
  rewrite !exp_plus in Hgt. pose proof exp_1_ge_2 as H2.
  assert (4 <= exp 1 * exp 1) by nra.
  assert (16 <= exp 1 * exp 1 * (exp 1 * exp 1)) by nra.
  lra.
Qed.

Lemma exp_small (z z0 : R) : 0 <= z <= z0 -> z0 < 1 -> exp z * (1 - z0) <= 1.
Proof.
  intros Hz Hz0.
  pose proof (exp_ineq1_le (- z)) as Hm. pose proof (exp_pos z) as Hp.
  assert (Hinv : exp z * exp (- z) = 1).
  { rewrite <- exp_plus. replace (z + - z) with 0 by ring. apply exp_0. }
  assert (H1 : exp z * (1 - z) <= exp z * exp (- z)) by (apply Rmult_le_compat_l; lra).
  assert (H2 : exp z * (1 - z0) <= exp z * (1 - z)) by (apply Rmult_le_compat_l; lra).
  lra.
Qed.

Lemma ln_10_ge_2 : 2 <= ln 10.
Proof.
  destruct (Rle_lt_dec 2 (ln 10)) as [Hle|Hgt]; [exact Hle|exfalso].
  apply exp_increasing in Hgt. rewrite exp_ln in Hgt by lra.
  replace 2 with (1 + 1) in Hgt by ring. rewrite exp_plus in Hgt.
  pose proof exp_le_3 as H3. pose proof (exp_pos 1) as Hp.
  assert (exp 1 * exp 1 <= 3 * 3) by (apply Rmult_le_compat; lra).
  lra.
Qed.

Lemma ln_2_pos : 0 < ln 2.
Proof. rewrite <- ln_1. apply ln_increasing; lra. Qed.

Lemma ln_2_le_1 : ln 2 <= 1.
Proof.
  destruct (Rle_lt_dec (ln 2) 1) as [Hle|Hgt]; [exact Hle|exfalso].
  apply exp_increasing in Hgt. rewrite exp_ln in Hgt by lra.
  pose proof exp_1_ge_2. lra.
Qed.

Lemma log10_pow10 (y : R) : log10 (pow10 y) = y.
Proof.
  unfold log10, pow10. rewrite ln_exp. field. pose proof ln_10_pos. lra.
Qed.

(** The logarithm of a factor near 1. *)
Lemma ln_near_1 (u r : R) :
  0 <= u < 1 -> 1 - u <= r <= 1 + u -> Rabs (ln r) <= u / (1 - u).
Proof.
  intros Hu Hr.
  assert (Hr0 : 0 < r) by lra.
  assert (Hup : ln r <= r - 1).
  { pose proof (exp_ineq1_le (ln r)) as H1. rewrite exp_ln in H1 by exact Hr0. lra. }
  assert (Hlo : - (/ r - 1) <= ln r).
  { pose proof (exp_ineq1_le (- ln r)) as H1.
    rewrite exp_Ropp, exp_ln in H1 by exact Hr0. lra. }
  assert (Hinv : / r <= / (1 - u)) by (apply Rinv_le_contravar; lra).
  assert (Hq : / (1 - u) - 1 = u / (1 - u)) by (field; lra).
  assert (Hq0 : u <= u / (1 - u)).
  { rewrite <- Hq. apply Rmult_le_reg_r with (1 - u); [lra|].
    rewrite Rmult_minus_distr_r, Rinv_l by lra. nra. }
  apply Rabs_le. lra.
Qed.

(** One more operation of relative error [u] on top of a relative error
    [al]. *)
Lemma rel_step (al u a b L : R) :
  0 <= al -> 0 <= u ->
  Rabs (a - L) <= al * Rabs L -> Rabs (b - a) <= u * Rabs a ->
  Rabs (b - L) <= ((1 + al) * (1 + u) - 1) * Rabs L.
Proof.
  intros Hal Hu Ha Hb.
  pose proof (Rabs_pos L) as HL.
  assert (Haa : Rabs a <= (1 + al) * Rabs L).
  { replace a with (L + (a - L)) by ring.
    apply Rle_trans with (1 := Rabs_triang _ _). lra. }
  replace (b - L) with ((b - a) + (a - L)) by ring.
  apply Rle_trans with (1 := Rabs_triang _ _).
  assert (u * Rabs a <= u * ((1 + al) * Rabs L)) by (apply Rmult_le_compat_l; lra).
  lra.
Qed.

Lemma rel_scale (al a L s : R) :
  0 < s -> Rabs (a - L) <= al * Rabs L -> Rabs (a * s - L * s) <= al * Rabs (L * s).
Proof.
  intros Hs Ha. replace (a * s - L * s) with ((a - L) * s) by ring.
  rewrite !Rabs_mult, (Rabs_pos_eq s) by lra.
  rewrite <- Rmult_assoc. apply Rmult_le_compat_r; lra.
Qed.

(** A power whose exponent is off by at most [E] and whose value has the
    relative error [u], for a base of logarithm [lb]. *)
Lemma power_error (lb u y L E p : R) :
  0 <= lb -> 0 <= u <= 1 -> Rabs (y - L) <= E ->
  Rabs (p - exp (y * lb)) <= u * exp (y * lb) ->
  Rabs (p - exp (L * lb)) <= ((1 + u) * exp (E * lb) - 1) * exp (L * lb).
Proof.
  intros Hlb Hu Hy Hp.
  assert (Hmono : forall a b, a <= b -> exp (a * lb) <= exp (b * lb)).
  { intros a b Hab. destruct (Rle_lt_or_eq_dec _ _ (Rmult_le_compat_r lb a b Hlb Hab)) as [Hlt|Heq].
    - left. now apply exp_increasing.
    - rewrite Heq. lra. }
  assert (HE : 0 <= E) by (pose proof (Rabs_pos (y - L)); lra).
  assert (Hy' : exp (y * lb) = exp (L * lb) * exp ((y - L) * lb)).
  { rewrite <- exp_plus. f_equal. ring. }
  apply Rabs_le_between in Hy as [Hlo Hhi].
  pose proof (Hmono _ _ Hlo) as Ha1. pose proof (Hmono _ _ Hhi) as Ha2.
  assert (Hinv : exp (- E * lb) * exp (E * lb) = 1).
  { rewrite <- exp_plus. replace (- E * lb + E * lb) with 0 by ring. apply exp_0. }
  assert (Ht1 : 1 <= exp (E * lb)).
  { rewrite <- exp_0. replace 0 with (0 * lb) at 1 by ring. now apply Hmono. }
  pose proof (exp_pos (E * lb)) as Ht. pose proof (exp_pos (- E * lb)) as Hs.
  pose proof (exp_pos ((y - L) * lb)) as Ha. pose proof (exp_pos (L * lb)) as Hx.
  set (x := exp (L * lb)) in *.
  set (t := exp (E * lb)) in *. set (s := exp (- E * lb)) in *.
  set (a := exp ((y - L) * lb)) in *.
  rewrite Hy' in Hp. apply Rabs_le_between in Hp as [Hr1 Hr2].
  apply Rabs_le. split.
  - assert (Hs1 : s <= 1) by nra.
    assert (Hst : 2 <= s + t).
    { assert (0 <= s * ((t - 1) * (t - 1))) by (apply Rmult_le_pos; nra).
      replace (s * ((t - 1) * (t - 1))) with (s * t * t - 2 * (s * t) + s) in * by ring.
      rewrite Hinv in *. lra. }
    assert (0 <= u * (t - s)) by (apply Rmult_le_pos; lra).
    assert (s * (1 - u) + t * (1 + u) >= 2) by lra.
    assert (H1 : s * (1 - u) <= a * (1 - u)) by (apply Rmult_le_compat_r; lra).
    assert (H2 : x * (s * (1 - u)) <= x * (a * (1 - u))) by (apply Rmult_le_compat_l; lra).
    assert (H3 : x * 2 <= x * (s * (1 - u) + t * (1 + u))) by (apply Rmult_le_compat_l; lra).
    lra.
  - assert (H1 : a * (1 + u) <= t * (1 + u)) by (apply Rmult_le_compat_r; lra).
    assert (H2 : x * (a * (1 + u)) <= x * (t * (1 + u))) by (apply Rmult_le_compat_l; lra).
    lra.
Qed.

End RealFacts.

Lemma gtb_not_leb (a b : F32.float) : F32.gtb a b = true -> F32.leb a b = false.
Proof. unfold F32.gtb, F32.leb. now destruct (SFcompare a b) as [[]|]. Qed.

Section RoundTripErrors.
Import Levels.
Local Open Scope R_scope.

Lemma u32_bounds : 0 <= u32 <= 1.
Proof. unfold u32. lra. Qed.

(** The way there and back: the logarithm [l] of [x], the product [d]
    with 20, the quotient [y] by 20 and the power [p], each off by the
    relative error of its operation. *)
Lemma forward_error (ulib x l d y p : R) :
  0 <= ulib <= 1 -> 0 < x ->
  Rabs (l - log10 x) <= ulib * Rabs (log10 x) ->
  Rabs (d - 20 * l) <= u32 * Rabs (20 * l) ->
  Rabs (y - d / 20) <= u32 * Rabs (d / 20) ->
  Rabs (p - pow10 y) <= ulib * pow10 y ->
  Rabs (p - x) <= tolerance ulib x * x.
Proof.
  intros Hu Hx Hl Hd Hy Hp. pose proof u32_bounds as Hu32.
  set (L := log10 x) in *.
  assert (Hl20 : Rabs (20 * l - 20 * L) <= ulib * Rabs (20 * L)).
  { rewrite !(Rmult_comm 20). apply rel_scale; [lra | exact Hl]. }
  pose proof (rel_step ulib u32 _ d _ ltac:(lra) ltac:(lra) Hl20 Hd) as Hd'.
  assert (Hk1 : 0 <= (1 + ulib) * (1 + u32) - 1) by nra.
  assert (Hd20 : Rabs (d / 20 - L) <= ((1 + ulib) * (1 + u32) - 1) * Rabs L).
  { pose proof (rel_scale _ _ _ (/ 20) ltac:(lra) Hd') as H1.
    replace (20 * L * / 20) with L in H1 by field. exact H1. }
  pose proof (rel_step _ u32 _ y _ Hk1 ltac:(lra) Hd20 Hy) as Hy'.
  replace ((1 + ((1 + ulib) * (1 + u32) - 1)) * (1 + u32) - 1)
    with ((1 + ulib) * (1 + u32) ^ 2 - 1) in Hy' by ring.
  unfold pow10 in Hp.
  pose proof (power_error (ln 10) ulib _ _ _ _ ltac:(left; apply ln_10_pos) Hu Hy' Hp) as He.
  fold (pow10 L) in He. unfold L in He. rewrite (pow10_log10 x Hx) in He.
  unfold tolerance, pow10. exact He.
Qed.

(** With a C library that is off by at most 2^-22 the tolerance is below
    2^-14 for [x] between 10^-39 and 10^39, and below 2^-13 whatever [x] a
    [float] can hold. *)
Lemma tolerance_bound (ulib x c : R) :
  0 <= ulib <= / 2 ^ 22 -> Rabs (log10 x) <= c -> 0 <= c <= 75 ->
  tolerance ulib x <= 15 / 10000000 * c + 3 / 10000000.
Proof.
  intros Hu HL Hc. unfold tolerance, pow10, u32.
  set (k := (1 + ulib) * (1 + / 2 ^ 24) ^ 2 - 1).
  set (E := k * Rabs (log10 x)).
  assert (Hu' : ulib <= 1 / 4194304) by (destruct Hu as [_ Hu]; lra).
  pose proof (Rabs_pos (log10 x)) as HL0.
  assert (Hk : 0 <= k <= 36 / 100000000).
  { unfold k. split; [nra|].
    assert (H1 : (1 + / 2 ^ 24) ^ 2 <= 1 + 12 / 100000000) by lra.
    assert (H2 : (1 + ulib) * (1 + / 2 ^ 24) ^ 2 <= (1 + 1 / 4194304) * (1 + 12 / 100000000))
      by (apply Rmult_le_compat; lra).
    lra. }
  assert (HE : 0 <= E <= 36 / 100000000 * c).
  { unfold E. split; [apply Rmult_le_pos; lra|]. apply Rmult_le_compat; lra. }
  pose proof ln_10_pos as Hl0. pose proof ln_10_le_4 as Hl4.
  assert (Hz : 0 <= E * ln 10 <= 144 / 100000000 * c).
  { split; [apply Rmult_le_pos; lra|].
    apply Rle_trans with (36 / 100000000 * c * 4); [|lra].
    apply Rmult_le_compat; lra. }
  pose proof (exp_small _ _ Hz ltac:(lra)) as He. pose proof (exp_pos (E * ln 10)) as Hp.
  set (e := exp (E * ln 10)) in *.
  set (z0 := 144 / 100000000 * c) in *.
  assert (Hz0 : 0 <= z0 <= 108 / 1000000) by (unfold z0; lra).
  (* e <= 1 / (1 - z0) <= 1 + z0 + 2 z0^2 *)
  assert (He' : e <= 1 + z0 + 2 * (z0 * z0)).
  { apply Rmult_le_reg_r with (1 - z0); [lra|].
    apply Rle_trans with (1 := He). nra. }
  assert (Hz2 : z0 * z0 <= 108 / 1000000 * z0) by (apply Rmult_le_compat_r; lra).
  assert (He2 : e <= 1 + 1001 / 1000 * z0) by lra.
  assert (Hue : ulib * e <= 1 / 4194304 * (1 + 1001 / 1000 * (108 / 1000000)))
    by (apply Rmult_le_compat; lra).
  unfold z0 in *. lra.
Qed.



End RoundTripErrors.

Section Logarithms.
Import Levels.
Local Open Scope R_scope.

(** A positive [float] is 1, or at least 1 + 2^-23, or at most 1 - 2^-24. *)
Lemma float_away_from_one (m : positive) (e : Z) :
  F32.valid (S754_finite false m e) = true ->
  let x := to_R (S754_finite false m e) in
  x = 1 \/ 1 + / 2 ^ 23 <= x \/ x <= 1 - / 2 ^ 24.
Proof.
  intros Hv x. unfold x. rewrite to_R_finite_pos.
  assert (Hme : (Zpos m < 2 ^ 24 /\ -149 <= e <= 104)%Z).
  { apply valid_finite in Hv. split; [apply mantissa_bounds|]; lia. }
  destruct Hme as [Hm He]. change (2 ^ 24)%Z with 16777216%Z in Hm.
  destruct (Z.le_gt_cases 0 e) as [Hpos|Hneg].
  - (* an integer *)
    rewrite powerRZ_2_IZR by lia. rewrite <- mult_IZR.
    assert (Hp : (0 < 2 ^ e)%Z) by (apply Z.pow_pos_nonneg; lia).
    destruct (Z.eq_dec (Zpos m * 2 ^ e)%Z 1%Z) as [E|E].
    + left. now rewrite E.
    + right. left. apply Rle_trans with 2; [lra|]. apply IZR_le. nia.
  - set (k := (- e)%Z). set (q := (2 ^ k)%Z).
    assert (Hq : (0 < q)%Z) by (apply Z.pow_pos_nonneg; lia).
    assert (Hpw : powerRZ 2 e = / IZR q).
    { replace e with (- k)%Z by (unfold k; lia).
      rewrite powerRZ_neg'. now rewrite powerRZ_2_IZR by (unfold k; lia). }
    rewrite Hpw. assert (Hqr : 0 < IZR q) by (now apply IZR_lt).
    destruct (Z.lt_trichotomy (Zpos m) q) as [Hlt|[Heq|Hgt]].
    + right. right.
      destruct (Z.le_gt_cases k 24) as [Hk|Hk].
      * assert (Hq24 : (q <= 16777216)%Z).
        { unfold q. change 16777216%Z with (2 ^ 24)%Z. apply Z.pow_le_mono_r; lia. }
        apply IZR_le in Hq24.
        assert (Hm1 : IZR (Zpos m) <= IZR q - 1).
        { rewrite <- minus_IZR. apply IZR_le. lia. }
        apply Rmult_le_reg_r with (IZR q); [exact Hqr|].
        rewrite Rmult_assoc, Rinv_l by lra.
        assert (H1 : / 2 ^ 24 * IZR q <= 1).
        { apply Rmult_le_reg_l with (2 ^ 24); [lra|].
          rewrite <- Rmult_assoc, Rinv_r by lra. lra. }
        lra.
      * assert (Hq25 : (33554432 <= q)%Z).
        { unfold q. change 33554432%Z with (2 ^ 25)%Z. apply Z.pow_le_mono_r; lia. }
        apply IZR_le in Hq25. apply IZR_lt in Hm.
        apply Rmult_le_reg_r with (IZR q); [exact Hqr|].
        rewrite Rmult_assoc, Rinv_l by lra. lra.
    + left. rewrite Heq. field. lra.
    + right. left.
      assert (Hk : (k < 24)%Z).
      { apply (Z.pow_lt_mono_r_iff 2); [lia | lia |]. fold q.
        change (2 ^ 24)%Z with 16777216%Z. lia. }
      assert (Hq23 : (q <= 8388608)%Z).
      { unfold q. change 8388608%Z with (2 ^ 23)%Z. apply Z.pow_le_mono_r; lia. }
      apply IZR_le in Hq23.
      assert (Hm1 : IZR q + 1 <= IZR (Zpos m)).
      { rewrite <- plus_IZR. apply IZR_le. lia. }
      apply Rmult_le_reg_r with (IZR q); [exact Hqr|].
      rewrite Rmult_assoc, Rinv_l by lra.
      assert (H1 : / 2 ^ 23 * IZR q <= 1).
      { apply Rmult_le_reg_l with (2 ^ 23); [lra|].
        rewrite <- Rmult_assoc, Rinv_r by lra. lra. }
      lra.
Qed.

Lemma ln_away_from_one (x : R) :
  0 < x -> 1 + / 2 ^ 23 <= x \/ x <= 1 - / 2 ^ 24 -> / 2 ^ 24 <= Rabs (ln x).
Proof.
  intros Hx [Hup|Hdown].
  - assert (H1 : / 2 ^ 24 <= ln x).
    { pose proof (exp_ineq1_le (- ln x)) as He. rewrite exp_Ropp, exp_ln in He by exact Hx.
      assert (Hinv : / x <= / (1 + / 2 ^ 23)) by (apply Rinv_le_contravar; lra).
      assert (Hc : / (1 + / 2 ^ 23) <= 1 - / 2 ^ 24).
      { apply Rmult_le_reg_r with (1 + / 2 ^ 23); [lra|].
        rewrite Rinv_l by lra. lra. }
      lra. }
    rewrite Rabs_pos_eq; lra.
  - assert (H1 : ln x <= - / 2 ^ 24).
    { pose proof (exp_ineq1_le (ln x)) as He. rewrite exp_ln in He by exact Hx. lra. }
    rewrite Rabs_left1; lra.
Qed.

Lemma ln_monotone (x y : R) : 0 < x -> x <= y -> ln x <= ln y.
Proof.
  intros Hx [Hlt| ->]; [|lra]. left. now apply ln_increasing.
Qed.

Lemma ln_powerRZ_2 (k : Z) : ln (powerRZ 2 k) = IZR k * ln 2.
Proof.
  rewrite powerRZ_Rpower by lra. unfold Rpower. apply ln_exp.
Qed.

(** The logarithm of a positive [float]. *)
Lemma log10_float_range (m : positive) (e : Z) :
  F32.valid (S754_finite false m e) = true ->
  Rabs (log10 (to_R (S754_finite false m e))) <= 75.
Proof.
  intros Hv. pose proof (valid_magnitude false m e Hv) as [Hlo Hhi].
  set (x := to_R (S754_finite false m e)) in *.
  assert (Hx : 0 < x).
  { unfold x. rewrite to_R_finite_pos. apply Rmult_lt_0_compat;
      [apply IZR_lt; lia | apply powerRZ_2_pos]. }
  rewrite (Rabs_pos_eq x) in Hlo, Hhi by lra.
  pose proof (powerRZ_2_pos (-149)) as Hp.
  assert (H1 : ln (powerRZ 2 (-149)) <= ln x) by (apply ln_monotone; lra).
  assert (H2 : ln x <= ln (powerRZ 2 128)) by (apply ln_monotone; lra).
  rewrite ln_powerRZ_2 in H1, H2.
  pose proof ln_2_pos as Hl2. pose proof ln_2_le_1 as Hl1.
  pose proof ln_10_ge_2 as Hl10.
  assert (Hln : Rabs (ln x) <= 149) by (apply Rabs_le; lra).
  unfold log10, Rdiv. rewrite Rabs_mult.
  rewrite (Rabs_pos_eq (/ ln 10)) by (left; apply Rinv_0_lt_compat; lra).
  assert (Hinv : / ln 10 <= / 2) by (apply Rinv_le_contravar; lra).
  assert (Hi0 : 0 < / ln 10) by (apply Rinv_0_lt_compat; lra).
  pose proof (Rabs_pos (ln x)) as Ha.
  apply Rle_trans with (149 * / 2); [|lra].
  apply Rmult_le_compat; lra.
Qed.

Lemma log10_float_away (m : positive) (e : Z) :
  F32.valid (S754_finite false m e) = true ->
  let x := to_R (S754_finite false m e) in
  x = 1 \/ / 2 ^ 26 <= Rabs (log10 x).
Proof.
  intros Hv x.
  destruct (float_away_from_one m e Hv) as [H1|Haway]; [now left|right].
  fold x in Haway.
  assert (Hx : 0 < x).
  { unfold x. rewrite to_R_finite_pos. apply Rmult_lt_0_compat;
      [apply IZR_lt; lia | apply powerRZ_2_pos]. }
  pose proof (ln_away_from_one x Hx Haway) as Hln.
  pose proof ln_10_pos as Hl0. pose proof ln_10_le_4 as Hl4.
  unfold log10, Rdiv. rewrite Rabs_mult.
  rewrite (Rabs_pos_eq (/ ln 10)) by (left; apply Rinv_0_lt_compat; lra).
  assert (Hinv : / 4 <= / ln 10) by (apply Rinv_le_contravar; lra).
  apply Rle_trans with (/ 2 ^ 24 * / 4); [lra|].
  apply Rmult_le_compat; lra.
Qed.

Lemma log10_1 : log10 1 = 0.
Proof. unfold log10. rewrite ln_1. field. pose proof ln_10_pos. lra. Qed.

End Logarithms.

(** ** The decibel conversions in binary32 *)

Section Twenty.
Import Levels.
Local Open Scope R_scope.

Lemma to_R_zero_iff (x : F32.float) :
  is_finite x = true -> to_R x = 0 -> exists s, x = S754_zero s.
Proof.
  destruct x as [s|s| |s m e]; try discriminate; intros _ Hx; [now exists s|].
  exfalso. pose proof (to_R_abs s m e) as Ha. rewrite Hx, Rabs_R0 in Ha.
  pose proof (powerRZ_2_pos e) as Hp.
  assert (Hm : 0 < IZR (Zpos m)) by (apply IZR_lt; lia).
  assert (0 < IZR (Zpos m) * powerRZ 2 e) by (now apply Rmult_lt_0_compat).
  lra.
Qed.

(** The product with 20.f. *)
Lemma mul_twenty_accurate (l : F32.float) :
  normal_or_zero l = true -> (exponent l <= 98)%Z ->
  normal_or_zero (F32.mul F32.twenty l) = true
  /\ ((-148 <= exponent l)%Z -> (-144 <= exponent (F32.mul F32.twenty l))%Z)
  /\ Rabs (to_R (F32.mul F32.twenty l) - 20 * to_R l) <= u32 * Rabs (20 * to_R l).
Proof.
  intros Hn He. destruct l as [s|s| |s m e]; try discriminate.
  - cbn. split; [reflexivity | split; [lia|]].
    replace (0 - 20 * 0) with 0 by ring. rewrite Rabs_R0.
    replace (20 * 0) with 0 by ring. rewrite Rabs_R0. lra.
  - cbn [normal_or_zero] in Hn.
    destruct (normal_finite _ Hn) as (s' & m' & e' & E & Hd & Hr). injection E as <- <- <-.
    cbn [exponent] in He.
    destruct (mul_accurate F32.twenty (S754_finite s m e) eq_refl Hn) as (Hnr & Hex & Hacc).
    { cbn [exponent F32.twenty]. lia. }
    cbn [exponent F32.twenty] in Hex. rewrite to_R_twenty in Hacc.
    split; [|split].
    + destruct (F32.mul F32.twenty (S754_finite s m e)); try discriminate; exact Hnr.
    + cbn [exponent]. lia.
    + exact Hacc.
Qed.

(** The quotient by 20.f. *)
Lemma div_twenty_accurate (d : F32.float) :
  normal_or_zero d = true -> (-144 <= exponent d)%Z ->
  normal_or_zero (F32.div d F32.twenty) = true
  /\ Rabs (to_R (F32.div d F32.twenty) - to_R d / 20) <= u32 * Rabs (to_R d / 20).
Proof.
  intros Hn He. destruct d as [s|s| |s m e]; try discriminate.
  - cbn. split; [reflexivity|].
    replace (0 - 0 / 20) with 0 by field. rewrite Rabs_R0.
    replace (0 / 20) with 0 by field. rewrite Rabs_R0. lra.
  - cbn [normal_or_zero] in Hn.
    destruct (normal_finite _ Hn) as (s' & m' & e' & E & Hd & Hr). injection E as <- <- <-.
    cbn [exponent] in He.
    destruct (div_accurate (S754_finite s m e) F32.twenty Hn eq_refl) as (Hnr & Hacc).
    { cbn [exponent F32.twenty]. lia. }
    rewrite to_R_twenty in Hacc.
    split; [|exact Hacc].
    destruct (F32.div (S754_finite s m e) F32.twenty); try discriminate; exact Hnr.
Qed.

(** What an accurate [log10] returns for a positive [float]: zero or a
    normal datum, of an exponent that the product with 20.f and the
    quotient by 20.f keep in the normal range. *)
Lemma library_log (ulib : R) (m : positive) (e : Z) (l : F32.float) :
  F32.valid (S754_finite false m e) = true ->
  0 <= ulib <= / 2 ->
  F32.valid l = true -> is_finite l = true ->
  Rabs (to_R l - log10 (to_R (S754_finite false m e)))
  <= ulib * Rabs (log10 (to_R (S754_finite false m e))) ->
  normal_or_zero l = true /\ (-148 <= exponent l <= 98)%Z.
Proof.
  intros Hv Hu Hvl Hfl Hacc.
  pose proof (log10_float_range m e Hv) as Hrange.
  destruct (log10_float_away m e Hv) as [H1|Haway].
  - rewrite H1, log10_1, Rabs_R0, Rmult_0_r, Rminus_0_r in Hacc.
    assert (Hz : to_R l = 0).
    { pose proof (Rabs_pos (to_R l)). apply Rabs_le_between in Hacc. lra. }
    destruct (to_R_zero_iff l Hfl Hz) as [s ->]. cbn. split; [reflexivity | lia].
  - cbv zeta in Haway. set (L := log10 (to_R (S754_finite false m e))) in *.
    assert (Hlo : / 2 ^ 27 <= Rabs (to_R l)).
    { replace (to_R l) with (L + (to_R l - L)) by ring.
      pose proof (Rabs_triang_inv L (- (to_R l - L))) as Ht.
      rewrite Rabs_Ropp in Ht.
      replace (L - - (to_R l - L)) with (L + (to_R l - L)) in Ht by ring.
      assert (Hh : ulib * Rabs L <= / 2 * Rabs L)
        by (apply Rmult_le_compat_r; [apply Rabs_pos | lra]).
      lra. }
    assert (Hhi : Rabs (to_R l) < 2 ^ 7).
    { replace (to_R l) with (L + (to_R l - L)) by ring.
      apply Rle_lt_trans with (1 := Rabs_triang _ _).
      assert (Hh : ulib * Rabs L <= / 2 * Rabs L)
        by (apply Rmult_le_compat_r; [apply Rabs_pos | lra]).
      lra. }
    assert (Hp27 : powerRZ 2 (-27) = / 2 ^ 27).
    { unfold powerRZ. now change (Pos.to_nat 27) with 27%nat. }
    assert (Hp7 : powerRZ 2 7 = 2 ^ 7).
    { unfold powerRZ. now change (Pos.to_nat 7) with 7%nat. }
    assert (Hn : normal l = true).
    { apply valid_normal; [exact Hvl|].
      apply Rle_trans with (powerRZ 2 (-27)); [apply powerRZ_2_le; lia|].
      rewrite Hp27. exact Hlo. }
    rewrite <- Hp27 in Hlo. rewrite <- Hp7 in Hhi.
    pose proof (normal_exponent l (-27) 7 Hn Hlo Hhi) as Hex.
    split; [|lia].
    destruct l; try discriminate; exact Hn.
Qed.

Lemma gtb_zero_finite (x : F32.float) :
  is_finite x = true -> F32.gtb x F32.zero = true ->
  exists m e, x = S754_finite false m e.
Proof.
  destruct x as [[]|s| |[] m e]; try discriminate. intros _ _. now exists m, e.
Qed.


End Twenty.

(** ** The decibel round trip *)

Section DecibelRoundTrip.
Context `{Platform}.
Import Levels.
Local Open Scope R_scope.

(** [fromDb (toDb x)] in binary32, for a positive [float] [x] whose
    decibel image is above the floor: the product with 20.f and the
    quotient by 20.f are those of [F32], off by 2^-24 at most, and the C
    library's [log10] and [pow] are off by [ulib] at most at the two places
    where they are called. *)
Lemma fromDb_toDb_accurate (ulib : R) (x : F32.float) :
  F32.valid x = true -> is_finite x = true -> F32.gtb x F32.zero = true ->
  F32.gtb (Param.toDb x) Param.MIN_DB = true ->
  0 <= ulib <= / 2 ->
  F32.valid (std_log10 x) = true -> is_finite (std_log10 x) = true ->
  Rabs (to_R (std_log10 x) - log10 (to_R x)) <= ulib * Rabs (log10 (to_R x)) ->
  (let y := F32.div (F32.mul F32.twenty (std_log10 x)) F32.twenty in
   Rabs (to_R (std_pow F32.ten y) - pow10 (to_R y)) <= ulib * pow10 (to_R y)) ->
  Param.fromDb (Param.toDb x)
  = std_pow F32.ten (F32.div (F32.mul F32.twenty (std_log10 x)) F32.twenty)
  /\ Rabs (to_R (Param.fromDb (Param.toDb x)) - to_R x) <= tolerance ulib (to_R x) * to_R x
  /\ Rabs (log10 (to_R x)) <= 75.
Proof.
  intros Hv Hf Hx Hd Hu Hvl Hfl Hl Hp. cbv zeta in Hp.
  assert (E : Param.fromDb (Param.toDb x)
              = std_pow F32.ten (F32.div (F32.mul F32.twenty (std_log10 x)) F32.twenty)).
  { unfold Param.fromDb. rewrite (gtb_not_leb _ _ Hd). unfold Param.toDb. now rewrite Hx. }
  split; [exact E|]. rewrite E.
  destruct (gtb_zero_finite x Hf Hx) as (m & e & ->).
  pose proof (log10_float_range m e Hv) as Hrange.
  split; [|exact Hrange].
  destruct (library_log ulib m e _ Hv Hu Hvl Hfl Hl) as (Hn & Hel & Heh).
  destruct (mul_twenty_accurate _ Hn Heh) as (Hnd & Hed & Hdacc).
  destruct (div_twenty_accurate _ Hnd (Hed Hel)) as (_ & Hyacc).
  apply (forward_error ulib _ _ _ _ _ ltac:(lra)) with (3 := Hdacc) (4 := Hyacc);
    [|exact Hl | exact Hp].
  rewrite to_R_finite_pos.
  apply Rmult_lt_0_compat; [apply IZR_lt; lia | apply powerRZ_2_pos].
Qed.

End DecibelRoundTrip.

Section DecibelClaim.
Import Levels.
Local Open Scope R_scope.

Lemma tolerance_small (ulib x : R) :
  0 <= ulib <= / 2 ^ 22 -> Rabs (log10 x) <= 39 -> tolerance ulib x <= / 2 ^ 14.
Proof.
  intros Hu HL. pose proof (tolerance_bound ulib x 39 Hu HL ltac:(lra)). lra.
Qed.

(** C7 as the code has it.  [toDb 0] is [MIN_DB], which is -96, and
    [fromDb MIN_DB] is 0, on every platform.  For a finite [x > 0] whose
    decibel image is above [MIN_DB], [fromDb (toDb x)] is
    [pow (10, 20 * log10 x / 20)] with the binary32 product and quotient;
    when the C library's [log10] and [pow] return finite values that are
    off by at most the relative error [ulib] (so that [pow] has not
    overflown), the result is [x] up to the relative error
    [tolerance ulib x], which is below 2^-13 for a library that is off by
    at most 2^-22, and below 2^-14 for [x] between 10^-39 and 10^39. *)
Theorem decibel_round_trip :
  (forall P : Platform,
      Param.toDb F32.zero = Param.MIN_DB /\ Param.MIN_DB = F32.of_int (-96) /\
      Param.fromDb Param.MIN_DB = F32.zero) /\
  (forall (P : Platform) (ulib : R) (x : F32.float),
      F32.valid x = true -> is_finite x = true -> F32.gtb x F32.zero = true ->
      Param.toDb x = F32.mul F32.twenty (std_log10 x) /\
      (F32.gtb (Param.toDb x) Param.MIN_DB = true ->
       Param.fromDb (Param.toDb x)
       = std_pow F32.ten (F32.div (F32.mul F32.twenty (std_log10 x)) F32.twenty) /\
       (0 <= ulib <= / 2 ->
        F32.valid (std_log10 x) = true -> is_finite (std_log10 x) = true ->
        Rabs (to_R (std_log10 x) - log10 (to_R x)) <= ulib * Rabs (log10 (to_R x)) ->
        (let y := F32.div (F32.mul F32.twenty (std_log10 x)) F32.twenty in
         Rabs (to_R (std_pow F32.ten y) - pow10 (to_R y)) <= ulib * pow10 (to_R y)) ->
        Rabs (to_R (Param.fromDb (Param.toDb x)) - to_R x)
        <= tolerance ulib (to_R x) * to_R x
        /\ (ulib <= / 2 ^ 22 ->
            Rabs (to_R (Param.fromDb (Param.toDb x)) - to_R x) <= / 2 ^ 13 * to_R x)))) /\
  (forall ulib x : R,
      0 <= ulib <= / 2 ^ 22 -> Rabs (log10 x) <= 39 -> tolerance ulib x <= / 2 ^ 14).
Proof.
  split; [|split].
  - intros P. repeat split.
  - intros P ulib x Hv Hf Hx.
    split; [unfold Param.toDb; now rewrite Hx|].
    intros Hd.
    split; [unfold Param.fromDb; rewrite (gtb_not_leb _ _ Hd); unfold Param.toDb;
            now rewrite Hx|].
    intros Hu Hvl Hfl Hl Hp.
    destruct (fromDb_toDb_accurate ulib x Hv Hf Hx Hd Hu Hvl Hfl Hl Hp) as (_ & Hacc & Hr).
    split; [exact Hacc|].
    intros Hu22.
    pose proof (tolerance_bound ulib (to_R x) 75 ltac:(lra) Hr ltac:(lra)) as Ht.
    destruct (gtb_zero_finite x Hf Hx) as (m & e & ->).
    assert (Hxr : 0 < to_R (S754_finite false m e)).
    { rewrite to_R_finite_pos.
      apply Rmult_lt_0_compat; [apply IZR_lt; lia | apply powerRZ_2_pos]. }
    apply Rle_trans with (1 := Hacc). apply Rmult_le_compat_r; lra.
  - exact tolerance_small.
Qed.

End DecibelClaim.

Section DecibelExamples.
Import Levels.
Local Open Scope R_scope.

Lemma to_R_one_up : to_R one_up = 1 + / 2 ^ 23.
Proof.
  unfold one_up. cbn [to_R]. unfold powerRZ.
  change (Pos.to_nat 23) with 23%nat. lra.
Qed.


Lemma to_R_ten_up3 : to_R ten_up3 = 10 + 3 / 2 ^ 20.
Proof.
  unfold ten_up3. cbn [to_R]. unfold powerRZ.
  change (Pos.to_nat 20) with 20%nat. lra.
Qed.

Lemma log10_10 : log10 10 = 1.
Proof. unfold log10. field. pose proof ln_10_pos. lra. Qed.

Lemma pow10_1 : pow10 1 = 10.
Proof. unfold pow10. rewrite Rmult_1_l. apply exp_ln. lra. Qed.

(** 10 to a power a little above 1. *)
Lemma pow10_above_1 (t : R) :
  0 <= t <= / 8 ->
  10 * (1 + 2 * t) <= pow10 (1 + t) /\ pow10 (1 + t) * (1 - 4 * t) <= 10.
Proof.
  intros Ht. rewrite pow10_plus, pow10_1. unfold pow10.
  pose proof ln_10_ge_2 as H2. pose proof ln_10_le_4 as H4.
  pose proof (exp_ineq1_le (t * ln 10)) as Hlo.
  assert (Hz : 0 <= t * ln 10 <= 4 * t) by nra.
  pose proof (exp_small _ _ Hz ltac:(lra)) as Hhi.
  pose proof (exp_pos (t * ln 10)) as Hp.
  split; nra.
Qed.

(** The logarithm and the power that [fromDb (toDb 10.f)] asks of the
    coarse library are within 2^-22 of the exact ones. *)
Lemma coarse_log10_ten :
  Rabs (to_R one_up - log10 10) <= / 2 ^ 22 * Rabs (log10 10).
Proof.
  rewrite to_R_one_up, log10_10, Rabs_R1.
  replace (1 + / 2 ^ 23 - 1) with (/ 2 ^ 23) by ring.
  rewrite Rabs_pos_eq; lra.
Qed.

Lemma coarse_pow_one_up :
  Rabs (to_R ten_up3 - pow10 (to_R one_up)) <= / 2 ^ 22 * pow10 (to_R one_up).
Proof.
  rewrite to_R_ten_up3, to_R_one_up.
  destruct (pow10_above_1 (/ 2 ^ 23) ltac:(lra)) as [Hlo Hhi].
  set (v := pow10 (1 + / 2 ^ 23)) in *.
  assert (Hv : v <= 10 + 6 / 2 ^ 20).
  { apply Rmult_le_reg_r with (1 - 4 * / 2 ^ 23); [lra|].
    apply Rle_trans with (1 := Hhi). lra. }
  apply Rabs_le. lra.
Qed.

Lemma pow_lt_ln (a b : Z) (p q : positive) :
  (1 < a)%Z -> (1 < b)%Z -> (a ^ Zpos p <? b ^ Zpos q)%Z = true ->
  IZR (Zpos p) * ln (IZR a) < IZR (Zpos q) * ln (IZR b).
Proof.
  intros Ha Hb Hlt. apply Z.ltb_lt in Hlt. apply IZR_lt in Hlt.
  rewrite <- (positive_nat_Z p), <- (positive_nat_Z q) in Hlt.
  rewrite <- !pow_IZR in Hlt.
  assert (Har : 0 < IZR a) by (apply IZR_lt; lia).
  assert (Hbr : 0 < IZR b) by (apply IZR_lt; lia).
  apply ln_increasing in Hlt; [|now apply pow_lt].
  rewrite !ln_pow in Hlt by assumption.
  now rewrite !INR_IZR_INZ, !positive_nat_Z in Hlt.
Qed.

(** The decimal logarithm of 2 between 643/2136 and 3361/11165, from
    [5^643 < 2^1493] and [2^7804 < 5^3361]. *)
Lemma log10_2_bounds : 643 * ln 10 < 2136 * ln 2 /\ 11165 * ln 2 < 3361 * ln 10.
Proof.
  assert (H10 : ln 10 = ln 2 + ln 5).
  { rewrite <- ln_mult by lra. f_equal; lra. }
  pose proof (pow_lt_ln 5 2 643 1493 ltac:(lia) ltac:(lia) ltac:(vm_compute; reflexivity)) as H1.
  pose proof (pow_lt_ln 2 5 7804 3361 ltac:(lia) ltac:(lia) ltac:(vm_compute; reflexivity)) as H2.
  rewrite H10. lra.
Qed.

Lemma to_R_FLT_MAX : to_R FLT_MAX = (2 ^ 24 - 1) * powerRZ 2 104.
Proof. unfold FLT_MAX. cbn [to_R]. lra. Qed.

Lemma to_R_log10_FLT_MAX : to_R log10_FLT_MAX = 10100891 / 2 ^ 18.
Proof.
  unfold log10_FLT_MAX. cbn [to_R]. unfold powerRZ.
  change (Pos.to_nat 18) with 18%nat. lra.
Qed.

Lemma ln_FLT_MAX :
  128 * ln 2 - / 2 ^ 23 <= ln (to_R FLT_MAX) <= 128 * ln 2.
Proof.
  rewrite to_R_FLT_MAX.
  pose proof (powerRZ_2_pos 104) as Hp.
  rewrite ln_mult by lra. rewrite ln_powerRZ_2.
  replace (2 ^ 24 - 1) with (2 ^ 24 * (1 - / 2 ^ 24)) by field.
  rewrite ln_mult by lra. rewrite ln_pow by lra.
  rewrite INR_IZR_INZ.
  pose proof (ln_near_1 (/ 2 ^ 24) (1 - / 2 ^ 24) ltac:(lra) ltac:(lra)) as Hn.
  apply Rabs_le_between in Hn.
  assert (Hq : / 2 ^ 24 / (1 - / 2 ^ 24) <= / 2 ^ 23).
  { apply Rmult_le_reg_r with (1 - / 2 ^ 24); [lra|].
    unfold Rdiv. rewrite Rmult_assoc, Rinv_l by lra. lra. }
  assert (Hneg : ln (1 - / 2 ^ 24) <= 0).
  { rewrite <- ln_1. apply ln_monotone; lra. }
  change (IZR (Z.of_nat 24)) with 24. lra.
Qed.

End DecibelExamples.

Section DecibelWitness.
Import Levels.
Local Open Scope R_scope.

Lemma decibel_round_trip_witness :
  Param.fromDb (H := coarse_platform) (Param.toDb (H := coarse_platform) F32.ten) = ten_up3
  /\ Rabs (to_R (Param.fromDb (H := coarse_platform)
                   (Param.toDb (H := coarse_platform) F32.ten)) - to_R F32.ten)
     <= / 2 ^ 13 * to_R F32.ten.
Proof.
  destruct (proj1 (proj2 decibel_round_trip) coarse_platform (/ 2 ^ 22) F32.ten
              eq_refl eq_refl eq_refl) as (_ & Hrt).
  destruct (Hrt eq_refl) as (E & Hacc).
  split; [exact E|].
  apply Hacc.
  - lra.
  - reflexivity.
  - reflexivity.
  - change (std_log10 F32.ten) with one_up. rewrite to_R_ten. exact coarse_log10_ten.
  - change (F32.div (F32.mul F32.twenty (std_log10 F32.ten)) F32.twenty) with one_up.
    change (std_pow F32.ten one_up) with ten_up3. exact coarse_pow_one_up.
  - lra.
Defined.

(** C7 as stated fails at the largest [float].  It is finite and positive
    and its decibel image, 770.63684f, is above the floor.  The [float]
    nearest to its decimal logarithm is 38.53184f, within 2^-22 of the
    logarithm; a [log10] that returns it makes [fromDb (toDb FLT_MAX)] the
    power [pow (10.f, 38.53184f)], and 10 to that power is more than
    2^128, beyond every [float]: a [pow] that reports the overflow returns
    the infinity, and the round trip gives the infinity for [FLT_MAX]. *)
Lemma decibel_round_trip_counterexample :
  (F32.valid FLT_MAX = true /\ is_finite FLT_MAX = true
   /\ F32.gtb FLT_MAX F32.zero = true) /\
  (forall P : Platform,
      std_log10 FLT_MAX = log10_FLT_MAX ->
      F32.gtb (Param.toDb FLT_MAX) Param.MIN_DB = true
      /\ Param.fromDb (Param.toDb FLT_MAX) = std_pow F32.ten log10_FLT_MAX
      /\ (std_pow F32.ten log10_FLT_MAX = S754_infinity false ->
          Param.fromDb (Param.toDb FLT_MAX) = S754_infinity false
          /\ is_finite (Param.fromDb (Param.toDb FLT_MAX)) = false)) /\
  Rabs (to_R log10_FLT_MAX - log10 (to_R FLT_MAX))
  <= / 2 ^ 22 * Rabs (log10 (to_R FLT_MAX)) /\
  powerRZ 2 128 < pow10 (to_R log10_FLT_MAX).
Proof.
  split; [repeat split|]. split; [|split].
  - intros P Hlog.
    assert (Hd : Param.toDb FLT_MAX = S754_finite false 12626114 (-14)).
    { unfold Param.toDb. change (F32.gtb FLT_MAX F32.zero) with true. cbv iota.
      rewrite Hlog. reflexivity. }
    rewrite Hd. split; [reflexivity|].
    assert (E : Param.fromDb (S754_finite false 12626114 (-14))
                = std_pow F32.ten log10_FLT_MAX).
    { unfold Param.fromDb.
      change (F32.leb (S754_finite false 12626114 (-14)) Param.MIN_DB) with false. cbv iota.
      reflexivity. }
    split; [exact E|]. intros Hinf. rewrite E, Hinf. split; reflexivity.
  - pose proof ln_FLT_MAX as [Hlo Hhi]. pose proof log10_2_bounds as [H1 H2].
    pose proof ln_10_pos as Hl0. pose proof ln_10_ge_2 as Hl2.
    rewrite to_R_log10_FLT_MAX. unfold log10.
    set (lx := ln (to_R FLT_MAX)) in *.
    assert (Hlx : 0 < lx) by lra.
    assert (Hq : 0 < lx / ln 10) by (apply Rdiv_lt_0_compat; lra).
    rewrite (Rabs_pos_eq (lx / ln 10)) by lra.
    apply Rabs_le. split.
    + apply Rmult_le_reg_r with (ln 10); [lra|].
      replace ((10100891 / 2 ^ 18 - lx / ln 10) * ln 10)
        with (10100891 / 2 ^ 18 * ln 10 - lx) by (field; lra).
      replace (- (/ 2 ^ 22 * (lx / ln 10)) * ln 10) with (- (/ 2 ^ 22 * lx)) by (field; lra).
      lra.
    + apply Rmult_le_reg_r with (ln 10); [lra|].
      replace ((10100891 / 2 ^ 18 - lx / ln 10) * ln 10)
        with (10100891 / 2 ^ 18 * ln 10 - lx) by (field; lra).
      replace (/ 2 ^ 22 * (lx / ln 10) * ln 10) with (/ 2 ^ 22 * lx) by (field; lra).
      lra.
  - pose proof log10_2_bounds as [_ H2]. pose proof ln_10_pos as Hl0.
    rewrite to_R_log10_FLT_MAX. unfold pow10.
    rewrite powerRZ_Rpower by lra. unfold Rpower.
    apply exp_increasing. change (IZR 128) with 128. lra.
Qed.

End DecibelWitness.

(** ** The decibel round trip, the way back *)

Section DecibelBack.
Context `{Platform}.
Import Levels.
Local Open Scope R_scope.



End DecibelBack.

Section DecibelBackClaim.
Import Levels.
Local Open Scope R_scope.






End DecibelBackClaim.
